(** * Translator.py: a shallow embedding and its verified properties

    The development follows [src/Translator.py] class by class.  Python
    values are modelled by the type [val], raised exceptions by [exn], and
    every method that may raise returns a [result].  A translator object is
    a term of the inductive type [Translator]; [encode] and [decode]
    dispatch on it the way the method calls do. *)

From Stdlib Require Import String Ascii ZArith List Bool Lia.
From Stdlib Require DecimalString.
Import ListNotations.
Set Warnings "-register-all".
Local Open Scope Z_scope.

(** ** Python strings *)

(** A character is its Unicode code point, so [ord] and [chr] are the
    identity on valid code points; a [str] is the sequence of its
    characters. *)
Definition char := Z.
Definition str := list char.

(** String literals of the source, written as Rocq strings. *)
Definition lit (s : string) : str :=
  map (fun a => Z.of_nat (nat_of_ascii a)) (list_ascii_of_string s).

Definition newline : char := 10.
Definition minus_sign : char := 45.
Definition zero_char : char := 48.

(** ** Values and exceptions *)

(** [VGen l e] is a generator object: consuming it yields the items of [l]
    in order and then either stops ([e = None]) or raises ([e = Some x]).
    Every [raise] of the source, and every exception of a builtin the
    source calls, is a constructor of [exn]. *)
Inductive val : Type :=
| VInt (n : Z)
| VStr (s : str)
| VList (l : list val)
| VGen (l : list val) (e : option exn)
with exn : Type :=
| ValueError_expected_char (got : val)   (* "Expected char not str! Got ..." *)
| ValueError_number_range (number : Z)   (* "number must be between 0 and 255, got ..." *)
| ValueError_base (base : Z)             (* "base musst be >= 2, got ..." *)
| ValueError_digits_len (len : Z)        (* "len(digits) musst be >= base, got ..." *)
| ValueError_substring_not_found         (* str.index: "substring not found" *)
| ValueError_no_message                  (* "No message found!" *)
| ValueError_bad_start (found : str)     (* "Message doesn't start with ..." *)
| ValueError_bad_end (found : str)       (* "Message doesn't end with ..." *)
| ValueError_empty_separator             (* str.split: "empty separator" *)
| ValueError_chr_range                   (* chr: "chr() arg not in range(0x110000)" *)
| IndexError_string_index                (* "string index out of range" *)
| KeyError (key : val)
| RuntimeError_no_translators            (* "Can't build TranslatorChain without translators!" *)
| TypeError
| AttributeError
| re_error                               (* re.compile: "nothing to repeat", "multiple repeat" *)
| ZeroDivisionError
| OutsideModel.                          (* behaviour of a builtin this model does not cover *)

Inductive result (A : Type) : Type :=
| Ok (a : A)
| Err (e : exn).
Arguments Ok {A} a.
Arguments Err {A} e.

Definition bind {A B} (r : result A) (k : A -> result B) : result B :=
  match r with
  | Ok a => k a
  | Err e => Err e
  end.

Notation "x <- r ;; k" := (bind r (fun x => k))
  (at level 61, r at next level, right associativity).

(** The error kinds of the specification (section 7), and the kind of each
    exception; exceptions of builtins that the source does not guard have
    none. *)
Inductive kind : Type :=
| InvalidInput | OutOfRange | InvalidDigit | KeyNotFound
| BuildError | NotFound | MalformedFrame.

Definition kind_of (e : exn) : option kind :=
  match e with
  | ValueError_expected_char _ => Some InvalidInput
  | ValueError_number_range _ => Some OutOfRange
  | ValueError_substring_not_found => Some InvalidDigit
  | KeyError _ => Some KeyNotFound
  | RuntimeError_no_translators => Some BuildError
  | ValueError_no_message => Some NotFound
  | ValueError_bad_start _ | ValueError_bad_end _ => Some MalformedFrame
  | _ => None
  end.

(** ** Builtins used by the source *)

Definition len (s : str) : Z := Z.of_nat (length s).

Definition ord (c : char) : Z := c.

Definition chr (i : Z) : result char :=
  if (0 <=? i) && (i <? 1114112) then Ok i else Err ValueError_chr_range.

(** [s[i]] with Python's negative indices. *)
Definition str_get (s : str) (i : Z) : result char :=
  let j := if i <? 0 then i + len s else i in
  if j <? 0 then Err IndexError_string_index
  else match nth_error s (Z.to_nat j) with
       | Some c => Ok c
       | None => Err IndexError_string_index
       end.

(** [s[a:b]] with Python's clamping of both bounds. *)
Definition clamp (n : Z) (i : Z) : Z :=
  let j := if i <? 0 then i + n else i in
  Z.max 0 (Z.min n j).

Definition slice (s : str) (a b : Z) : str :=
  let lo := clamp (len s) a in
  let hi := clamp (len s) b in
  skipn (Z.to_nat lo) (firstn (Z.to_nat hi) s).

(** [s[a:]] and [s[:b]]. *)
Definition slice_from (s : str) (a : Z) : str := slice s a (len s).
Definition slice_to (s : str) (b : Z) : str := slice s 0 b.

Fixpoint str_eqb (s t : str) : bool :=
  match s, t with
  | [], [] => true
  | c :: s', d :: t' => (c =? d) && str_eqb s' t'
  | _, _ => false
  end.

Fixpoint startswith (s p : str) {struct p} : bool :=
  match p, s with
  | [], _ => true
  | d :: p', c :: s' => (c =? d) && startswith s' p'
  | _ :: _, [] => false
  end.

Definition endswith (s p : str) : bool := startswith (rev s) (rev p).

(** [s.index(c)] for a one-character [c]: the first position of [c]. *)
Fixpoint index (s : str) (c : char) : result Z :=
  match s with
  | [] => Err ValueError_substring_not_found
  | d :: s' => if d =? c then Ok 0 else i <- index s' c ;; Ok (i + 1)
  end.

(** Iterating a value: the items it yields and how the iteration ends. *)
Definition iter (v : val) : result (list val * option exn) :=
  match v with
  | VStr s => Ok (map (fun c => VStr [c]) s, None)
  | VList l => Ok (l, None)
  | VGen l e => Ok (l, e)
  | VInt _ => Err TypeError
  end.

(** Consuming an iterable to its end, as [list(...)] and [str.join] do. *)
Definition consume (v : val) : result (list val) :=
  p <- iter v ;;
  match snd p with
  | None => Ok (fst p)
  | Some e => Err e
  end.

Definition py_list (v : val) : result val :=
  l <- consume v ;; Ok (VList l).

Fixpoint strs_of (l : list val) : result (list str) :=
  match l with
  | [] => Ok []
  | VStr s :: l' => r <- strs_of l' ;; Ok (s :: r)
  | _ :: _ => Err TypeError
  end.

Fixpoint intercalate (sep : str) (l : list str) : str :=
  match l with
  | [] => []
  | [s] => s
  | s :: l' => s ++ sep ++ intercalate sep l'
  end.

(** [sep.join(v)]: the iterable is consumed first, then every item must be
    a string. *)
Definition py_join (sep : str) (v : val) : result val :=
  l <- consume v ;;
  ss <- strs_of l ;;
  Ok (VStr (intercalate sep ss)).

(** [s.split(sep)] for a given separator: occurrences of [sep] are found
    from the left and do not overlap.  [skip] counts the characters of an
    occurrence still to be passed, [cur] is the current piece reversed. *)
Fixpoint split_go (sep : str) (skip : nat) (cur : str) (s : str) : list str :=
  match s with
  | [] => [rev cur]
  | c :: s' =>
    match skip with
    | S k => split_go sep k cur s'
    | O =>
      if startswith s sep
      then rev cur :: split_go sep (length sep - 1) [] s'
      else split_go sep 0 (c :: cur) s'
    end
  end.

Definition split (s sep : str) : result (list str) :=
  match sep with
  | [] => Err ValueError_empty_separator
  | _ :: _ => Ok (split_go sep 0 [] s)
  end.

Definition py_split (sep : str) (v : val) : result val :=
  match v with
  | VStr s => l <- split s sep ;; Ok (VList (map VStr l))
  | _ => Err AttributeError
  end.

(** [str(v)]: a string is returned as it is and an integer in decimal; the
    [repr] of lists and generator objects is outside the model. *)
Definition py_str (v : val) : result val :=
  match v with
  | VStr s => Ok (VStr s)
  | VInt n => Ok (VStr (lit (DecimalString.NilZero.string_of_int (Z.to_int n))))
  | _ => Err OutsideModel
  end.

(** ** The fragment of [re] the source relies on *)

(** [EmbeddedMessageTranslator] compiles the pattern [start + ".*" + end]
    with the markers pasted in unescaped.  The model covers the patterns
    made of ordinary characters, [.] and a greedy [*] after either; a
    pattern with any other special character is answered [OutsideModel].
    [.] matches every character but the newline (no [re.DOTALL]). *)
Inductive atom : Type :=
| Chr (c : char)
| Dot.

Inductive item : Type :=
| One (a : atom)
| Star (a : atom).

Definition regex := list item.

Definition star_char : char := 42.
Definition dot_char : char := 46.

(** The special characters [\ ^ $ + ? { } [ ] ( ) |], none of them modelled. *)
Definition unmodelled_special (c : char) : bool :=
  existsb (Z.eqb c) [92; 94; 36; 43; 63; 123; 125; 91; 93; 40; 41; 124].

Definition atom_of (c : char) : atom :=
  if c =? dot_char then Dot else Chr c.

Fixpoint parse (p : str) : result regex :=
  match p with
  | [] => Ok []
  | c :: p' =>
    if c =? star_char then Err re_error
    else match p' with
         | [] => Ok [One (atom_of c)]
         | s :: p'' =>
           if s =? star_char
           then r <- parse p'' ;; Ok (Star (atom_of c) :: r)
           else r <- parse p' ;; Ok (One (atom_of c) :: r)
         end
  end.

Definition re_compile (p : str) : result regex :=
  if existsb unmodelled_special p then Err OutsideModel else parse p.

Definition atom_matches (a : atom) (c : char) : bool :=
  match a with
  | Chr d => c =? d
  | Dot => negb (c =? newline)
  end.

(** Backtracking matcher; the result is the number of characters matched.
    A starred atom first takes as many characters as it can and gives them
    back one at a time while the rest of the pattern fails. *)
Fixpoint match_star (a : atom) (k : str -> option nat) (s : str) : option nat :=
  match s with
  | [] => k s
  | c :: s' =>
    if atom_matches a c
    then match match_star a k s' with
         | Some n => Some (S n)
         | None => k s
         end
    else k s
  end.

Fixpoint match_here (r : regex) (s : str) : option nat :=
  match r with
  | [] => Some O
  | One a :: r' =>
    match s with
    | [] => None
    | c :: s' => if atom_matches a c then option_map S (match_here r' s') else None
    end
  | Star a :: r' => match_star a (match_here r') s
  end.

(** The text of the first match that [pattern.finditer(text)] yields: the
    match at the leftmost position that has one. *)
Fixpoint first_match (r : regex) (s : str) : option str :=
  match match_here r s with
  | Some n => Some (firstn n s)
  | None =>
    match s with
    | [] => None
    | _ :: s' => first_match r s'
    end
  end.

(** ** Dictionaries from strings to strings *)

(** Insertion order is kept and assigning an existing key replaces its
    value in place, as in a Python [dict]. *)
Definition dict := list (str * str).

Fixpoint dict_get (d : dict) (k : str) : option str :=
  match d with
  | [] => None
  | (k', v) :: d' => if str_eqb k' k then Some v else dict_get d' k
  end.

Fixpoint dict_set (d : dict) (k v : str) : dict :=
  match d with
  | [] => [(k, v)]
  | (k', v') :: d' =>
    if str_eqb k' k then (k', v) :: d' else (k', v') :: dict_set d' k v
  end.

(** A dict comprehension over [items]. *)
Definition dict_of_items (items : list (str * str)) : dict :=
  fold_left (fun d kv => dict_set d (fst kv) (snd kv)) items [].

(** ** Translators *)

Inductive Translator : Type :=
| UnicodeCharacterTranslator
| Base10ToBaseNTranslator (base : Z) (digits : str) (padding : Z)
| InvertedTranslator (t : Translator)
| IterableTranslator (itemTranslator : Translator)
| StringReplacementTranslator (charset charset_inv : dict)
| FunctionTranslator (f f_inv : val -> result val)
| ChainedTranslator (t1 t2 : Translator)
| EmbeddedMessageTranslator (start_seq end_seq : str) (pattern : regex).

(** *** UnicodeCharacterTranslator *)

Definition UnicodeCharacterTranslator_encode (char : val) : result val :=
  match char with
  | VStr [c] => Ok (VInt (ord c))
  | VStr _ => Err (ValueError_expected_char char)
  | VList [_] => Err TypeError                 (* ord of a list *)
  | VList _ => Err (ValueError_expected_char char)
  | VInt _ | VGen _ _ => Err TypeError         (* no len *)
  end.

Definition UnicodeCharacterTranslator_decode (number : val) : result val :=
  match number with
  | VInt n =>
    if negb ((0 <=? n) && (n <=? 255))
    then Err (ValueError_number_range n)
    else c <- chr n ;; Ok (VStr [c])
  | _ => Err TypeError
  end.

(** *** Base10ToBaseNTranslator *)

Definition Base10ToBaseNTranslator_init (base : Z) (digits : str) (padding : Z)
  : result Translator :=
  if base <? 2 then Err (ValueError_base base)
  else if len digits <? base then Err (ValueError_digits_len (len digits))
  else Ok (Base10ToBaseNTranslator base digits padding).

(** The loop [while decimal: ...]; [acc] is the list [digits] of the source,
    least significant digit first.  The fuel given by [encode] suffices for
    every base that [__init__] accepts. *)
Fixpoint encode_loop (fuel : nat) (base : Z) (digits : str) (decimal : Z)
         (acc : str) : result str :=
  if decimal =? 0 then Ok acc
  else match fuel with
       | O => Err OutsideModel
       | S fuel' =>
         if base =? 0 then Err ZeroDivisionError
         else digit <- str_get digits (decimal mod base) ;;
              encode_loop fuel' base digits (decimal / base) (acc ++ [digit])
       end.

(** The loop [while len(digits) < self.padding: digits.append(self.digits[0])]. *)
Definition pad (digits : str) (padding : Z) (acc : str) : result str :=
  if len acc <? padding
  then z <- str_get digits 0 ;; Ok (acc ++ repeat z (Z.to_nat (padding - len acc)))
  else Ok acc.

Definition Base10ToBaseNTranslator_encode (base : Z) (digits : str) (padding : Z)
           (decimal : val) : result val :=
  match decimal with
  | VInt decimal =>
    if decimal =? 0 then Ok (VStr (lit "0"))
    else
      let neg := decimal <? 0 in
      let decimal := if neg then decimal * -1 else decimal in
      acc <- encode_loop (S (Z.to_nat (Z.log2 decimal))) base digits decimal [] ;;
      let acc := if neg then acc ++ [minus_sign] else acc in
      acc <- pad digits padding acc ;;
      Ok (VStr (rev acc))
  | _ => Err TypeError
  end.

(** The loop over [enumerate(num[::-1])]. *)
Fixpoint decode_loop (base : Z) (digits : str) (rnum : str) (i : Z) (decimal : Z)
  : result Z :=
  match rnum with
  | [] => Ok decimal
  | digit :: rest =>
    idx <- index digits digit ;;
    decode_loop base digits rest (i + 1) (decimal + idx * base ^ i)
  end.

Definition Base10ToBaseNTranslator_decode (base : Z) (digits : str) (num : val)
  : result val :=
  match num with
  | VStr num =>
    c <- str_get num 0 ;;
    let neg := c =? minus_sign in
    let num := if neg then slice_from num 1 else num in
    decimal <- decode_loop base digits (rev num) 0 0 ;;
    Ok (VInt (if neg then decimal * -1 else decimal))
  | _ => Err TypeError
  end.

(** *** IterableTranslator *)

(** The generator [(f(item) for item in l)]: items are translated in order
    and the first exception ends the generator. *)
Fixpoint gen_items (f : val -> result val) (l : list val) (e : option exn)
  : list val * option exn :=
  match l with
  | [] => ([], e)
  | x :: l' =>
    match f x with
    | Err x_e => ([], Some x_e)
    | Ok y => let (ys, e') := gen_items f l' e in (y :: ys, e')
    end
  end.

Definition gen_map (f : val -> result val) (l : list val) (e : option exn) : val :=
  let (ys, e') := gen_items f l e in VGen ys e'.

Definition translate_items (f : val -> result val) (l : val) : result val :=
  p <- iter l ;; Ok (gen_map f (fst p) (snd p)).

(** *** StringReplacementTranslator *)

Definition StringReplacementTranslator_init (charset : dict) : Translator :=
  StringReplacementTranslator charset
    (dict_of_items (map (fun kv => (snd kv, fst kv)) charset)).

Definition dict_lookup (d : dict) (obj : val) : result val :=
  match obj with
  | VStr k =>
    match dict_get d k with
    | Some v => Ok (VStr v)
    | None => Err (KeyError obj)
    end
  | VList _ => Err TypeError          (* unhashable *)
  | VInt _ | VGen _ _ => Err (KeyError obj)
  end.

(** *** EmbeddedMessageTranslator *)

Definition EmbeddedMessageTranslator_init (start_seq end_seq : str)
  : result Translator :=
  pattern <- re_compile (start_seq ++ lit ".*" ++ end_seq) ;;
  Ok (EmbeddedMessageTranslator start_seq end_seq pattern).

Definition EmbeddedMessageTranslator_encode (start_seq end_seq : str) (rawMsg : val)
  : result val :=
  s <- py_str rawMsg ;;
  match s with
  | VStr s => Ok (VStr (start_seq ++ s ++ end_seq))
  | _ => Err TypeError
  end.

Definition decodeCandidate (start_seq end_seq : str) (embeddedMsg : str)
  : result str :=
  if negb (startswith embeddedMsg start_seq)
  then Err (ValueError_bad_start (slice_to embeddedMsg 10))
  else if negb (endswith embeddedMsg end_seq)
  then Err (ValueError_bad_end (slice_from embeddedMsg (-10)))
  else
    let left_offset := len start_seq in
    let right_offset := len end_seq in
    let msgLen := len embeddedMsg in
    Ok (slice embeddedMsg left_offset (msgLen - right_offset)).

Definition EmbeddedMessageTranslator_decode (start_seq end_seq : str)
           (pattern : regex) (text : val) : result val :=
  match text with
  | VStr text =>
    match first_match pattern text with
    | Some candidate =>
      s <- decodeCandidate start_seq end_seq candidate ;; Ok (VStr s)
    | None => Err ValueError_no_message
    end
  | _ => Err TypeError
  end.

(** *** Method dispatch *)

Fixpoint encode (t : Translator) (obj : val) {struct t} : result val :=
  match t with
  | UnicodeCharacterTranslator => UnicodeCharacterTranslator_encode obj
  | Base10ToBaseNTranslator base digits padding =>
    Base10ToBaseNTranslator_encode base digits padding obj
  | InvertedTranslator t' => decode t' obj
  | IterableTranslator t' => translate_items (encode t') obj
  | StringReplacementTranslator charset _ => dict_lookup charset obj
  | FunctionTranslator f _ => f obj
  | ChainedTranslator t1 t2 => tmp <- encode t1 obj ;; encode t2 tmp
  | EmbeddedMessageTranslator start_seq end_seq _ =>
    EmbeddedMessageTranslator_encode start_seq end_seq obj
  end
with decode (t : Translator) (obj : val) {struct t} : result val :=
  match t with
  | UnicodeCharacterTranslator => UnicodeCharacterTranslator_decode obj
  | Base10ToBaseNTranslator base digits _ =>
    Base10ToBaseNTranslator_decode base digits obj
  | InvertedTranslator t' => encode t' obj
  | IterableTranslator t' => translate_items (decode t') obj
  | StringReplacementTranslator _ charset_inv => dict_lookup charset_inv obj
  | FunctionTranslator _ f_inv => f_inv obj
  | ChainedTranslator t1 t2 => tmp <- decode t2 obj ;; decode t1 tmp
  | EmbeddedMessageTranslator start_seq end_seq pattern =>
    EmbeddedMessageTranslator_decode start_seq end_seq pattern obj
  end.

(** *** ChainTranslatorBuilder *)

(** The builder's state is its list [translators]. *)
Definition ChainTranslatorBuilder := list Translator.

Definition ChainTranslatorBuilder_new : ChainTranslatorBuilder := [].

Definition add (t : Translator) (self : ChainTranslatorBuilder)
  : ChainTranslatorBuilder := self ++ [t].

Definition addAll (ts : list Translator) (self : ChainTranslatorBuilder)
  : ChainTranslatorBuilder := self ++ ts.

Definition ChainTranslatorBuilder_build (self : ChainTranslatorBuilder)
  : result Translator :=
  match self with
  | [] => Err RuntimeError_no_translators
  | [t] => Ok t
  | t1 :: t2 :: rest => Ok (fold_left ChainedTranslator rest (ChainedTranslator t1 t2))
  end.

(** *** CharsetTranslatorBuilder *)

Record CharsetTranslatorBuilder : Type := {
  charset : str;
  separator : str;
  start_seq : str;
  end_seq : str
}.

(** [string.digits + string.ascii_letters]. *)
Definition digits_and_letters : str :=
  lit "0123456789abcdefghijklmnopqrstuvwxyzABCDEFGHIJKLMNOPQRSTUVWXYZ".

(** [for i in range(lo, lo + n): digits += chr(i)]. *)
Fixpoint extend_digits (digits : str) (lo : Z) (n : nat) : result str :=
  match n with
  | O => Ok digits
  | S n' => c <- chr lo ;; extend_digits (digits ++ [c]) (lo + 1) n'
  end.

Definition canonical_digits (charset : str) : result str :=
  extend_digits digits_and_letters (len digits_and_letters)
                (Z.to_nat (len charset - len digits_and_letters)).

(** [{digits[i]: charset[i] for i in range(0, len(charset))}]; [digits] is
    never shorter than [charset]. *)
Definition replacement_items (digits charset : str) : list (str * str) :=
  map (fun dc => ([fst dc], [snd dc])) (combine digits charset).

Definition replacement (digits charset : str) : dict :=
  dict_of_items (replacement_items digits charset).

Definition pipe (b : CharsetTranslatorBuilder) : result (list Translator) :=
  digits <- canonical_digits (charset b) ;;
  base10 <- Base10ToBaseNTranslator_init (len (charset b)) digits 0 ;;
  framing <- EmbeddedMessageTranslator_init (start_seq b) (end_seq b) ;;
  Ok [ IterableTranslator UnicodeCharacterTranslator;
       IterableTranslator base10;
       IterableTranslator (FunctionTranslator py_str (py_join []));
       IterableTranslator
         (IterableTranslator
            (StringReplacementTranslator_init (replacement digits (charset b))));
       IterableTranslator (FunctionTranslator (py_join []) py_list);
       FunctionTranslator (py_join (separator b)) (py_split (separator b));
       framing ].

Definition CharsetTranslatorBuilder_build (b : CharsetTranslatorBuilder)
  : result Translator :=
  p <- pipe b ;;
  ChainTranslatorBuilder_build (addAll p ChainTranslatorBuilder_new).

(** *** The attributes of CharsetTranslatorBuilder *)

(** The class only annotates its attributes: each exists once its setter
    has been called, and [build] raises [AttributeError] on the first one
    that does not. *)
Record CharsetTranslatorBuilder_attrs : Type := {
  attr_charset : option str;
  attr_separator : option str;
  attr_start_seq : option str;
  attr_end_seq : option str
}.

Definition CharsetTranslatorBuilder_new : CharsetTranslatorBuilder_attrs :=
  {| attr_charset := None; attr_separator := None;
     attr_start_seq := None; attr_end_seq := None |}.

Definition setCharset (charset : str) (self : CharsetTranslatorBuilder_attrs)
  : CharsetTranslatorBuilder_attrs :=
  {| attr_charset := Some charset; attr_separator := attr_separator self;
     attr_start_seq := attr_start_seq self; attr_end_seq := attr_end_seq self |}.

Definition setSeparator (separator : str) (self : CharsetTranslatorBuilder_attrs)
  : CharsetTranslatorBuilder_attrs :=
  {| attr_charset := attr_charset self; attr_separator := Some separator;
     attr_start_seq := attr_start_seq self; attr_end_seq := attr_end_seq self |}.

Definition setSequences (start_seq end_seq : str)
           (self : CharsetTranslatorBuilder_attrs)
  : CharsetTranslatorBuilder_attrs :=
  {| attr_charset := attr_charset self; attr_separator := attr_separator self;
     attr_start_seq := Some start_seq; attr_end_seq := Some end_seq |}.

Definition getattr (a : option str) : result str :=
  match a with
  | Some s => Ok s
  | None => Err AttributeError
  end.

Definition build (self : CharsetTranslatorBuilder_attrs) : result Translator :=
  charset <- getattr (attr_charset self) ;;
  separator <- getattr (attr_separator self) ;;
  start_seq <- getattr (attr_start_seq self) ;;
  end_seq <- getattr (attr_end_seq self) ;;
  CharsetTranslatorBuilder_build
    {| charset := charset; separator := separator;
       start_seq := start_seq; end_seq := end_seq |}.

(** ** The debugging decorator *)

(** The state the decorator works on is the global counter and what has
    been printed.  A function object has a [__name__] and, when called,
    may print, change the counter and raise.  How [args], [kwargs] and the
    result are rendered in the f-strings is left to [render_args] and
    [render_res]. *)
Record debug_state : Type := {
  debug_global_indentation_count : Z;
  stdout : list str
}.

Definition print (line : str) (st : debug_state) : debug_state :=
  {| debug_global_indentation_count := debug_global_indentation_count st;
     stdout := stdout st ++ [line] |}.

Definition set_count (n : Z) (st : debug_state) : debug_state :=
  {| debug_global_indentation_count := n; stdout := stdout st |}.

(** [s * n] on strings. *)
Definition str_mul (s : str) (n : Z) : str := concat (repeat s (Z.to_nat n)).

Section Debug.

Variable args_t : Type.
Variable render_args : args_t -> str.
Variable render_res : val -> str.

Record function : Type := {
  name : str;
  call : args_t -> debug_state -> result val * debug_state
}.

Definition debug (func : function) : function :=
  {| name := lit "wrapper";
     call := fun args st =>
       let indent := str_mul (lit "-    ") (debug_global_indentation_count st) in
       let st := print (indent ++ name func ++ lit " " ++ render_args args) st in
       let st := set_count (debug_global_indentation_count st + 1) st in
       let (r, st) := call func args st in
       match r with
       | Err e => (Err e, st)
       | Ok res =>
         let st := set_count (debug_global_indentation_count st - 1) st in
         let st := print (indent ++ name func ++ lit " result=" ++ render_res res) st in
         (Ok res, st)
       end |}.

(** [n] decorators on top of each other, and the lines they print around
    a call at counter [c]. *)
Fixpoint decorated (n : nat) (func : function) : function :=
  match n with
  | O => func
  | S k => debug (decorated k func)
  end.

Fixpoint call_lines (n : nat) (func : function) (args : args_t) (c : Z) : list str :=
  match n with
  | O => []
  | S k =>
    (str_mul (lit "-    ") c ++ name (decorated k func) ++ lit " " ++ render_args args)
      :: call_lines k func args (c + 1)
  end.

Fixpoint result_lines (n : nat) (func : function) (res : val) (c : Z) : list str :=
  match n with
  | O => []
  | S k =>
    result_lines k func res (c + 1)
      ++ [str_mul (lit "-    ") c ++ name (decorated k func) ++ lit " result="
            ++ render_res res]
  end.

End Debug.

(** * Vocabulary of the properties *)

(** Applying the [encode]s of a list of translators in order, and their
    [decode]s in reverse order. *)
Definition encode_all (ts : list Translator) (v : val) : result val :=
  fold_left (fun r t => x <- r ;; encode t x) ts (Ok v).

Definition decode_all (ts : list Translator) (v : val) : result val :=
  fold_right (fun t r => x <- r ;; decode t x) (Ok v) ts.

(** The digit values of [n], least significant first, as the division loop
    produces them, and the value of such a list. *)
Fixpoint digit_values (base : Z) (fuel : nat) (n : Z) : list Z :=
  if n =? 0 then []
  else match fuel with
       | O => []
       | S fuel' => n mod base :: digit_values base fuel' (n / base)
       end.

Fixpoint value (base : Z) (ds : list Z) : Z :=
  match ds with
  | [] => 0
  | d :: ds' => d + base * value base ds'
  end.

Definition digit_char (digits : str) (d : Z) : char := nth (Z.to_nat d) digits 0.

(** Boolean tests for membership and uniqueness, to settle them on
    concrete alphabets by evaluation. *)
Definition memb (c : char) (s : str) : bool := existsb (Z.eqb c) s.

Fixpoint nodupb (s : str) : bool :=
  match s with
  | [] => true
  | c :: s' => negb (memb c s') && nodupb s'
  end.

(** A target alphabet of 66 unique symbols, none of them a digit, a
    letter, a marker or a separator character. *)
Definition charset66 : str := map Z.of_nat (seq 1000 66).

(** A marker is plain when none of its characters is special in a
    pattern: it then stands for itself. *)
Definition plain (s : str) : bool :=
  forallb (fun c => negb (unmodelled_special c || (c =? dot_char) || (c =? star_char))) s.

Definition lits (s : str) : regex := map (fun c => One (Chr c)) s.

(** [span start_seq end_seq carrier pre mid]: the carrier holds, after
    [pre], the start marker, the text [mid] without a newline and the end
    marker. *)
Definition span (start_seq end_seq carrier pre mid : str) : Prop :=
  exists post,
    carrier = pre ++ start_seq ++ mid ++ end_seq ++ post /\ ~ In newline mid.

(** The payload that [decode] returns is that of the leftmost span, taken
    up to the last end marker that [.*] reaches. *)
Definition decoded_span (start_seq end_seq carrier payload : str) : Prop :=
  exists pre,
    span start_seq end_seq carrier pre payload
    /\ (forall pre' mid', span start_seq end_seq carrier pre' mid' ->
        (length pre <= length pre')%nat)
    /\ (forall mid', span start_seq end_seq carrier pre mid' ->
        (length mid' <= length payload)%nat).

(** The target symbol that replaces a digit. *)
Definition subst (d : dict) (c : char) : char :=
  match dict_get d [c] with
  | Some [y] => y
  | _ => c
  end.

(** The numeral that stage 2 produces for a code point. *)
Definition numeral (base : Z) (digits : str) (n : Z) : str :=
  if n =? 0 then lit "0"
  else rev (map (digit_char digits)
                (digit_values base (S (Z.to_nat (Z.log2 n))) n)).

(** The seven stages that [CharsetTranslatorBuilder.build] chains, for a
    digit alphabet and a compiled pattern. *)
Definition stages (digits cs sep start_seq end_seq : str) (pattern : regex)
  : list Translator :=
  [ IterableTranslator UnicodeCharacterTranslator;
    IterableTranslator (Base10ToBaseNTranslator (len cs) digits 0);
    IterableTranslator (FunctionTranslator py_str (py_join []));
    IterableTranslator
      (IterableTranslator
         (StringReplacementTranslator_init (replacement digits cs)));
    IterableTranslator (FunctionTranslator (py_join []) py_list);
    FunctionTranslator (py_join sep) (py_split sep);
    EmbeddedMessageTranslator start_seq end_seq pattern ].

(** The symbol group of a character and the payload of a message. *)
Definition group (digits cs : str) (c : char) : str :=
  map (subst (replacement_items digits cs)) (numeral (len cs) digits c).

Definition payload (digits cs sep : str) (message : str) : str :=
  intercalate sep (map (group digits cs) message).

(** The configuration of the scenario of the specification: target
    alphabet [AB], separator [-], markers [<<] and [>>]. *)
Definition scenario : CharsetTranslatorBuilder :=
  {| charset := lit "AB"; separator := lit "-";
     start_seq := lit "<<"; end_seq := lit ">>" |}.

(** The characters of a numeral after its optional sign, and the value of
    a digit character (its first position in the alphabet). *)
Definition numeral_body (num : str) : str :=
  match num with
  | [] => []
  | c :: rest => if c =? minus_sign then rest else num
  end.

Definition digit_value (digits : str) (c : char) : Z :=
  match index digits c with
  | Ok i => i
  | Err _ => 0
  end.

(** [yields f l e ys e']: a generator that applies [f] to the items [l] of
    an iteration ending with [e] yields [ys] and ends with [e']: either
    every item is translated and the end is that of the iteration, or the
    items before the first failing one are translated and the generator
    raises the error of that item. *)
Definition yields (f : val -> result val) (l : list val) (e : option exn)
           (ys : list val) (e' : option exn) : Prop :=
  (Forall2 (fun x y => f x = Ok y) l ys /\ e' = e)
  \/ exists l1 x l2 err,
      l = l1 ++ x :: l2
      /\ Forall2 (fun x y => f x = Ok y) l1 ys
      /\ f x = Err err
      /\ e' = Some err.

(** What the lifted stages of the pipeline do, in [decode], to one group
    of the payload: the characters of the group are looked up in the
    inverse dict, joined to a numeral, read as a number and turned into a
    character. *)
Definition decode_group (digits cs : str) (g : val) : result val :=
  y <- (y <- (y <- (y <- py_list g ;;
     translate_items
       (dict_lookup
          (dict_of_items (map (fun kv => (snd kv, fst kv)) (replacement digits cs))))
       y) ;;
     py_join [] y) ;;
     Base10ToBaseNTranslator_decode (len cs) digits y) ;;
  UnicodeCharacterTranslator_decode y.

(** * Properties *)

(** ** Strings and slices *)

Lemma len_app (s t : str) : len (s ++ t) = len s + len t.
Proof. unfold len. rewrite length_app. lia. Qed.

Lemma len_cons (c : char) (s : str) : len (c :: s) = Z.succ (len s).
Proof. unfold len. simpl length. lia. Qed.

Lemma len_nonneg (s : str) : 0 <= len s.
Proof. unfold len. lia. Qed.

Lemma startswith_app (p s : str) : startswith (p ++ s) p = true.
Proof.
  induction p as [|c p IH]; simpl; [reflexivity|].
  now rewrite Z.eqb_refl, IH.
Qed.

Lemma startswith_iff (s p : str) :
  startswith s p = true <-> exists t, s = p ++ t.
Proof.
  revert s. induction p as [|d p IH]; intros s; simpl.
  - split; [intros _; now exists s | reflexivity].
  - destruct s as [|c s]; simpl.
    + split; [discriminate | intros [t H]; discriminate].
    + rewrite andb_true_iff, Z.eqb_eq, IH. split.
      * intros [-> [t ->]]. now exists t.
      * intros [t H]. injection H as -> ->. split; [reflexivity | now exists t].
Qed.

Lemma endswith_app (s p : str) : endswith (s ++ p) p = true.
Proof. unfold endswith. rewrite rev_app_distr. apply startswith_app. Qed.

Lemma slice_middle (a b c : str) :
  slice (a ++ b ++ c) (len a) (len (a ++ b ++ c) - len c) = b.
Proof.
  unfold slice, clamp. rewrite !len_app.
  pose proof (len_nonneg a). pose proof (len_nonneg b). pose proof (len_nonneg c).
  replace (len a + (len b + len c) - len c) with (len a + len b) by lia.
  destruct (Z.ltb_spec (len a) 0); [lia|].
  destruct (Z.ltb_spec (len a + len b) 0); [lia|].
  rewrite (Z.max_r 0), (Z.max_r 0) by lia.
  rewrite (Z.min_r _ (len a)), (Z.min_r _ (len a + len b)) by lia.
  unfold len. rewrite <- Nat2Z.inj_add, !Nat2Z.id.
  rewrite app_assoc, <- length_app, firstn_app, firstn_all, Nat.sub_diag.
  simpl. rewrite app_nil_r, skipn_app, skipn_all, Nat.sub_diag. reflexivity.
Qed.

(** ** UnicodeCharacterTranslator *)

(** C9: [encode] raises the InvalidInput error, carrying the offending
    value, on every string that is not exactly one character and returns
    the code point of a one-character string; [decode] raises the
    OutOfRange error on every number outside [[0, 255]] and returns the
    character with that code point otherwise. *)
Theorem UnicodeCharacterTranslator_domain (s : str) (n : Z) :
  (length s <> 1%nat ->
   encode UnicodeCharacterTranslator (VStr s)
   = Err (ValueError_expected_char (VStr s))
   /\ kind_of (ValueError_expected_char (VStr s)) = Some InvalidInput)
  /\ (forall c, s = [c] ->
      encode UnicodeCharacterTranslator (VStr s) = Ok (VInt (ord c)))
  /\ (n < 0 \/ 255 < n ->
      decode UnicodeCharacterTranslator (VInt n) = Err (ValueError_number_range n)
      /\ kind_of (ValueError_number_range n) = Some OutOfRange)
  /\ (0 <= n <= 255 ->
      decode UnicodeCharacterTranslator (VInt n) = Ok (VStr [n])).
Proof.
  repeat split.
  - destruct s as [|c [|d s]]; simpl in *; congruence.
  - intros c ->. reflexivity.
  - simpl. destruct (Z.leb_spec 0 n); destruct (Z.leb_spec n 255); simpl;
      try reflexivity; lia.
  - simpl. unfold chr.
    destruct (Z.leb_spec 0 n); destruct (Z.leb_spec n 255); simpl; try lia.
    destruct (Z.ltb_spec n 1114112); [reflexivity | lia].
Qed.

Lemma UnicodeCharacterTranslator_domain_witness :
  encode UnicodeCharacterTranslator (VStr (lit "ab"))
  = Err (ValueError_expected_char (VStr (lit "ab")))
  /\ encode UnicodeCharacterTranslator (VStr (lit "a")) = Ok (VInt 97)
  /\ decode UnicodeCharacterTranslator (VInt 256) = Err (ValueError_number_range 256)
  /\ decode UnicodeCharacterTranslator (VInt 97) = Ok (VStr (lit "a")).
Proof.
  destruct (UnicodeCharacterTranslator_domain (lit "ab") 256) as (H1 & _ & H3 & _).
  destruct (UnicodeCharacterTranslator_domain (lit "a") 97) as (_ & H2 & _ & H4).
  split; [apply H1; simpl; lia|].
  split; [apply (H2 97); reflexivity|].
  split; [apply H3; lia | apply H4; lia].
Defined.

(** ** EmbeddedMessageTranslator: framing *)

Lemma decodeCandidate_framed (start_seq end_seq payload : str) :
  decodeCandidate start_seq end_seq (start_seq ++ payload ++ end_seq) = Ok payload.
Proof.
  unfold decodeCandidate.
  rewrite startswith_app. simpl.
  rewrite app_assoc, endswith_app, <- app_assoc. simpl.
  now rewrite slice_middle.
Qed.

(** C8: [encode] returns the start marker, the payload and the end marker
    pasted together, nothing escaped, and [decodeCandidate] gives the
    payload back from that string.  This holds for every payload, so in
    particular for those that do not contain the end marker. *)
Theorem EmbeddedMessageTranslator_frame (start_seq end_seq payload : str) (pattern : regex) :
  encode (EmbeddedMessageTranslator start_seq end_seq pattern) (VStr payload)
  = Ok (VStr (start_seq ++ payload ++ end_seq))
  /\ decodeCandidate start_seq end_seq (start_seq ++ payload ++ end_seq) = Ok payload.
Proof.
  split; [reflexivity | apply decodeCandidate_framed].
Qed.

(** ** ChainedTranslator and ChainTranslatorBuilder *)

Lemma encode_fold_chain (rest : list Translator) (T : Translator) (v : val) :
  encode (fold_left ChainedTranslator rest T) v
  = fold_left (fun r t => x <- r ;; encode t x) rest (encode T v).
Proof.
  revert T. induction rest as [|t rest IH]; intros T; simpl; [reflexivity|].
  rewrite IH. reflexivity.
Qed.

Lemma decode_fold_chain (rest : list Translator) (T : Translator) (v : val) :
  decode (fold_left ChainedTranslator rest T) v
  = x <- decode_all rest v ;; decode T x.
Proof.
  revert T. induction rest as [|t rest IH]; intros T; simpl; [reflexivity|].
  rewrite IH. simpl. destruct (decode_all rest v); reflexivity.
Qed.

(** C7: [build] raises the BuildError on an empty list, returns the only
    translator of a one-element list, and for two or more translators
    returns the left fold of [ChainedTranslator] over them, whose [encode]
    applies every [encode] in order and whose [decode] applies every
    [decode] in reverse order. *)
Theorem ChainTranslatorBuilder_build_spec :
  ChainTranslatorBuilder_build ChainTranslatorBuilder_new
  = Err RuntimeError_no_translators
  /\ kind_of RuntimeError_no_translators = Some BuildError
  /\ (forall t, ChainTranslatorBuilder_build (add t ChainTranslatorBuilder_new) = Ok t)
  /\ (forall t1 t2 rest,
      let ts := t1 :: t2 :: rest in
      let T := fold_left ChainedTranslator rest (ChainedTranslator t1 t2) in
      ChainTranslatorBuilder_build (addAll ts ChainTranslatorBuilder_new) = Ok T
      /\ (forall v, encode T v = encode_all ts v)
      /\ (forall v, decode T v = decode_all ts v)).
Proof.
  repeat split.
  - intros v. rewrite encode_fold_chain. reflexivity.
  - intros v. rewrite decode_fold_chain. simpl.
    destruct (decode_all rest v); reflexivity.
Qed.

(** ** Base10ToBaseNTranslator *)

Lemma str_get_nth (s : str) (k : nat) :
  (k < length s)%nat -> str_get s (Z.of_nat k) = Ok (nth k s 0).
Proof.
  intros Hk. unfold str_get.
  assert (E0 : (Z.of_nat k <? 0) = false) by (apply Z.ltb_ge; lia).
  rewrite E0. cbv zeta. rewrite E0, Nat2Z.id.
  destruct (nth_error s k) eqn:E.
  - f_equal. symmetry. now apply nth_error_nth.
  - apply nth_error_None in E. lia.
Qed.

Lemma str_get_empty (i : Z) : str_get [] i = Err IndexError_string_index.
Proof.
  unfold str_get. simpl.
  destruct (i <? 0); destruct (_ <? 0); try reflexivity;
    now destruct (Z.to_nat _).
Qed.

Lemma index_nth (s : str) (k : nat) :
  NoDup s -> (k < length s)%nat -> index s (nth k s 0) = Ok (Z.of_nat k).
Proof.
  revert k. induction s as [|d s IH]; intros k Hnd Hk; simpl in Hk; [lia|].
  inversion Hnd as [|? ? Hnotin Hnd']; subst.
  destruct k as [|k]; simpl.
  - now rewrite Z.eqb_refl.
  - destruct (Z.eqb_spec d (nth k s 0)) as [E|_].
    + exfalso. apply Hnotin. rewrite E. apply nth_In. lia.
    + rewrite IH by (auto; lia). simpl. f_equal. lia.
Qed.

Lemma clamp_id (n i : Z) : 0 <= i <= n -> clamp n i = i.
Proof.
  intros H. unfold clamp. destruct (Z.ltb_spec i 0); lia.
Qed.

Lemma slice_from_1 (c : char) (s : str) : slice_from (c :: s) 1 = s.
Proof.
  unfold slice_from, slice.
  pose proof (len_nonneg s) as Hs.
  assert (Hl : len (c :: s) = len s + 1) by (unfold len; simpl length; lia).
  rewrite !clamp_id by lia.
  unfold len. rewrite Nat2Z.id, firstn_all. reflexivity.
Qed.

Lemma log2_fuel (n : Z) : 0 < n -> 0 <= n < 2 ^ Z.of_nat (S (Z.to_nat (Z.log2 n))).
Proof.
  intros Hn. pose proof (Z.log2_spec n Hn). pose proof (Z.log2_nonneg n).
  rewrite Nat2Z.inj_succ, Z2Nat.id by lia. lia.
Qed.

Section Base10.

Variables (base : Z) (digits : str).

Hypothesis base_ok : 2 <= base <= len digits.

Lemma digit_values_range (fuel : nat) (n : Z) :
  Forall (fun d => 0 <= d < base) (digit_values base fuel n).
Proof.
  revert n. induction fuel as [|fuel IH]; intros n; simpl;
    destruct (n =? 0); constructor; [apply Z.mod_pos_bound; lia | apply IH].
Qed.

Lemma div_fuel (fuel : nat) (n : Z) :
  0 < n < 2 ^ Z.of_nat (S fuel) -> 0 <= n / base < 2 ^ Z.of_nat fuel.
Proof.
  intros [Hpos Hlt]. split; [apply Z.div_pos; lia|].
  apply Z.div_lt_upper_bound; [lia|].
  rewrite Nat2Z.inj_succ, Z.pow_succ_r in Hlt by lia.
  assert (0 < 2 ^ Z.of_nat fuel) by (apply Z.pow_pos_nonneg; lia). nia.
Qed.

Lemma value_digit_values (fuel : nat) (n : Z) :
  0 <= n < 2 ^ Z.of_nat fuel -> value base (digit_values base fuel n) = n.
Proof.
  revert n. induction fuel as [|fuel IH]; intros n Hn.
  - simpl in *. assert (n = 0) by lia. now subst.
  - cbn [digit_values]. destruct (Z.eqb_spec n 0) as [->|Hnz]; [reflexivity|].
    cbn [value]. rewrite IH by (apply div_fuel; lia).
    rewrite Z.add_comm. symmetry. apply Z.div_mod. lia.
Qed.

Lemma encode_loop_digit_values (fuel : nat) (n : Z) (acc : str) :
  0 <= n < 2 ^ Z.of_nat fuel ->
  encode_loop fuel base digits n acc
  = Ok (acc ++ map (digit_char digits) (digit_values base fuel n)).
Proof.
  revert n acc. induction fuel as [|fuel IH]; intros n acc Hn.
  - simpl in *. assert (n = 0) by lia. subst. simpl. now rewrite app_nil_r.
  - cbn [encode_loop digit_values].
    destruct (Z.eqb_spec n 0) as [->|Hnz]; [simpl; now rewrite app_nil_r|].
    destruct (Z.eqb_spec base 0); [lia|].
    assert (Hm : 0 <= n mod base < base) by (apply Z.mod_pos_bound; lia).
    rewrite <- (Z2Nat.id (n mod base)) at 1 by lia.
    rewrite str_get_nth by (unfold len in base_ok; lia).
    cbn [bind]. rewrite IH by (apply div_fuel; lia).
    cbn [map]. rewrite <- app_assoc. reflexivity.
Qed.

(** A positive number with [k] digits lies between [base^(k-1)] and
    [base^k]. *)
Lemma digit_values_length (fuel : nat) (n : Z) :
  0 < n < 2 ^ Z.of_nat fuel ->
  base ^ (len (digit_values base fuel n) - 1) <= n < base ^ len (digit_values base fuel n).
Proof.
  revert n. induction fuel as [|fuel IH]; intros n Hn; [simpl in Hn; lia|].
  cbn [digit_values]. destruct (Z.eqb_spec n 0); [lia|].
  rewrite len_cons.
  pose proof (div_fuel fuel n Hn) as Hq.
  pose proof (Z.div_mod n base ltac:(lia)) as Hdm.
  pose proof (Z.mod_pos_bound n base ltac:(lia)) as Hm.
  pose proof (len_nonneg (digit_values base fuel (n / base))) as Hl.
  rewrite Z.pow_succ_r by lia.
  destruct (Z.eqb_spec (n / base) 0) as [E|E].
  - destruct fuel; simpl digit_values; rewrite ?E; simpl; lia.
  - specialize (IH (n / base) ltac:(lia)).
    assert (0 < len (digit_values base fuel (n / base))).
    { destruct fuel; [simpl in Hq; lia|]. cbn [digit_values].
      destruct (Z.eqb_spec (n / base) 0); [lia|]. rewrite len_cons. 
      pose proof (len_nonneg (digit_values base fuel (n / base / base))). lia. }
    replace (Z.succ (len (digit_values base fuel (n / base))) - 1)
      with (Z.succ (len (digit_values base fuel (n / base)) - 1)) by lia.
    rewrite Z.pow_succ_r by lia. nia.
Qed.

Lemma value_app_zeros (ds : list Z) (k : nat) :
  value base (ds ++ repeat 0 k) = value base ds.
Proof.
  induction ds as [|d ds IH]; simpl.
  - induction k; simpl; lia.
  - now rewrite IH.
Qed.

Hypothesis digits_unique : NoDup digits.

Lemma decode_loop_value (ds : list Z) (i acc : Z) :
  0 <= i -> Forall (fun d => 0 <= d < base) ds ->
  decode_loop base digits (map (digit_char digits) ds) i acc
  = Ok (acc + base ^ i * value base ds).
Proof.
  revert i acc. induction ds as [|d ds IH]; intros i acc Hi Hr; simpl.
  - f_equal. lia.
  - inversion Hr as [|? ? Hd Hr']; subst.
    unfold digit_char at 1.
    rewrite index_nth by (auto; unfold len in base_ok; lia).
    cbn [bind]. rewrite IH by (auto; lia).
    rewrite Z2Nat.id by lia. f_equal.
    replace (i + 1) with (Z.succ i) by lia. rewrite Z.pow_succ_r by lia. ring.
Qed.

Lemma digit_char_in (d : Z) :
  0 <= d < base -> In (digit_char digits d) (firstn (Z.to_nat base) digits).
Proof.
  intros Hd. unfold digit_char.
  rewrite <- (firstn_skipn (Z.to_nat base) digits) at 1.
  rewrite app_nth1.
  - apply nth_In. rewrite length_firstn. unfold len in base_ok. lia.
  - rewrite length_firstn. unfold len in base_ok. lia.
Qed.

End Base10.

Lemma str_get_0_cons (c : char) (s : str) : str_get (c :: s) 0 = Ok c.
Proof. reflexivity. Qed.

Lemma pad_repeat (digits : str) (padding : Z) (acc : str) :
  digits <> [] ->
  pad digits padding acc
  = Ok (acc ++ repeat (nth 0 digits 0) (Z.to_nat (padding - len acc))).
Proof.
  intros Hne. unfold pad. destruct (Z.ltb_spec (len acc) padding).
  - destruct digits as [|z rest]; [easy|]. now rewrite str_get_0_cons.
  - replace (Z.to_nat (padding - len acc)) with O by lia.
    simpl. now rewrite app_nil_r.
Qed.

Lemma padded_length (padding : Z) (L : nat) :
  padding <= Z.of_nat (Z.to_nat (padding - Z.of_nat L)) + Z.of_nat L.
Proof. lia. Qed.

Section Base10RoundTrip.

Variables (base : Z) (digits : str).
Hypothesis base_ok : 2 <= base <= len digits.
Hypothesis digits_unique : NoDup digits.
Hypothesis minus_not_digit : ~ In minus_sign (firstn (Z.to_nat base) digits).

Let in_range (d : Z) : Prop := 0 <= d < base.

Lemma digits_nonempty : digits <> [].
Proof using base_ok.
  intros E. pose proof base_ok as H. rewrite E in H.
  unfold len in H. simpl in H. lia.
Qed.

(** What [encode] returns on a positive number and on a negative one. *)
Lemma encode_positive (padding n : Z) :
  0 < n ->
  let ds := digit_values base (S (Z.to_nat (Z.log2 n))) n in
  Base10ToBaseNTranslator_encode base digits padding (VInt n)
  = Ok (VStr (rev (map (digit_char digits)
                       (ds ++ repeat 0 (Z.to_nat (padding - len ds)))))).
Proof using base_ok.
  clear digits_unique minus_not_digit.
  intros Hn ds. unfold Base10ToBaseNTranslator_encode.
  destruct (Z.eqb_spec n 0); [lia|].
  destruct (Z.ltb_spec n 0); [lia|].
  rewrite encode_loop_digit_values by (auto using log2_fuel).
  cbn [bind app]. rewrite pad_repeat by apply digits_nonempty.
  cbn [bind]. fold ds. do 3 f_equal.
  rewrite map_app, map_repeat. unfold len. now rewrite length_map.
Qed.

Lemma encode_negative (padding n : Z) :
  n < 0 ->
  let ds := digit_values base (S (Z.to_nat (Z.log2 (- n)))) (- n) in
  Base10ToBaseNTranslator_encode base digits padding (VInt n)
  = Ok (VStr (rev ((map (digit_char digits) ds ++ [minus_sign])
                   ++ repeat (digit_char digits 0)
                             (Z.to_nat (padding - (len ds + 1)))))).
Proof using base_ok.
  clear digits_unique minus_not_digit.
  intros Hn ds. unfold Base10ToBaseNTranslator_encode.
  destruct (Z.eqb_spec n 0); [lia|].
  destruct (Z.ltb_spec n 0); [|lia].
  replace (n * -1) with (- n) by lia.
  rewrite (encode_loop_digit_values base digits base_ok) by (apply log2_fuel; lia).
  cbn [bind app]. rewrite pad_repeat by apply digits_nonempty.
  cbn [bind]. fold ds. do 5 f_equal.
  rewrite len_app. unfold len. rewrite length_map. reflexivity.
Qed.

(** [decode] reads a string of digits back to its value. *)
Lemma decode_digit_string (ds : list Z) :
  ds <> [] -> Forall in_range ds ->
  Base10ToBaseNTranslator_decode base digits
    (VStr (rev (map (digit_char digits) ds)))
  = Ok (VInt (value base ds)).
Proof.
  intros Hne Hr. unfold Base10ToBaseNTranslator_decode.
  destruct (rev (map (digit_char digits) ds)) as [|c s] eqn:E.
  - apply (f_equal (@length _)) in E.
    rewrite length_rev, length_map in E. destruct ds; simpl in E; congruence.
  - rewrite str_get_0_cons. cbn [bind].
    assert (Hc : In c (firstn (Z.to_nat base) digits)).
    { assert (Hin : In c (rev (map (digit_char digits) ds)))
        by (rewrite E; now left).
      rewrite <- in_rev, in_map_iff in Hin. destruct Hin as (d & <- & Hd).
      apply digit_char_in; auto.
      rewrite Forall_forall in Hr. now apply Hr. }
    destruct (Z.eqb_spec c minus_sign) as [->|_]; [contradiction|].
    rewrite <- E, rev_involutive.
    rewrite (decode_loop_value base digits) by (auto; lia).
    cbn [bind]. do 2 f_equal. rewrite Z.pow_0_r. lia.
Qed.

Lemma decode_signed_digit_string (ds : list Z) :
  Forall in_range ds ->
  Base10ToBaseNTranslator_decode base digits
    (VStr (minus_sign :: rev (map (digit_char digits) ds)))
  = Ok (VInt (- value base ds)).
Proof.
  intros Hr. unfold Base10ToBaseNTranslator_decode.
  rewrite str_get_0_cons. cbn [bind].
  rewrite !Z.eqb_refl, slice_from_1, rev_involutive.
  rewrite (decode_loop_value base digits) by (auto; lia).
  cbn [bind]. do 2 f_equal. rewrite Z.pow_0_r. lia.
Qed.

Lemma in_range_app_zeros (ds : list Z) (k : nat) :
  Forall in_range ds -> Forall in_range (ds ++ repeat 0 k).
Proof.
  intros H. apply Forall_app. split; [assumption|].
  apply Forall_forall. intros x Hx. apply repeat_spec in Hx. subst.
  unfold in_range. lia.
Qed.

Lemma digit_values_nonempty (fuel : nat) (n : Z) :
  0 < n -> digit_values base (S fuel) n <> [].
Proof.
  intros Hn. cbn [digit_values]. destruct (Z.eqb_spec n 0); [lia | discriminate].
Qed.

(** The round trip of a number, for every padding when it is positive,
    when no padding is added to it when it is negative, and when the digit
    at position 0 is the character 0 when it is zero. *)
Lemma Base10_encode_decode (padding n : Z) :
  (n = 0 -> str_get digits 0 = Ok zero_char) ->
  (n < 0 -> base ^ (padding - 2) <= - n) ->
  exists s,
    Base10ToBaseNTranslator_encode base digits padding (VInt n) = Ok (VStr s)
    /\ Base10ToBaseNTranslator_decode base digits (VStr s) = Ok (VInt n)
    /\ (n < 0 -> exists s', s = minus_sign :: s').
Proof.
  intros Hzero Hpad.
  destruct (Z.lt_trichotomy n 0) as [Hn | [-> | Hn]].
  - pose proof (encode_negative padding n Hn) as He. cbv zeta in He.
    set (ds := digit_values base _ (- n)) in He.
    assert (Hlen : base ^ (len ds - 1) <= - n < base ^ len ds)
      by (apply (digit_values_length base digits base_ok);
          pose proof (log2_fuel (- n)); lia).
    assert (Hk : Z.to_nat (padding - (len ds + 1)) = O).
    { destruct (Z.le_gt_cases (padding - (len ds + 1)) 0); [lia|].
      assert (base ^ len ds <= base ^ (padding - 2))
        by (apply Z.pow_le_mono_r; lia).
      specialize (Hpad Hn). lia. }
    rewrite Hk in He. cbn [repeat] in He.
    rewrite app_nil_r, rev_app_distr in He. cbn [rev app] in He.
    eexists. split; [exact He|]. split; [|intros _; eauto].
    rewrite decode_signed_digit_string
      by apply (digit_values_range base digits base_ok).
    unfold ds. rewrite (value_digit_values base digits base_ok)
      by (apply log2_fuel; lia).
    do 2 f_equal. lia.
  - exists (lit "0"). split; [reflexivity|]. split; [|lia].
    specialize (Hzero eq_refl).
    destruct digits as [|z rest] eqn:E; [now rewrite str_get_empty in Hzero|].
    rewrite str_get_0_cons in Hzero. injection Hzero as ->.
    unfold Base10ToBaseNTranslator_decode. simpl. reflexivity.
  - pose proof (encode_positive padding n Hn) as He. cbv zeta in He.
    eexists. split; [exact He|]. split; [|lia].
    rewrite decode_digit_string.
    + rewrite value_app_zeros, (value_digit_values base digits base_ok)
        by (apply log2_fuel; lia).
      reflexivity.
    + intros E. apply app_eq_nil in E. destruct E as [E _].
      now apply digit_values_nonempty in E.
    + apply in_range_app_zeros, (digit_values_range base digits base_ok).
Qed.

(** A positive number is padded on the left with the digit at position 0
    up to [padding] characters. *)
Lemma encode_positive_padded (padding n : Z) :
  0 < n ->
  exists s k,
    Base10ToBaseNTranslator_encode base digits 0 (VInt n) = Ok (VStr s)
    /\ Base10ToBaseNTranslator_encode base digits padding (VInt n)
       = Ok (VStr (repeat (digit_char digits 0) k ++ s))
    /\ padding <= len (repeat (digit_char digits 0) k ++ s).
Proof using base_ok.
  clear digits_unique minus_not_digit.
  intros Hn.
  pose proof (encode_positive 0 n Hn) as H0.
  pose proof (encode_positive padding n Hn) as Hp. cbv zeta in H0, Hp.
  set (ds := digit_values base _ n) in *.
  replace (Z.to_nat (0 - len ds)) with O in H0
    by (pose proof (len_nonneg ds); lia).
  cbn [repeat] in H0. rewrite app_nil_r in H0.
  exists (rev (map (digit_char digits) ds)), (Z.to_nat (padding - len ds)).
  split; [exact H0|]. split.
  - rewrite Hp. do 2 f_equal.
    rewrite map_app, rev_app_distr, map_repeat. f_equal.
    generalize (Z.to_nat (padding - len ds)) as k. intros k.
    induction k as [|k IH]; [reflexivity|].
    cbn [repeat rev]. rewrite IH. clear IH.
    induction k as [|k IH]; [reflexivity|]. cbn [repeat app]. now rewrite IH.
  - rewrite len_app. unfold len.
    rewrite repeat_length, length_rev, length_map.
    apply padded_length.
Qed.

End Base10RoundTrip.

Lemma memb_In (c : char) (s : str) : memb c s = true <-> In c s.
Proof.
  unfold memb. rewrite existsb_exists. split.
  - intros (x & Hx & E). apply Z.eqb_eq in E. now subst.
  - intros H. exists c. split; [assumption | apply Z.eqb_refl].
Qed.

Lemma memb_false (c : char) (s : str) : memb c s = false -> ~ In c s.
Proof. intros E H. apply memb_In in H. congruence. Qed.

Lemma nodupb_NoDup (s : str) : nodupb s = true <-> NoDup s.
Proof.
  induction s as [|c s IH]; simpl.
  - split; [constructor | reflexivity].
  - rewrite andb_true_iff, negb_true_iff, IH. split.
    + intros [Hm Hn]. constructor; [now apply memb_false | assumption].
    + intros H. inversion H as [|? ? Hnotin Hnd]; subst. split; [|assumption].
      destruct (memb c s) eqn:E; [|reflexivity]. apply memb_In in E. contradiction.
Qed.

(** C2: [encode] returns the literal ["0"] for 0 whatever the alphabet (and
    whatever the padding), not the digit at position 0.  With the
    alphabet ["ab"] in base 2 the zero digit is [a], [encode(0)] is ["0"],
    and [decode] rejects that string. *)
Theorem encode_zero_is_literal_0 :
  (forall base digits padding,
      encode (Base10ToBaseNTranslator base digits padding) (VInt 0)
      = Ok (VStr (lit "0")))
  /\ Base10ToBaseNTranslator_init 2 (lit "ab") 0
     = Ok (Base10ToBaseNTranslator 2 (lit "ab") 0)
  /\ str_get (lit "ab") 0 = Ok 97
  /\ encode (Base10ToBaseNTranslator 2 (lit "ab") 0) (VInt 0) <> Ok (VStr [97])
  /\ decode (Base10ToBaseNTranslator 2 (lit "ab") 0) (VStr (lit "0"))
     = Err ValueError_substring_not_found.
Proof.
  repeat split. simpl. discriminate.
Qed.

(** C3: the minus sign is appended before the padding, so after the
    reversal the padding digits stand left of the sign, and the sign counts
    towards the padded length: -5 in base 10 with padding 5 is ["000-5"],
    five characters, which [decode] rejects.  0 is returned unpadded. *)
Theorem encode_padding_sign_order :
  let digits := lit "0123456789" in
  Base10ToBaseNTranslator_init 10 digits 5 = Ok (Base10ToBaseNTranslator 10 digits 5)
  /\ encode (Base10ToBaseNTranslator 10 digits 5) (VInt (-5))
     = Ok (VStr (lit "000-5"))
  /\ decode (Base10ToBaseNTranslator 10 digits 5) (VStr (lit "000-5"))
     = Err ValueError_substring_not_found
  /\ encode (Base10ToBaseNTranslator 10 digits 5) (VInt 0) = Ok (VStr (lit "0")).
Proof.
  repeat split.
Qed.

(** C5, as stated, fails: the alphabet ["0-"] is made of unique symbols and
    is long enough for base 2, but 1 is encoded as ["-"], which [decode]
    reads as a sign followed by no digit, that is 0. *)
Lemma minus_digit_counterexample :
  let t := Base10ToBaseNTranslator 2 (lit "0-") 0 in
  Base10ToBaseNTranslator_init 2 (lit "0-") 0 = Ok t
  /\ NoDup (lit "0-")
  /\ encode t (VInt 1) = Ok (VStr (lit "-"))
  /\ decode t (VStr (lit "-")) = Ok (VInt 0)
  /\ ~ (forall s, encode t (VInt 1) = Ok (VStr s) -> decode t (VStr s) = Ok (VInt 1)).
Proof.
  repeat split.
  - apply nodupb_NoDup. reflexivity.
  - intros H. specialize (H (lit "-") eq_refl). discriminate H.
Qed.

(** C5, amended: when the alphabet has unique symbols, at least [base] of
    them, and the minus sign is not one of its first [base] symbols,
    [decode (encode n) = n] for every positive [n] and every padding, for
    every negative [n] that is at least [padding - 1] digits long (its
    numeral then starts with the minus sign), and for 0 when the digit at
    position 0 is the character 0. *)
Theorem Base10_round_trip (base : Z) (digits : str) (padding n : Z) :
  2 <= base <= len digits ->
  NoDup digits ->
  ~ In minus_sign (firstn (Z.to_nat base) digits) ->
  (n = 0 -> str_get digits 0 = Ok zero_char) ->
  (n < 0 -> base ^ (padding - 2) <= - n) ->
  let t := Base10ToBaseNTranslator base digits padding in
  Base10ToBaseNTranslator_init base digits padding = Ok t
  /\ exists s,
      encode t (VInt n) = Ok (VStr s)
      /\ decode t (VStr s) = Ok (VInt n)
      /\ (n < 0 -> exists s', s = minus_sign :: s').
Proof.
  intros Hb Hu Hm Hz Hp t. split.
  - unfold Base10ToBaseNTranslator_init.
    destruct (Z.ltb_spec base 2); [lia|].
    destruct (Z.ltb_spec (len digits) base); [lia | reflexivity].
  - now apply Base10_encode_decode.
Qed.

Lemma Base10_round_trip_witness :
  let t := Base10ToBaseNTranslator 16 (lit "0123456789abcdef") 4 in
  exists s,
    encode t (VInt (-4096)) = Ok (VStr s)
    /\ decode t (VStr s) = Ok (VInt (-4096))
    /\ (-4096 < 0 -> exists s', s = minus_sign :: s').
Proof.
  apply (Base10_round_trip 16 (lit "0123456789abcdef") 4 (-4096)).
  - unfold len. simpl. lia.
  - apply nodupb_NoDup. reflexivity.
  - apply memb_false. reflexivity.
  - lia.
  - intros _. simpl. lia.
Defined.

(** ** The canonical digit alphabet of CharsetTranslatorBuilder *)

Lemma extend_digits_length (digits : str) (lo : Z) (n : nat) (r : str) :
  extend_digits digits lo n = Ok r -> length r = (length digits + n)%nat.
Proof.
  revert digits lo. induction n as [|n IH]; intros digits lo; simpl.
  - intros [= <-]. lia.
  - destruct (chr lo); simpl; [|discriminate].
    intros H. apply IH in H. rewrite length_app in H. simpl in H. lia.
Qed.

(** The alphabet is never shorter than the target alphabet. *)
Lemma canonical_digits_length (charset digits : str) :
  canonical_digits charset = Ok digits ->
  len charset <= len digits /\ len digits_and_letters <= len digits.
Proof.
  unfold canonical_digits. intros H. apply extend_digits_length in H.
  unfold len in *. lia.
Qed.

(** Up to 65 target symbols the alphabet is [0-9a-zA-Z] followed by at most
    [>], [?] and [@]: its symbols are unique, the minus sign is not among
    them and the first is the character 0. *)
Lemma canonical_digits_small (charset : str) :
  len charset <= 65 ->
  exists digits,
    canonical_digits charset = Ok digits
    /\ NoDup digits
    /\ ~ In minus_sign digits
    /\ str_get digits 0 = Ok zero_char
    /\ ~ In newline digits.
Proof.
  intros Hlen. unfold canonical_digits.
  assert (Hk : (Z.to_nat (len charset - len digits_and_letters) <= 3)%nat)
    by (change (len digits_and_letters) with 62; lia).
  destruct (Z.to_nat _) as [|[|[|[|k]]]]; [| | | |lia];
    (eexists; split; [reflexivity|];
     split; [apply nodupb_NoDup; reflexivity|];
     split; [apply memb_false; reflexivity|];
     split; [reflexivity | apply memb_false; reflexivity]).
Qed.

(** C4: from 66 target symbols on the extension reaches [chr(65)], the
    letter [A], which is already the digit of value 36: the alphabet has a
    repeated symbol, the dict comprehension keeps one entry for it, and
    the digits of value 36 and 65 are both replaced by the last target
    symbol.  The message [A] (code point 65, one digit of value 65 in base
    66) is then decoded as [$] (code point 36).  The length requirement
    does hold. *)
Theorem canonical_digits_repeat_A :
  NoDup charset66
  /\ (exists digits,
      canonical_digits charset66 = Ok digits
      /\ len digits = 66
      /\ str_get digits 36 = Ok 65
      /\ str_get digits 65 = Ok 65
      /\ ~ NoDup digits
      /\ dict_lookup (replacement digits charset66) (VStr [65]) = Ok (VStr [1065])
      /\ str_get charset66 36 = Ok 1036
      /\ str_get charset66 65 = Ok 1065)
  /\ (exists T,
      CharsetTranslatorBuilder_build
        {| charset := charset66; separator := lit "-";
           start_seq := lit "<<"; end_seq := lit ">>" |} = Ok T
      /\ encode T (VStr (lit "A")) = Ok (VStr (lit "<<" ++ [1065] ++ lit ">>"))
      /\ decode T (VStr (lit "<<" ++ [1065] ++ lit ">>"))
         = Ok (VGen [VStr (lit "$")] None)).
Proof.
  split; [apply nodupb_NoDup; reflexivity|]. split.
  - eexists. split; [reflexivity|].
    repeat split.
    intros H. apply nodupb_NoDup in H. discriminate H.
  - eexists. split; [reflexivity|]. split; reflexivity.
Qed.

(** ** The pattern of EmbeddedMessageTranslator *)

Lemma plain_cons (c : char) (s : str) :
  plain (c :: s) = true ->
  unmodelled_special c = false /\ c <> dot_char /\ c <> star_char /\ plain s = true.
Proof.
  unfold plain. simpl. rewrite andb_true_iff, negb_true_iff, !orb_false_iff.
  intros [[[H1 H2] H3] H4]. apply Z.eqb_neq in H2, H3. auto.
Qed.

Lemma plain_not_special (s : str) :
  plain s = true -> existsb unmodelled_special s = false.
Proof.
  induction s as [|c s IH]; [reflexivity|].
  intros H. apply plain_cons in H. destruct H as (H1 & _ & _ & H4).
  simpl. now rewrite H1, IH.
Qed.

Lemma parse_plain_app (p q : str) :
  plain p = true ->
  (forall d q', q = d :: q' -> d <> star_char) ->
  parse (p ++ q) = r <- parse q ;; Ok (lits p ++ r).
Proof.
  induction p as [|c p IH]; intros Hp Hq.
  - simpl. destruct (parse q); reflexivity.
  - apply plain_cons in Hp. destruct Hp as (_ & Hdot & Hstar & Hp).
    specialize (IH Hp Hq).
    change ((c :: p) ++ q) with (c :: (p ++ q)). cbn [parse].
    destruct (Z.eqb_spec c star_char); [contradiction|].
    assert (Ha : atom_of c = Chr c)
      by (unfold atom_of; destruct (Z.eqb_spec c dot_char); [contradiction | reflexivity]).
    rewrite Ha.
    destruct (p ++ q) as [|s rest] eqn:E.
    + apply app_eq_nil in E. destruct E as [-> ->]. reflexivity.
    + assert (Hs : s <> star_char).
      { destruct p as [|c' p'].
        - simpl in E. now apply (Hq s rest).
        - injection E as <- _. apply plain_cons in Hp. tauto. }
      destruct (Z.eqb_spec s star_char); [contradiction|].
      rewrite IH. destruct (parse q); reflexivity.
Qed.

Lemma parse_plain (p : str) : plain p = true -> parse p = Ok (lits p).
Proof.
  intros Hp. rewrite <- (app_nil_r p) at 1.
  rewrite parse_plain_app by (assumption || discriminate).
  simpl. now rewrite app_nil_r.
Qed.

Lemma re_compile_plain (start_seq end_seq : str) :
  plain start_seq = true -> plain end_seq = true ->
  re_compile (start_seq ++ lit ".*" ++ end_seq)
  = Ok (lits start_seq ++ Star Dot :: lits end_seq).
Proof.
  intros Hs He. unfold re_compile.
  rewrite !existsb_app.
  rewrite (plain_not_special start_seq Hs), (plain_not_special end_seq He).
  change (existsb unmodelled_special (lit ".*")) with false. cbn [orb].
  rewrite parse_plain_app; [|assumption|].
  - change (parse (lit ".*" ++ end_seq))
      with (r <- parse end_seq ;; Ok (Star Dot :: r)).
    now rewrite parse_plain.
  - intros d q' [= <- _]. discriminate.
Qed.

(** *** What the matcher computes *)

Lemma match_star_None (a : atom) (k : str -> option nat) (s : str) :
  match_star a k s = None ->
  forall mid rest, s = mid ++ rest ->
    forallb (atom_matches a) mid = true -> k rest = None.
Proof.
  induction s as [|c s IH]; intros H mid rest E Hm.
  - symmetry in E. apply app_eq_nil in E. destruct E as [-> ->]. exact H.
  - simpl in H. destruct mid as [|c' mid].
    + simpl in E. subst rest.
      destruct (atom_matches a c); [destruct (match_star a k s)|]; congruence.
    + injection E as <- E. simpl in Hm. apply andb_true_iff in Hm.
      destruct Hm as [Hc Hm]. rewrite Hc in H.
      destruct (match_star a k s) eqn:Es; [discriminate|].
      now apply (IH eq_refl mid rest).
Qed.

Lemma match_star_Some (a : atom) (k : str -> option nat) (s : str) (n : nat) :
  match_star a k s = Some n ->
  exists mid rest j,
    s = mid ++ rest
    /\ forallb (atom_matches a) mid = true
    /\ k rest = Some j
    /\ n = (length mid + j)%nat
    /\ (forall mid' rest', s = mid' ++ rest' ->
          forallb (atom_matches a) mid' = true ->
          (length mid < length mid')%nat -> k rest' = None).
Proof.
  revert n. induction s as [|c s IH]; intros n H.
  - simpl in H. exists [], [], n. do 4 (split; [auto|]).
    intros mid' rest' E _ Hl. symmetry in E. apply app_eq_nil in E.
    destruct E as [-> _]. simpl in Hl. lia.
  - simpl in H. destruct (atom_matches a c) eqn:Hc.
    + destruct (match_star a k s) as [n'|] eqn:Es.
      * injection H as <-.
        destruct (IH n' eq_refl) as (mid & rest & j & E & Hm & Hk & Hn & Hmax).
        exists (c :: mid), rest, j. subst s.
        split; [reflexivity|]. split; [simpl; now rewrite Hc|].
        split; [assumption|]. split; [simpl; lia|].
        intros mid' rest' E' Hm' Hl. destruct mid' as [|c' mid']; [simpl in Hl; lia|].
        injection E' as <- E'. simpl in Hm'. apply andb_true_iff in Hm'.
        apply (Hmax mid' rest' E'); [tauto | simpl in Hl; lia].
      * exists [], (c :: s), n. do 4 (split; [auto|]).
        intros mid' rest' E' Hm' Hl. destruct mid' as [|c' mid']; [simpl in Hl; lia|].
        injection E' as <- E'. simpl in Hm'. apply andb_true_iff in Hm'.
        apply (match_star_None a k s Es mid' rest' E'). tauto.
    + exists [], (c :: s), n. do 4 (split; [auto|]).
      intros mid' rest' E' Hm' Hl. destruct mid' as [|c' mid']; [simpl in Hl; lia|].
      injection E' as <- E'. simpl in Hm'. rewrite Hc in Hm'. discriminate.
Qed.

Lemma match_lits (e : str) (r : regex) (s : str) :
  match_here (lits e ++ r) s
  = if startswith s e
    then option_map (Nat.add (length e)) (match_here r (skipn (length e) s))
    else None.
Proof.
  revert s. induction e as [|d e IH]; intros s.
  - simpl. now destruct (match_here r s).
  - destruct s as [|c s]; [reflexivity|].
    cbn [lits map app match_here atom_matches startswith length skipn].
    destruct (c =? d); [|reflexivity]. cbn [andb].
    fold (lits e). rewrite IH.
    destruct (startswith s e); [|reflexivity].
    now destruct (match_here r (skipn (length e) s)).
Qed.

Lemma all_dot (s : str) :
  forallb (atom_matches Dot) s = true <-> ~ In newline s.
Proof.
  induction s as [|c s IH]; simpl; [tauto|].
  rewrite andb_true_iff, negb_true_iff, Z.eqb_neq, IH. intuition congruence.
Qed.

Lemma match_lits_only (e : str) (s : str) :
  match_here (lits e) s = if startswith s e then Some (length e) else None.
Proof.
  rewrite <- (app_nil_r (lits e)), match_lits. simpl.
  now rewrite Nat.add_0_r.
Qed.

Lemma skipn_app_exact (a b : str) : skipn (length a) (a ++ b) = b.
Proof. now rewrite skipn_app, skipn_all, Nat.sub_diag. Qed.

Lemma firstn_app_exact (a b : str) : firstn (length a) (a ++ b) = a.
Proof. now rewrite firstn_app, firstn_all, Nat.sub_diag, app_nil_r. Qed.

Lemma app_eq_length (a b x y : str) :
  a ++ x = b ++ y -> length a = length b -> a = b /\ x = y.
Proof.
  revert b. induction a as [|c a IH]; intros [|d b] E Hl; simpl in *;
    try discriminate; [auto|].
  injection E as -> E. destruct (IH b E) as [-> ->]; auto.
Qed.

Section Framing.

Variables start_seq end_seq : str.

Let pattern : regex := lits start_seq ++ Star Dot :: lits end_seq.

Lemma pattern_here_None (s : str) :
  match_here pattern s = None -> forall mid, ~ span start_seq end_seq s [] mid.
Proof.
  unfold pattern. rewrite match_lits. intros H mid (post & E & Hnl).
  simpl in E. subst s.
  rewrite startswith_app, skipn_app_exact in H. cbn [match_here] in H.
  destruct (match_star _ _ _) eqn:Es; [discriminate|].
  apply all_dot in Hnl.
  pose proof (match_star_None _ _ _ Es mid (end_seq ++ post) eq_refl Hnl) as Hk.
  rewrite match_lits_only, startswith_app in Hk. discriminate.
Qed.

Lemma pattern_here_Some (s : str) (n : nat) :
  match_here pattern s = Some n ->
  exists mid,
    span start_seq end_seq s [] mid
    /\ firstn n s = start_seq ++ mid ++ end_seq
    /\ (forall mid', span start_seq end_seq s [] mid' ->
        (length mid' <= length mid)%nat).
Proof.
  unfold pattern. rewrite match_lits.
  destruct (startswith s start_seq) eqn:Hs; [|discriminate].
  apply startswith_iff in Hs. destruct Hs as [t ->].
  rewrite skipn_app_exact. cbn [match_here].
  destruct (match_star _ _ _) as [n'|] eqn:Es; [|discriminate].
  intros [= <-].
  apply match_star_Some in Es.
  destruct Es as (mid & rest & j & -> & Hm & Hk & -> & Hmax).
  rewrite match_lits_only in Hk.
  destruct (startswith rest end_seq) eqn:He; [|discriminate].
  injection Hk as <-. apply startswith_iff in He. destruct He as [post ->].
  exists mid. split; [|split].
  - exists post. split; [reflexivity | now apply all_dot].
  - replace (start_seq ++ mid ++ end_seq ++ post)
      with ((start_seq ++ mid ++ end_seq) ++ post)
      by (now rewrite <- !app_assoc).
    replace (length start_seq + (length mid + length end_seq))%nat
      with (length (start_seq ++ mid ++ end_seq))
      by (now rewrite !length_app).
    apply firstn_app_exact.
  - intros mid' (post' & E & Hnl). simpl in E. apply app_inv_head in E.
    destruct (Nat.le_gt_cases (length mid') (length mid)) as [|Hl]; [assumption|].
    apply all_dot in Hnl.
    pose proof (Hmax mid' (end_seq ++ post') E Hnl Hl) as Hk.
    rewrite match_lits_only, startswith_app in Hk. discriminate.
Qed.

Lemma span_cons (c : char) (s pre mid : str) :
  span start_seq end_seq (c :: s) (c :: pre) mid
  <-> span start_seq end_seq s pre mid.
Proof.
  unfold span. split; intros (post & E & H); exists post; split; auto.
  - simpl in E. now injection E.
  - simpl. now rewrite E.
Qed.

Lemma span_head (c : char) (s pre mid : str) :
  span start_seq end_seq (c :: s) pre mid ->
  pre = [] \/ exists pre', pre = c :: pre' /\ span start_seq end_seq s pre' mid.
Proof.
  destruct pre as [|d pre]; [now left|]. intros H. right.
  assert (d = c) by (destruct H as (post & E & _); simpl in E; congruence).
  subst d. exists pre. split; [reflexivity | now apply (proj1 (span_cons c s pre mid))].
Qed.

Lemma first_match_None (s : str) :
  first_match pattern s = None ->
  forall pre mid, ~ span start_seq end_seq s pre mid.
Proof.
  induction s as [|c s IH]; simpl; intros H pre mid Hsp;
    destruct (match_here pattern _) eqn:Eh; try discriminate.
  - destruct Hsp as (post & E & Hnl).
    destruct pre; [|discriminate].
    apply (pattern_here_None [] Eh mid). now exists post.
  - destruct (span_head _ _ _ _ Hsp) as [-> | (pre' & -> & Hsp')].
    + now apply (pattern_here_None _ Eh mid).
    + now apply (IH H pre' mid).
Qed.

Lemma first_match_Some (s cand : str) :
  first_match pattern s = Some cand ->
  exists pre mid,
    span start_seq end_seq s pre mid
    /\ cand = start_seq ++ mid ++ end_seq
    /\ (forall pre' mid', span start_seq end_seq s pre' mid' ->
        (length pre <= length pre')%nat)
    /\ (forall mid', span start_seq end_seq s pre mid' ->
        (length mid' <= length mid)%nat).
Proof.
  assert (Hhere : forall s n, match_here pattern s = Some n ->
            Some (firstn n s) = Some cand ->
            exists pre mid,
              span start_seq end_seq s pre mid
              /\ cand = start_seq ++ mid ++ end_seq
              /\ (forall pre' mid', span start_seq end_seq s pre' mid' ->
                  (length pre <= length pre')%nat)
              /\ (forall mid', span start_seq end_seq s pre mid' ->
                  (length mid' <= length mid)%nat)).
  { intros s' n Eh [= <-].
    destruct (pattern_here_Some s' n Eh) as (mid & Hsp & Hf & Hmax).
    exists [], mid. repeat split; auto. intros; simpl; lia. }
  induction s as [|c s IH]; simpl;
    destruct (match_here pattern _) as [n|] eqn:Eh; try discriminate;
    try (now apply Hhere).
  intros H. destruct (IH H) as (pre & mid & Hsp & Hc & Hleft & Hmax).
  exists (c :: pre), mid. split; [now apply (proj2 (span_cons c s pre mid))|].
  split; [assumption|].
  split.
  - intros pre' mid' Hsp'.
    destruct (span_head _ _ _ _ Hsp') as [-> | (pre'' & -> & Hsp'')].
    + now apply (pattern_here_None _ Eh) in Hsp'.
    + simpl. apply le_n_S. now apply (Hleft pre'' mid').
  - intros mid' Hsp'. apply (proj1 (span_cons c s pre mid')) in Hsp'.
    now apply Hmax.
Qed.

End Framing.

(** *** decode *)

Lemma framing_decode (start_seq end_seq carrier : str) :
  let t := EmbeddedMessageTranslator start_seq end_seq
             (lits start_seq ++ Star Dot :: lits end_seq) in
  (decode t (VStr carrier) = Err ValueError_no_message
   <-> ~ exists pre mid, span start_seq end_seq carrier pre mid)
  /\ (forall payload,
        decode t (VStr carrier) = Ok (VStr payload)
        <-> decoded_span start_seq end_seq carrier payload).
Proof.
  cbn [decode]. unfold EmbeddedMessageTranslator_decode.
  destruct (first_match _ carrier) as [cand|] eqn:Ef.
  - apply first_match_Some in Ef.
    destruct Ef as (pre & mid & Hsp & -> & Hleft & Hmax).
    rewrite decodeCandidate_framed. cbn [bind]. split.
    + split; [discriminate|]. intros H. exfalso. apply H. now exists pre, mid.
    + intros payload. split.
      * intros [= <-]. now exists pre.
      * intros (pre1 & Hsp1 & Hleft1 & Hmax1).
        pose proof (Hleft _ _ Hsp1). pose proof (Hleft1 _ _ Hsp).
        destruct Hsp as (post & E & Hnl). destruct Hsp1 as (post1 & E1 & Hnl1).
        rewrite E in E1. apply app_eq_length in E1; [|lia].
        destruct E1 as [<- E1]. apply app_inv_head in E1.
        assert (Hs : span start_seq end_seq carrier pre mid)
          by (exists post; auto).
        assert (Hs1 : span start_seq end_seq carrier pre payload).
        { exists post1. split; [|assumption]. rewrite E. do 2 f_equal. exact E1. }
        pose proof (Hmax _ Hs1). pose proof (Hmax1 _ Hs).
        apply app_eq_length in E1; [|lia]. destruct E1 as [-> _]. reflexivity.
  - pose proof (first_match_None _ _ _ Ef) as Hnone. split.
    + split; [|reflexivity]. intros _ (pre & mid & Hsp). now apply (Hnone pre mid).
    + intros payload. split; [discriminate|].
      intros (pre & Hsp & _). exfalso. now apply (Hnone pre payload).
Qed.

Lemma EmbeddedMessageTranslator_init_plain (start_seq end_seq : str) :
  plain start_seq = true -> plain end_seq = true ->
  EmbeddedMessageTranslator_init start_seq end_seq
  = Ok (EmbeddedMessageTranslator start_seq end_seq
          (lits start_seq ++ Star Dot :: lits end_seq)).
Proof.
  intros Hs He. unfold EmbeddedMessageTranslator_init.
  now rewrite re_compile_plain.
Qed.

(** A frame whose payload has no newline is decoded to that payload. *)
Lemma framing_decode_framed (start_seq end_seq payload : str) :
  ~ In newline payload ->
  decode (EmbeddedMessageTranslator start_seq end_seq
            (lits start_seq ++ Star Dot :: lits end_seq))
         (VStr (start_seq ++ payload ++ end_seq))
  = Ok (VStr payload).
Proof.
  intros Hnl. apply framing_decode. exists []. split; [|split].
  - exists []. now rewrite app_nil_r.
  - intros; simpl; lia.
  - intros mid' (post & E & _). simpl in E. apply app_inv_head in E.
    apply (f_equal (@length _)) in E. rewrite !length_app in E. lia.
Qed.

(** C6, as stated, fails: the carrier [<<a], newline, [>>] holds the start
    marker and, after it, the end marker, but [.] does not match the
    newline, nothing is found and [decode] raises the NotFound error. *)
Lemma newline_span_counterexample :
  let carrier := lit "<<a" ++ [newline] ++ lit ">>" in
  exists t,
    EmbeddedMessageTranslator_init (lit "<<") (lit ">>") = Ok t
    /\ carrier = lit "<<" ++ (lit "a" ++ [newline]) ++ lit ">>"
    /\ decode t (VStr carrier) = Err ValueError_no_message.
Proof.
  eexists. split; [reflexivity|]. split; reflexivity.
Qed.

(** C6, amended: for markers without special characters, [decode] raises
    the NotFound error exactly when the carrier has no span made of the
    start marker, a text without a newline and the end marker; otherwise
    it returns the text of the leftmost such span, extended to the last
    end marker that can be reached without crossing a newline. *)
Theorem EmbeddedMessageTranslator_decode_spec (start_seq end_seq carrier : str) :
  plain start_seq = true -> plain end_seq = true ->
  exists t,
    EmbeddedMessageTranslator_init start_seq end_seq = Ok t
    /\ (decode t (VStr carrier) = Err ValueError_no_message
        <-> ~ exists pre mid, span start_seq end_seq carrier pre mid)
    /\ kind_of ValueError_no_message = Some NotFound
    /\ (forall payload,
          decode t (VStr carrier) = Ok (VStr payload)
          <-> decoded_span start_seq end_seq carrier payload).
Proof.
  intros Hs He. eexists.
  split; [now apply EmbeddedMessageTranslator_init_plain|].
  destruct (framing_decode start_seq end_seq carrier) as [H1 H2].
  split; [exact H1|]. split; [reflexivity | exact H2].
Qed.

Lemma EmbeddedMessageTranslator_decode_spec_witness :
  let carrier := lit "x<<a>>b>>c" in
  exists t,
    EmbeddedMessageTranslator_init (lit "<<") (lit ">>") = Ok t
    /\ (decode t (VStr carrier) = Err ValueError_no_message
        <-> ~ exists pre mid, span (lit "<<") (lit ">>") carrier pre mid)
    /\ kind_of ValueError_no_message = Some NotFound
    /\ (forall payload,
          decode t (VStr carrier) = Ok (VStr payload)
          <-> decoded_span (lit "<<") (lit ">>") carrier payload).
Proof.
  exact (EmbeddedMessageTranslator_decode_spec
           (lit "<<") (lit ">>") (lit "x<<a>>b>>c") eq_refl eq_refl).
Defined.

(** ** Splitting what was joined *)

Lemma split_go_group (sep : str) (c0 : char) (sep' g t cur : str) :
  sep = c0 :: sep' -> ~ In c0 g ->
  split_go sep 0 cur (g ++ t) = split_go sep 0 (rev g ++ cur) t.
Proof.
  intros -> . revert cur. induction g as [|c g IH]; intros cur Hn; [reflexivity|].
  cbn [app split_go startswith].
  destruct (Z.eqb_spec c c0) as [->|_]; [exfalso; apply Hn; now left|].
  cbn [andb]. rewrite IH by (intros H; apply Hn; now right).
  cbn [rev]. now rewrite <- app_assoc.
Qed.

Lemma split_go_skip (sep a t cur : str) :
  split_go sep (length a) cur (a ++ t) = split_go sep 0 cur t.
Proof.
  induction a as [|c a IH]; [reflexivity|].
  cbn [length app split_go]. exact IH.
Qed.

Lemma split_go_sep (sep : str) (c0 : char) (sep' t cur : str) :
  sep = c0 :: sep' ->
  split_go sep 0 cur (sep ++ t) = rev cur :: split_go sep 0 [] t.
Proof.
  intros E. rewrite E at 2. cbn [app split_go].
  change (c0 :: sep' ++ t) with ((c0 :: sep') ++ t).
  rewrite <- E, startswith_app.
  replace (length sep - 1)%nat with (length sep') by (rewrite E; simpl; lia).
  now rewrite split_go_skip.
Qed.

Lemma split_go_intercalate (sep : str) (c0 : char) (sep' : str) (groups : list str) :
  sep = c0 :: sep' -> groups <> [] ->
  Forall (fun g => ~ In c0 g) groups ->
  split_go sep 0 [] (intercalate sep groups) = groups.
Proof.
  intros E Hne Hg. induction groups as [|g groups IH]; [contradiction|].
  apply Forall_cons_iff in Hg. destruct Hg as [Hc0 Hg'].
  destruct groups as [|g2 groups].
  - cbn [intercalate]. rewrite <- (app_nil_r g) at 1.
    rewrite (split_go_group sep c0 sep') by assumption.
    cbn [split_go]. now rewrite app_nil_r, rev_involutive.
  - cbn [intercalate].
    rewrite (split_go_group sep c0 sep'), (split_go_sep sep c0 sep') by assumption.
    rewrite app_nil_r, rev_involutive. f_equal.
    apply IH; [discriminate | assumption].
Qed.

(** ** Dictionaries with unique keys *)

Lemma str_eqb_eq (s t : str) : str_eqb s t = true <-> s = t.
Proof.
  revert t. induction s as [|c s IH]; intros [|d t]; simpl;
    try (split; [discriminate | discriminate]); [tauto|].
  rewrite andb_true_iff, Z.eqb_eq, IH. split.
  - now intros [-> ->].
  - intros [= -> ->]. auto.
Qed.

Lemma dict_set_fresh (d : dict) (k v : str) :
  ~ In k (map fst d) -> dict_set d k v = d ++ [(k, v)].
Proof.
  induction d as [|[k' v'] d IH]; intros Hn; [reflexivity|]. simpl.
  destruct (str_eqb k' k) eqn:E.
  - apply str_eqb_eq in E. exfalso. apply Hn. now left.
  - rewrite IH; [reflexivity|]. intros H. apply Hn. now right.
Qed.

Lemma dict_of_items_fresh (items acc : list (str * str)) :
  NoDup (map fst (acc ++ items)) ->
  fold_left (fun d kv => dict_set d (fst kv) (snd kv)) items acc = acc ++ items.
Proof.
  revert acc. induction items as [|[k v] items IH]; intros acc Hnd; simpl.
  - now rewrite app_nil_r.
  - rewrite dict_set_fresh.
    + rewrite IH; rewrite <- app_assoc; [reflexivity | exact Hnd].
    + rewrite map_app in Hnd. apply NoDup_remove_2 in Hnd.
      intros H. apply Hnd. apply in_or_app. now left.
Qed.

Lemma dict_of_items_unique (items : list (str * str)) :
  NoDup (map fst items) -> dict_of_items items = items.
Proof. intros H. unfold dict_of_items. now rewrite dict_of_items_fresh. Qed.

Lemma dict_get_In (d : dict) (k v : str) :
  NoDup (map fst d) -> In (k, v) d -> dict_get d k = Some v.
Proof.
  induction d as [|[k' v'] d IH]; intros Hnd Hin; [contradiction|].
  simpl in *. inversion Hnd as [|? ? Hnotin Hnd']; subst.
  destruct Hin as [[= -> ->] | Hin].
  - assert (E : str_eqb k k = true) by now apply str_eqb_eq. now rewrite E.
  - destruct (str_eqb k' k) eqn:E.
    + apply str_eqb_eq in E. subst k'. exfalso. apply Hnotin.
      now apply (in_map fst) in Hin.
    + now apply IH.
Qed.

Lemma map_fst_combine (l l' : str) :
  (length l' <= length l)%nat -> map fst (combine l l') = firstn (length l') l.
Proof.
  revert l'. induction l as [|c l IH]; intros [|d l'] H; simpl in *;
    try reflexivity; try lia.
  f_equal. apply IH. lia.
Qed.

Lemma map_snd_combine (l l' : str) :
  (length l' <= length l)%nat -> map snd (combine l l') = l'.
Proof.
  revert l'. induction l as [|c l IH]; intros [|d l'] H; simpl in *;
    try reflexivity; try lia.
  f_equal. apply IH. lia.
Qed.

Lemma NoDup_singletons (l : str) : NoDup l -> NoDup (map (fun c => [c]) l).
Proof.
  induction 1 as [|c l Hn Hnd IH]; simpl; constructor; [|assumption].
  rewrite in_map_iff. intros (d & [= ->] & Hd). contradiction.
Qed.

Lemma NoDup_firstn (n : nat) (l : str) : NoDup l -> NoDup (firstn n l).
Proof.
  intros H. rewrite <- (firstn_skipn n l) in H. now apply NoDup_app_remove_r in H.
Qed.

Section Replacement.

Variables digits charset : str.
Hypothesis digits_unique : NoDup digits.
Hypothesis charset_unique : NoDup charset.
Hypothesis digits_enough : (length charset <= length digits)%nat.

Let items : dict := replacement_items digits charset.

Lemma items_keys : map fst items = map (fun c => [c]) (firstn (length charset) digits).
Proof.
  unfold items, replacement_items. rewrite map_map. cbn [fst].
  rewrite <- (map_fst_combine digits charset digits_enough). now rewrite map_map.
Qed.

Lemma items_values : map snd items = map (fun c => [c]) charset.
Proof.
  unfold items, replacement_items. rewrite map_map. cbn [snd].
  rewrite <- (map_snd_combine digits charset digits_enough) at 2. now rewrite map_map.
Qed.

Lemma replacement_unique : replacement digits charset = items.
Proof.
  unfold replacement. fold items. apply dict_of_items_unique.
  rewrite items_keys. now apply NoDup_singletons, NoDup_firstn.
Qed.

Lemma replacement_inverse :
  StringReplacementTranslator_init (replacement digits charset)
  = StringReplacementTranslator items (map (fun kv => (snd kv, fst kv)) items).
Proof.
  unfold StringReplacementTranslator_init. rewrite replacement_unique. f_equal.
  apply dict_of_items_unique. rewrite map_map. cbn [fst].
  change (map (fun x : str * str => snd x) items) with (map snd items).
  rewrite items_values. now apply NoDup_singletons.
Qed.

(** A digit is replaced by a target symbol and the inverse dict gives the
    digit back. *)
Lemma replacement_round_trip (c : char) :
  In c (firstn (length charset) digits) ->
  dict_get items [c] = Some [subst items c]
  /\ dict_get (map (fun kv => (snd kv, fst kv)) items) [subst items c] = Some [c]
  /\ In (subst items c) charset.
Proof.
  intros Hc. rewrite <- (map_fst_combine digits charset digits_enough) in Hc.
  apply in_map_iff in Hc. destruct Hc as ([c' y] & E & Hin). simpl in E. subst c'.
  assert (Hi : In ([c], [y]) items).
  { unfold items, replacement_items. apply in_map_iff. now exists (c, y). }
  assert (Hg : dict_get items [c] = Some [y]).
  { apply dict_get_In; [|assumption].
    rewrite items_keys. now apply NoDup_singletons, NoDup_firstn. }
  unfold subst. rewrite Hg. split; [reflexivity|]. split.
  - apply dict_get_In.
    + rewrite map_map. cbn [fst].
      change (map (fun x : str * str => snd x) items) with (map snd items).
      rewrite items_values. now apply NoDup_singletons.
    + apply in_map_iff. now exists ([c], [y]).
  - now apply in_combine_r in Hin.
Qed.

End Replacement.

(** ** Generators *)

Lemma gen_map_map {A : Type} (f : val -> result val) (F G : A -> val)
      (l : list A) (e : option exn) :
  (forall a, In a l -> f (F a) = Ok (G a)) ->
  gen_map f (map F l) e = VGen (map G l) e.
Proof.
  unfold gen_map. induction l as [|a l IH]; intros H; [reflexivity|].
  cbn [map gen_items]. rewrite H by now left.
  destruct (gen_items f (map F l) e) as [ys e'] eqn:E.
  specialize (IH (fun a' Ha => H a' (or_intror Ha))).
  injection IH as -> ->. reflexivity.
Qed.

(** A generator whose first item fails raises at once; one with a failing
    item raises at the latest there. *)
Lemma gen_map_fails {A : Type} (f : val -> result val) (F : A -> val)
      (l : list A) (e : option exn) (a : A) (x : exn) :
  In a l -> f (F a) = Err x ->
  exists ys x', gen_map f (map F l) e = VGen ys (Some x').
Proof.
  unfold gen_map. induction l as [|b l IH]; intros Hin Hf; [contradiction|].
  cbn [map gen_items]. destruct (f (F b)) as [y|x0] eqn:Eb.
  - destruct Hin as [-> | Hin]; [congruence|].
    destruct (IH Hin Hf) as (ys & x' & E).
    destruct (gen_items f (map F l) e) as [ys0 e0].
    injection E as -> ->. eauto.
  - eauto.
Qed.

Lemma strs_of_map {A : Type} (g : A -> str) (l : list A) :
  strs_of (map (fun a => VStr (g a)) l) = Ok (map g l).
Proof.
  induction l as [|a l IH]; [reflexivity|]. simpl. now rewrite IH.
Qed.

Lemma intercalate_chars {A : Type} (g : A -> char) (l : list A) :
  intercalate [] (map (fun a => [g a]) l) = map g l.
Proof.
  induction l as [|a [|b l] IH]; [reflexivity | reflexivity|].
  cbn [map intercalate app] in *. now rewrite IH.
Qed.

(** ["".join] of a generator of one-character strings. *)
Lemma py_join_chars {A : Type} (g : A -> char) (l : list A) :
  py_join [] (VGen (map (fun a => VStr [g a]) l) None) = Ok (VStr (map g l)).
Proof.
  unfold py_join, consume. cbn [iter bind snd fst].
  rewrite (strs_of_map (fun a => [g a])). cbn [bind].
  now rewrite intercalate_chars.
Qed.

(** ** The charset pipeline *)

Lemma encode_numeral (base : Z) (digits : str) (n : Z) :
  2 <= base <= len digits -> 0 <= n ->
  Base10ToBaseNTranslator_encode base digits 0 (VInt n)
  = Ok (VStr (numeral base digits n)).
Proof.
  intros Hb Hn. unfold numeral.
  destruct (Z.eqb_spec n 0) as [->|Hnz]; [reflexivity|].
  rewrite (encode_positive base digits Hb 0 n) by lia. cbv zeta.
  set (ds := digit_values base _ n).
  replace (Z.to_nat (0 - len ds)) with O by (pose proof (len_nonneg ds); lia).
  cbn [repeat]. now rewrite app_nil_r.
Qed.

Lemma decode_numeral (base : Z) (digits : str) (n : Z) :
  2 <= base <= len digits -> NoDup digits ->
  ~ In minus_sign (firstn (Z.to_nat base) digits) ->
  str_get digits 0 = Ok zero_char -> 0 <= n ->
  Base10ToBaseNTranslator_decode base digits (VStr (numeral base digits n))
  = Ok (VInt n).
Proof.
  intros Hb Hu Hm Hz Hn.
  destruct (Base10_encode_decode base digits Hb Hu Hm 0 n) as (s & He & Hd & _);
    [auto | lia |].
  rewrite encode_numeral in He by assumption. now injection He as <-.
Qed.

Lemma numeral_chars (base : Z) (digits : str) (n : Z) :
  2 <= base <= len digits -> str_get digits 0 = Ok zero_char ->
  Forall (fun c => In c (firstn (Z.to_nat base) digits)) (numeral base digits n).
Proof.
  intros Hb Hz. unfold numeral. destruct (n =? 0).
  - destruct digits as [|z rest]; [now rewrite str_get_empty in Hz|].
    rewrite str_get_0_cons in Hz. injection Hz as ->.
    destruct (Z.to_nat base) eqn:E; [lia|].
    constructor; [now left | constructor].
  - apply Forall_forall. intros c Hc.
    rewrite <- in_rev, in_map_iff in Hc. destruct Hc as (d & <- & Hd).
    apply digit_char_in; [assumption|].
    pose proof (digit_values_range base digits Hb (S (Z.to_nat (Z.log2 n))) n) as Hr.
    rewrite Forall_forall in Hr. now apply Hr.
Qed.

Lemma in_intercalate (sep : str) (groups : list str) (c : char) :
  In c (intercalate sep groups) ->
  In c sep \/ exists g, In g groups /\ In c g.
Proof.
  induction groups as [|g [|g2 groups] IH]; cbn [intercalate]; intros H.
  - contradiction.
  - right. exists g. split; [now left | assumption].
  - rewrite !in_app_iff in H. destruct H as [H | [H | H]].
    + right. exists g. split; [now left | assumption].
    + now left.
    + destruct (IH H) as [|(g' & Hg' & Hc)]; [now left|].
      right. exists g'. split; [now right | assumption].
Qed.

Lemma In_firstn (n : nat) (l : str) (c : char) : In c (firstn n l) -> In c l.
Proof.
  intros H. rewrite <- (firstn_skipn n l). apply in_or_app. now left.
Qed.

Lemma translate_items_VStr (f : val -> result val) (s : str) :
  translate_items f (VStr s) = Ok (gen_map f (map (fun c => VStr [c]) s) None).
Proof. reflexivity. Qed.

Lemma translate_items_VGen (f : val -> result val) (l : list val) (e : option exn) :
  translate_items f (VGen l e) = Ok (gen_map f l e).
Proof. reflexivity. Qed.

Lemma translate_items_VList (f : val -> result val) (l : list val) :
  translate_items f (VList l) = Ok (gen_map f l None).
Proof. reflexivity. Qed.

Section Pipeline.

Variables digits cs sep start_seq end_seq : str.

Hypothesis digits_unique : NoDup digits.
Hypothesis cs_unique : NoDup cs.
Hypothesis cs_size : 2 <= len cs <= len digits.
Hypothesis minus_not_digit : ~ In minus_sign digits.
Hypothesis zero_first : str_get digits 0 = Ok zero_char.

Let base : Z := len cs.
Let items : dict := replacement_items digits cs.
Let items_inv : dict := map (fun kv => (snd kv, fst kv)) items.

Lemma cs_fits : (length cs <= length digits)%nat.
Proof using cs_size. unfold len in cs_size. lia. Qed.

Lemma numeral_in_digits (c d : char) :
  In d (numeral base digits c) -> In d (firstn (length cs) digits).
Proof using cs_size zero_first.
  intros Hd.
  pose proof (numeral_chars base digits c cs_size zero_first) as H.
  rewrite Forall_forall in H. apply H in Hd.
  unfold base, len in Hd. now rewrite Nat2Z.id in Hd.
Qed.

Lemma group_in_cs (c y : char) : In y (group digits cs c) -> In y cs.
Proof using cs_size zero_first digits_unique cs_unique.
  unfold group. rewrite in_map_iff. intros (d & <- & Hd).
  apply numeral_in_digits in Hd.
  now apply (replacement_round_trip digits cs digits_unique cs_unique cs_fits).
Qed.

(** *** The stages, one by one *)

Lemma stage1_encode (m : str) :
  encode (IterableTranslator UnicodeCharacterTranslator) (VStr m)
  = Ok (VGen (map VInt m) None).
Proof.
  cbn [encode]. rewrite translate_items_VStr. f_equal.
  now apply gen_map_map.
Qed.

Lemma stage2_encode (m : str) :
  Forall (fun c => 0 <= c) m ->
  encode (IterableTranslator (Base10ToBaseNTranslator base digits 0))
         (VGen (map VInt m) None)
  = Ok (VGen (map (fun c => VStr (numeral base digits c)) m) None).
Proof using cs_size.
  intros Hm. cbn [encode]. rewrite translate_items_VGen. f_equal.
  apply gen_map_map. intros c Hc. rewrite Forall_forall in Hm.
  apply encode_numeral; auto.
Qed.

Lemma stage3_encode (m : str) :
  encode (IterableTranslator (FunctionTranslator py_str (py_join [])))
         (VGen (map (fun c => VStr (numeral base digits c)) m) None)
  = Ok (VGen (map (fun c => VStr (numeral base digits c)) m) None).
Proof.
  cbn [encode]. rewrite translate_items_VGen. f_equal.
  now apply gen_map_map.
Qed.

Lemma stage4_encode (m : str) :
  encode (IterableTranslator
            (IterableTranslator (StringReplacementTranslator items items_inv)))
         (VGen (map (fun c => VStr (numeral base digits c)) m) None)
  = Ok (VGen (map (fun c => VGen (map (fun y => VStr [y]) (group digits cs c)) None) m) None).
Proof using cs_size zero_first digits_unique cs_unique.
  cbn [encode]. rewrite translate_items_VGen. f_equal.
  apply gen_map_map. intros c _. rewrite translate_items_VStr. f_equal.
  unfold group. rewrite map_map. apply gen_map_map. intros d Hd.
  apply numeral_in_digits in Hd.
  destruct (replacement_round_trip digits cs digits_unique cs_unique cs_fits d Hd)
    as (Hg & _ & _).
  cbn [dict_lookup]. fold items in Hg. now rewrite Hg.
Qed.

Lemma stage5_encode (m : str) :
  encode (IterableTranslator (FunctionTranslator (py_join []) py_list))
         (VGen (map (fun c => VGen (map (fun y => VStr [y]) (group digits cs c)) None) m) None)
  = Ok (VGen (map (fun c => VStr (group digits cs c)) m) None).
Proof.
  cbn [encode]. rewrite translate_items_VGen. f_equal.
  apply gen_map_map. intros c _.
  rewrite (py_join_chars (fun y => y)). now rewrite map_id.
Qed.

Lemma stage6_encode (m : str) :
  encode (FunctionTranslator (py_join sep) (py_split sep))
         (VGen (map (fun c => VStr (group digits cs c)) m) None)
  = Ok (VStr (payload digits cs sep m)).
Proof.
  cbn [encode]. unfold py_join, consume. cbn [iter bind fst snd].
  now rewrite strs_of_map.
Qed.

Lemma stage6_decode (m : str) (c0 : char) (sep' : str) :
  sep = c0 :: sep' -> ~ In c0 cs -> m <> [] ->
  decode (FunctionTranslator (py_join sep) (py_split sep)) (VStr (payload digits cs sep m))
  = Ok (VList (map (fun c => VStr (group digits cs c)) m)).
Proof using cs_size zero_first digits_unique cs_unique.
  intros E Hc0 Hm. cbn [decode]. unfold py_split, split. rewrite E at 1.
  cbn [bind]. unfold payload.
  rewrite (split_go_intercalate sep c0 sep' _ E).
  - now rewrite map_map.
  - destruct m; [contradiction | discriminate].
  - apply Forall_forall. intros g Hg. apply in_map_iff in Hg.
    destruct Hg as (c & <- & _). intros H. apply Hc0. now apply (group_in_cs c).
Qed.

Lemma stage5_decode (m : str) :
  decode (IterableTranslator (FunctionTranslator (py_join []) py_list))
         (VList (map (fun c => VStr (group digits cs c)) m))
  = Ok (VGen (map (fun c => VList (map (fun y => VStr [y]) (group digits cs c))) m) None).
Proof.
  cbn [decode]. rewrite translate_items_VList. f_equal.
  now apply gen_map_map.
Qed.

Lemma stage4_decode (m : str) :
  decode (IterableTranslator
            (IterableTranslator (StringReplacementTranslator items items_inv)))
         (VGen (map (fun c => VList (map (fun y => VStr [y]) (group digits cs c))) m) None)
  = Ok (VGen (map (fun c => VGen (map (fun d => VStr [d]) (numeral base digits c)) None)
                  m) None).
Proof using cs_size zero_first digits_unique cs_unique.
  cbn [decode]. rewrite translate_items_VGen. f_equal.
  apply gen_map_map. intros c _. rewrite translate_items_VList. f_equal.
  unfold group. rewrite map_map. apply gen_map_map. intros d Hd.
  apply numeral_in_digits in Hd.
  destruct (replacement_round_trip digits cs digits_unique cs_unique cs_fits d Hd)
    as (_ & Hg & _).
  cbn [dict_lookup]. unfold items_inv, items. now rewrite Hg.
Qed.

Lemma stage3_decode (m : str) :
  decode (IterableTranslator (FunctionTranslator py_str (py_join [])))
         (VGen (map (fun c => VGen (map (fun d => VStr [d]) (numeral base digits c)) None)
                    m) None)
  = Ok (VGen (map (fun c => VStr (numeral base digits c)) m) None).
Proof.
  cbn [decode]. rewrite translate_items_VGen. f_equal.
  apply gen_map_map. intros c _.
  rewrite (py_join_chars (fun d => d)). now rewrite map_id.
Qed.

Lemma stage2_decode (m : str) :
  Forall (fun c => 0 <= c) m ->
  decode (IterableTranslator (Base10ToBaseNTranslator base digits 0))
         (VGen (map (fun c => VStr (numeral base digits c)) m) None)
  = Ok (VGen (map VInt m) None).
Proof using cs_size zero_first digits_unique minus_not_digit.
  intros Hm. cbn [decode]. rewrite translate_items_VGen. f_equal.
  apply gen_map_map. intros c Hc. rewrite Forall_forall in Hm.
  apply decode_numeral; auto.
  intros H. apply minus_not_digit. now apply In_firstn in H.
Qed.

Lemma stage1_decode (m : str) :
  Forall (fun c => 0 <= c <= 255) m ->
  decode (IterableTranslator UnicodeCharacterTranslator) (VGen (map VInt m) None)
  = Ok (VGen (map (fun c => VStr [c]) m) None).
Proof.
  intros Hm. cbn [decode]. rewrite translate_items_VGen. f_equal.
  apply gen_map_map. intros c Hc. rewrite Forall_forall in Hm.
  specialize (Hm c Hc). unfold UnicodeCharacterTranslator_decode, chr.
  destruct (Z.leb_spec 0 c); [|lia]. destruct (Z.leb_spec c 255); [|lia].
  destruct (Z.ltb_spec c 1114112); [reflexivity | lia].
Qed.

End Pipeline.

(** *** The chain *)

Lemma build_chain (ts : list Translator) (T : Translator) :
  ChainTranslatorBuilder_build ts = Ok T ->
  (forall v, encode T v = encode_all ts v)
  /\ (forall v, decode T v = decode_all ts v).
Proof.
  destruct ts as [|t1 [|t2 rest]]; simpl; intros [= <-]; split; intros v.
  - reflexivity.
  - reflexivity.
  - rewrite encode_fold_chain. reflexivity.
  - rewrite decode_fold_chain. unfold decode_all. simpl.
    destruct (fold_right _ _ rest); reflexivity.
Qed.

Lemma build_stages (b : CharsetTranslatorBuilder) (digits : str) (pattern : regex) :
  canonical_digits (charset b) = Ok digits ->
  2 <= len (charset b) ->
  re_compile (start_seq b ++ lit ".*" ++ end_seq b) = Ok pattern ->
  CharsetTranslatorBuilder_build b
  = ChainTranslatorBuilder_build
      (stages digits (charset b) (separator b) (start_seq b) (end_seq b) pattern).
Proof.
  intros Hd Hsize Hre. unfold CharsetTranslatorBuilder_build, pipe.
  rewrite Hd. cbn [bind]. unfold Base10ToBaseNTranslator_init.
  destruct (Z.ltb_spec (len (charset b)) 2); [lia|].
  apply canonical_digits_length in Hd.
  destruct (Z.ltb_spec (len digits) (len (charset b))); [lia|].
  cbn [bind]. unfold EmbeddedMessageTranslator_init. rewrite Hre. reflexivity.
Qed.

Lemma build_stages_inv (b : CharsetTranslatorBuilder) (T : Translator) :
  CharsetTranslatorBuilder_build b = Ok T ->
  exists digits pattern,
    ChainTranslatorBuilder_build
      (stages digits (charset b) (separator b) (start_seq b) (end_seq b) pattern)
    = Ok T
    /\ re_compile (start_seq b ++ lit ".*" ++ end_seq b) = Ok pattern.
Proof.
  unfold CharsetTranslatorBuilder_build, pipe.
  destruct (canonical_digits (charset b)) as [digits|]; [|discriminate].
  cbn [bind]. unfold Base10ToBaseNTranslator_init.
  destruct (len (charset b) <? 2); [discriminate|].
  destruct (len digits <? len (charset b)); [discriminate|].
  cbn [bind]. unfold EmbeddedMessageTranslator_init.
  destruct (re_compile _) as [pattern|]; [|discriminate].
  cbn [bind]. intros H. now exists digits, pattern.
Qed.

Section PipelineRoundTrip.

Variables digits cs sep start_seq end_seq : str.

Hypothesis digits_unique : NoDup digits.
Hypothesis cs_unique : NoDup cs.
Hypothesis cs_size : 2 <= len cs <= len digits.
Hypothesis minus_not_digit : ~ In minus_sign digits.
Hypothesis zero_first : str_get digits 0 = Ok zero_char.

Let the_stages : list Translator :=
  stages digits cs sep start_seq end_seq
         (lits start_seq ++ Star Dot :: lits end_seq).

Lemma stages_encode (m : str) :
  Forall (fun c => 0 <= c) m ->
  encode_all the_stages (VStr m)
  = Ok (VStr (start_seq ++ payload digits cs sep m ++ end_seq)).
Proof using digits_unique cs_unique cs_size zero_first.
  intros Hm. unfold the_stages, stages, encode_all.
  rewrite (replacement_inverse digits cs digits_unique cs_unique)
    by (unfold len in cs_size; lia).
  cbn [fold_left bind].
  rewrite stage1_encode. cbn [bind].
  rewrite stage2_encode by assumption. cbn [bind].
  rewrite stage3_encode. cbn [bind].
  rewrite stage4_encode by assumption. cbn [bind].
  rewrite stage5_encode. cbn [bind].
  rewrite stage6_encode by assumption. cbn [bind].
  reflexivity.
Qed.

Lemma payload_no_newline (m : str) :
  ~ In newline cs -> ~ In newline sep ->
  ~ In newline (payload digits cs sep m).
Proof using digits_unique cs_unique cs_size zero_first.
  intros Hcs Hsep H. apply in_intercalate in H.
  destruct H as [H | (g & Hg & H)]; [contradiction|].
  apply in_map_iff in Hg. destruct Hg as (c & <- & _).
  apply Hcs. now apply (group_in_cs digits cs digits_unique cs_unique cs_size zero_first c).
Qed.

Lemma stages_decode (m : str) (c0 : char) (sep' : str) :
  sep = c0 :: sep' -> ~ In c0 cs ->
  ~ In newline cs -> ~ In newline sep ->
  m <> [] -> Forall (fun c => 0 <= c <= 255) m ->
  decode_all the_stages (VStr (start_seq ++ payload digits cs sep m ++ end_seq))
  = Ok (VGen (map (fun c => VStr [c]) m) None).
Proof using digits_unique cs_unique cs_size zero_first minus_not_digit.
  intros E Hc0 Hnl1 Hnl2 Hne Hm.
  assert (Hm0 : Forall (fun c => 0 <= c) m)
    by (eapply Forall_impl; [|exact Hm]; simpl; intros; lia).
  unfold the_stages, stages, decode_all.
  rewrite (replacement_inverse digits cs digits_unique cs_unique)
    by (unfold len in cs_size; lia).
  cbn [fold_right bind].
  rewrite framing_decode_framed by now apply payload_no_newline.
  cbn [bind].
  rewrite (stage6_decode digits cs sep digits_unique cs_unique cs_size zero_first
                         m c0 sep') by assumption.
  cbn [bind].
  rewrite stage5_decode. cbn [bind].
  rewrite stage4_decode by assumption. cbn [bind].
  rewrite stage3_decode. cbn [bind].
  rewrite stage2_decode by assumption. cbn [bind].
  now apply stage1_decode.
Qed.

End PipelineRoundTrip.

(** *** The round trip of a message *)

(** C1, as stated, fails: with the newline as separator the groups of a
    two-character message are joined by a newline, which the [.*] of the
    framing pattern does not cross, so [decode] finds no frame in what
    [encode] returned and raises the NotFound error. *)
Lemma newline_separator_counterexample :
  let b := {| charset := lit "AB"; separator := [newline];
              start_seq := lit "<<"; end_seq := lit ">>" |} in
  exists T,
    CharsetTranslatorBuilder_build b = Ok T
    /\ encode T (VStr (lit "ab"))
       = Ok (VStr (lit "<<BBAAAAB" ++ [newline] ++ lit "BBAAABA>>"))
    /\ decode T (VStr (lit "<<BBAAAAB" ++ [newline] ++ lit "BBAAABA>>"))
       = Err ValueError_no_message.
Proof.
  eexists. split; [reflexivity|]. split; reflexivity.
Qed.

(** A character beyond code point 255 is encoded, but
    [UnicodeCharacterTranslator.decode] refuses its code point: the
    generator that [decode] returns raises the OutOfRange error instead of
    yielding the character. *)
Lemma code_point_256_not_decoded :
  exists T,
    CharsetTranslatorBuilder_build scenario = Ok T
    /\ encode T (VStr [256]) = Ok (VStr (lit "<<BAAAAAAAA>>"))
    /\ decode T (VStr (lit "<<BAAAAAAAA>>"))
       = Ok (VGen [] (Some (ValueError_number_range 256))).
Proof.
  eexists. split; [reflexivity|]. split; reflexivity.
Qed.

(** C1, amended: [decode (encode message)] yields the characters of the
    message, in order, when the message is not empty and its characters
    have code points up to 255, the target alphabet has between 2 and 65
    unique symbols, the separator is not empty and does not start with a
    target symbol, neither of them holds a newline, and the markers have
    no character that is special in a pattern.  The result of [decode] is
    a generator of one-character strings, not a string. *)
Theorem CharsetTranslator_round_trip (b : CharsetTranslatorBuilder) (message : str) :
  NoDup (charset b) ->
  2 <= len (charset b) <= 65 ->
  ~ In newline (charset b) ->
  (exists c0 sep', separator b = c0 :: sep' /\ ~ In c0 (charset b)) ->
  ~ In newline (separator b) ->
  plain (start_seq b) = true ->
  plain (end_seq b) = true ->
  message <> [] ->
  Forall (fun c => 0 <= c <= 255) message ->
  exists T encoded,
    CharsetTranslatorBuilder_build b = Ok T
    /\ encode T (VStr message) = Ok (VStr encoded)
    /\ decode T (VStr encoded)
       = Ok (VGen (map (fun c => VStr [c]) message) None).
Proof.
  intros Hcs Hsize Hnl (c0 & sep' & Hsep & Hc0) Hnls Hps Hpe Hne Hm.
  destruct (canonical_digits_small (charset b)) as (digits & Hd & Hdu & Hdm & Hz & _);
    [lia|].
  pose proof (canonical_digits_length _ _ Hd) as [Hlen _].
  pose proof (build_stages b digits _ Hd (proj1 Hsize)
                (re_compile_plain _ _ Hps Hpe)) as Hb.
  set (ts := stages _ _ _ _ _ _) in Hb.
  destruct (ChainTranslatorBuilder_build ts) as [T|] eqn:ET; [|discriminate ET].
  destruct (build_chain ts T ET) as [Henc Hdec].
  assert (Hm0 : Forall (fun c => 0 <= c) message)
    by (eapply Forall_impl; [|exact Hm]; simpl; intros; lia).
  exists T. eexists. split; [exact Hb|].
  rewrite Henc, Hdec. unfold ts. split.
  - apply stages_encode; auto; lia.
  - apply (stages_decode digits (charset b) (separator b) (start_seq b) (end_seq b))
      with (c0 := c0) (sep' := sep'); auto; lia.
Qed.

Lemma CharsetTranslator_round_trip_witness :
  exists T encoded,
    CharsetTranslatorBuilder_build scenario = Ok T
    /\ encode T (VStr (lit "a")) = Ok (VStr encoded)
    /\ decode T (VStr encoded)
       = Ok (VGen (map (fun c => VStr [c]) (lit "a")) None).
Proof.
  apply (CharsetTranslator_round_trip scenario (lit "a")).
  - apply nodupb_NoDup. reflexivity.
  - unfold len. simpl. lia.
  - apply memb_false. reflexivity.
  - exists 45, []. split; [reflexivity | apply memb_false; reflexivity].
  - apply memb_false. reflexivity.
  - reflexivity.
  - reflexivity.
  - discriminate.
  - apply Forall_cons; [cbv; split; discriminate | apply Forall_nil].
Defined.

(** The scenario of the specification: [a] is framed as [<<BBAAAAB>>]. *)
Example scenario_encode_a :
  (T <- CharsetTranslatorBuilder_build scenario ;; encode T (VStr (lit "a")))
  = Ok (VStr (lit "<<BBAAAAB>>")).
Proof. reflexivity. Qed.

(** *** Empty digit groups *)

Lemma gen_items_fuse (f1 f2 : val -> result val) (l : list val) (e : option exn) :
  gen_items f2 (fst (gen_items f1 l e)) (snd (gen_items f1 l e))
  = gen_items (fun x => y <- f1 x ;; f2 y) l e.
Proof.
  induction l as [|x l IH]; [reflexivity|].
  cbn [gen_items]. destruct (f1 x) as [y|x_e]; [|reflexivity].
  cbn [bind]. destruct (gen_items f1 l e) as [ys e'].
  cbn [fst snd gen_items] in *. destruct (f2 y); [|reflexivity].
  now rewrite IH.
Qed.

Lemma translate_items_gen_map (f1 f2 : val -> result val) (l : list val)
      (e : option exn) :
  translate_items f2 (gen_map f1 l e)
  = Ok (gen_map (fun x => y <- f1 x ;; f2 y) l e).
Proof.
  unfold gen_map. rewrite <- gen_items_fuse.
  destruct (gen_items f1 l e) as [ys e']. reflexivity.
Qed.

(** C10: [Base10ToBaseNTranslator.decode] indexes [num[0]] unguarded, so
    the empty string raises [IndexError], none of the error kinds of the
    specification; and when the payload of the frame found in a carrier
    splits into groups one of which is empty, the generator that the
    pipeline's [decode] returns raises: at once, with that [IndexError],
    when the first group is the empty one. *)
Theorem decode_empty_numeral_unguarded :
  (forall base digits padding,
      decode (Base10ToBaseNTranslator base digits padding) (VStr [])
      = Err IndexError_string_index)
  /\ kind_of IndexError_string_index = None
  /\ (forall b T framing carrier p groups,
        CharsetTranslatorBuilder_build b = Ok T ->
        EmbeddedMessageTranslator_init (start_seq b) (end_seq b) = Ok framing ->
        decode framing (VStr carrier) = Ok (VStr p) ->
        split p (separator b) = Ok groups ->
        In [] groups ->
        (exists ys x, decode T (VStr carrier) = Ok (VGen ys (Some x)))
        /\ (forall rest, groups = [] :: rest ->
            decode T (VStr carrier)
            = Ok (VGen [] (Some IndexError_string_index)))).
Proof.
  split; [reflexivity|]. split; [reflexivity|].
  intros b T framing carrier p groups HT Hf Hdec Hsplit Hin.
  apply build_stages_inv in HT. destruct HT as (digits & pattern & HT & Hre).
  unfold EmbeddedMessageTranslator_init in Hf. rewrite Hre in Hf.
  injection Hf as <-.
  destruct (build_chain _ T HT) as [_ HD]. rewrite HD.
  unfold stages, decode_all, StringReplacementTranslator_init.
  cbn [fold_right bind]. rewrite Hdec. cbn [bind decode].
  unfold py_split. rewrite Hsplit. cbn [bind].
  rewrite translate_items_VList. cbn [bind].
  do 4 (rewrite translate_items_gen_map; cbn [bind]).
  split.
  - match goal with
    | |- context [gen_map ?h (map VStr groups) None] =>
      destruct (gen_map_fails h VStr groups None [] IndexError_string_index
                              Hin eq_refl) as (ys & x & E)
    end.
    exists ys, x. now rewrite E.
  - intros rest ->. reflexivity.
Qed.

Lemma decode_empty_numeral_unguarded_witness :
  exists T,
    CharsetTranslatorBuilder_build scenario = Ok T
    /\ decode T (VStr (lit "<<>>")) = Ok (VGen [] (Some IndexError_string_index)).
Proof.
  eexists. split; [reflexivity|].
  destruct decode_empty_numeral_unguarded as (_ & _ & H).
  refine (proj2 (H scenario _ _ (lit "<<>>") [] [[]]
                   eq_refl eq_refl eq_refl eq_refl (or_introl eq_refl))
                [] eq_refl).
Defined.

(** * Further properties of the translators *)

(** ** UnicodeCharacterTranslator: round trips *)

(** A character comes back from [decode (encode c)] exactly when its code
    point lies in [[0, 255]], and a number comes back from
    [encode (decode n)] exactly when it lies in that range. *)
Theorem UnicodeCharacterTranslator_round_trip (c : char) (n : Z) :
  ((exists v, encode UnicodeCharacterTranslator (VStr [c]) = Ok v
              /\ decode UnicodeCharacterTranslator v = Ok (VStr [c]))
   <-> 0 <= c <= 255)
  /\ ((exists v, decode UnicodeCharacterTranslator (VInt n) = Ok v
                 /\ encode UnicodeCharacterTranslator v = Ok (VInt n))
      <-> 0 <= n <= 255).
Proof.
  assert (Hdec : forall m, 0 <= m <= 255 ->
             UnicodeCharacterTranslator_decode (VInt m) = Ok (VStr [m])).
  { intros m Hm. unfold UnicodeCharacterTranslator_decode, chr.
    replace (0 <=? m) with true by (symmetry; apply Z.leb_le; lia).
    replace (m <=? 255) with true by (symmetry; apply Z.leb_le; lia).
    replace (m <? 1114112) with true by (symmetry; apply Z.ltb_lt; lia).
    reflexivity. }
  assert (Hrange : forall m v, UnicodeCharacterTranslator_decode (VInt m) = Ok v ->
             0 <= m <= 255).
  { intros m v. unfold UnicodeCharacterTranslator_decode.
    destruct (Z.leb_spec 0 m); destruct (Z.leb_spec m 255); simpl;
      try discriminate. lia. }
  cbn [encode decode]. split; split.
  - intros (v & [= <-] & H). now apply Hrange in H.
  - intros Hc. exists (VInt c). split; [reflexivity | now apply Hdec].
  - intros (v & H & _). now apply Hrange in H.
  - intros Hn. exists (VStr [n]). split; [now apply Hdec | reflexivity].
Qed.

(** ** Base10ToBaseNTranslator: what [encode] returns *)

Lemma Base10ToBaseNTranslator_init_Ok (base : Z) (digits : str) (padding : Z)
      (t : Translator) :
  Base10ToBaseNTranslator_init base digits padding = Ok t ->
  2 <= base <= len digits /\ t = Base10ToBaseNTranslator base digits padding.
Proof.
  unfold Base10ToBaseNTranslator_init.
  destruct (Z.ltb_spec base 2); [discriminate|].
  destruct (Z.ltb_spec (len digits) base); [discriminate|].
  intros [= <-]. split; [lia | reflexivity].
Qed.

Lemma rev_repeat {A : Type} (x : A) (k : nat) : rev (repeat x k) = repeat x k.
Proof.
  induction k as [|k IH]; [reflexivity|].
  cbn [repeat rev]. rewrite IH. clear IH.
  induction k as [|k IH]; [reflexivity|]. cbn [repeat app]. now rewrite IH.
Qed.

Lemma len_repeat (x : char) (k : nat) : len (repeat x k) = Z.of_nat k.
Proof. unfold len. now rewrite repeat_length. Qed.

Lemma len_rev (s : str) : len (rev s) = len s.
Proof. unfold len. now rewrite length_rev. Qed.

Lemma len_map_digits (digits : str) (ds : list Z) :
  len (map (digit_char digits) ds) = len ds.
Proof. unfold len. now rewrite length_map. Qed.

(** A translator that [__init__] accepted encodes every integer: the
    division loop ends, no digit lookup is out of range, the numeral is
    not empty and, for a number other than 0, it has at least [padding]
    characters. *)
Theorem Base10ToBaseNTranslator_encode_total (base : Z) (digits : str)
        (padding : Z) (t : Translator) (n : Z) :
  Base10ToBaseNTranslator_init base digits padding = Ok t ->
  exists s,
    encode t (VInt n) = Ok (VStr s)
    /\ s <> []
    /\ (n <> 0 -> padding <= len s).
Proof.
  intros Hi. apply Base10ToBaseNTranslator_init_Ok in Hi.
  destruct Hi as [Hb ->]. cbn [encode].
  destruct (Z.lt_trichotomy n 0) as [Hn | [-> | Hn]].
  - pose proof (encode_negative base digits Hb padding n Hn) as He.
    cbv zeta in He. set (ds := digit_values base _ (- n)) in He.
    eexists. split; [exact He|]. rewrite rev_app_distr, rev_repeat. split.
    + intros E. apply (f_equal (@length _)) in E.
      rewrite !length_app, length_rev, length_app in E. simpl in E. lia.
    + intros _. rewrite len_app, len_repeat, len_rev, len_app, len_map_digits.
      change (len [minus_sign]) with 1. pose proof (len_nonneg ds). lia.
  - exists (lit "0"). split; [reflexivity|]. split; [discriminate | lia].
  - destruct (encode_positive_padded base digits Hb padding n Hn)
      as (s & k & H0 & Hp & Hl).
    eexists. split; [exact Hp|]. split; [|intros _; exact Hl].
    intros E. apply app_eq_nil in E. destruct E as [_ ->].
    pose proof (encode_positive base digits Hb 0 n Hn) as H0'. cbv zeta in H0'.
    pose proof (digit_values_nonempty base (Z.to_nat (Z.log2 n)) n Hn) as Hne.
    set (ds := digit_values base _ n) in *.
    rewrite H0 in H0'. injection H0' as H0'.
    apply (f_equal (@length _)) in H0'.
    rewrite length_rev, length_map, length_app in H0'.
    destruct ds; [contradiction | simpl in H0'; discriminate H0'].
Qed.

Lemma Base10ToBaseNTranslator_encode_total_witness :
  exists s,
    encode (Base10ToBaseNTranslator 2 (lit "ab") 3) (VInt (-1)) = Ok (VStr s)
    /\ s <> []
    /\ (-1 <> 0 -> 3 <= len s).
Proof.
  exact (Base10ToBaseNTranslator_encode_total 2 (lit "ab") 3 _ (-1) eq_refl).
Defined.

Lemma value_bound (base : Z) (ds : list Z) :
  2 <= base -> Forall (fun d => 0 <= d < base) ds ->
  0 <= value base ds < base ^ len ds.
Proof.
  intros Hb. induction 1 as [|d ds Hd Hr IH]; [simpl; lia|].
  rewrite len_cons, Z.pow_succ_r by apply len_nonneg. cbn [value]. nia.
Qed.

Lemma value_snoc_zero (base : Z) (ds : list Z) :
  value base (ds ++ [0]) = value base ds.
Proof. induction ds as [|d ds IH]; simpl; [lia | now rewrite IH]. Qed.

(** The most significant digit of a positive number is not 0. *)
Lemma digit_values_last (base : Z) (digits : str) (n : Z) :
  2 <= base <= len digits -> 0 < n ->
  exists init d,
    digit_values base (S (Z.to_nat (Z.log2 n))) n = init ++ [d]
    /\ 1 <= d < base.
Proof.
  intros Hb Hn.
  pose proof (digit_values_length base digits Hb _ n
                (conj Hn (proj2 (log2_fuel n Hn)))) as Hlen.
  pose proof (digit_values_range base digits Hb (S (Z.to_nat (Z.log2 n))) n) as Hr.
  pose proof (value_digit_values base digits Hb _ n (log2_fuel n Hn)) as Hv.
  set (ds := digit_values base _ n) in *.
  destruct (rev ds) as [|d rds] eqn:E;
    apply (f_equal (@rev _)) in E; rewrite rev_involutive in E; simpl in E.
  - rewrite E in Hlen. simpl in Hlen. lia.
  - exists (rev rds), d. split; [exact E|].
    rewrite E in Hr. apply Forall_app in Hr. destruct Hr as [Hinit Hd].
    apply Forall_cons_iff in Hd. destruct Hd as [Hd _].
    destruct (Z.eq_dec d 0) as [->|]; [|lia]. exfalso.
    pose proof (value_bound base (rev rds) (proj1 Hb) Hinit) as Hvb.
    rewrite E, value_snoc_zero in Hv.
    rewrite E, len_app in Hlen. change (len [0]) with 1 in Hlen.
    replace (len (rev rds) + 1 - 1) with (len (rev rds)) in Hlen by lia.
    lia.
Qed.

(** For a positive number the numeral without padding has exactly as many
    characters as the number has digits in the base, and its first
    character is not the digit at position 0; with padding, copies of that
    digit are put in front, up to [padding] characters in all. *)
Theorem Base10ToBaseNTranslator_encode_positive (base : Z) (digits : str)
        (padding n : Z) :
  2 <= base <= len digits -> NoDup digits -> 0 < n ->
  exists s k,
    encode (Base10ToBaseNTranslator base digits 0) (VInt n) = Ok (VStr s)
    /\ base ^ (len s - 1) <= n < base ^ len s
    /\ (exists d rest, s = digit_char digits d :: rest /\ 1 <= d < base)
    /\ hd 0 s <> digit_char digits 0
    /\ encode (Base10ToBaseNTranslator base digits padding) (VInt n)
       = Ok (VStr (repeat (digit_char digits 0) k ++ s))
    /\ len (repeat (digit_char digits 0) k ++ s) = Z.max padding (len s).
Proof.
  intros Hb Hu Hn. cbn [encode].
  pose proof (encode_positive base digits Hb 0 n Hn) as H0.
  pose proof (encode_positive base digits Hb padding n Hn) as Hp.
  cbv zeta in H0, Hp.
  pose proof (digit_values_length base digits Hb _ n
                (conj Hn (proj2 (log2_fuel n Hn)))) as Hlen.
  destruct (digit_values_last base digits n Hb Hn) as (init & d & Hlast & Hd).
  set (ds := digit_values base _ n) in *.
  replace (Z.to_nat (0 - len ds)) with O in H0
    by (pose proof (len_nonneg ds); lia).
  cbn [repeat] in H0. rewrite app_nil_r in H0.
  exists (rev (map (digit_char digits) ds)), (Z.to_nat (padding - len ds)).
  split; [exact H0|]. rewrite len_rev, len_map_digits. split; [exact Hlen|].
  assert (Hs : rev (map (digit_char digits) ds)
               = digit_char digits d :: rev (map (digit_char digits) init)).
  { rewrite Hlast, map_app, rev_app_distr. reflexivity. }
  split; [now exists d, (rev (map (digit_char digits) init))|]. split.
  - rewrite Hs. cbn [hd]. unfold digit_char.
    intros E. apply (NoDup_nth digits 0) in E; auto; unfold len in Hb; lia.
  - split.
    + rewrite Hp. do 2 f_equal.
      now rewrite map_app, rev_app_distr, map_repeat, rev_repeat.
    + rewrite len_app, len_repeat, len_rev, len_map_digits.
      pose proof (len_nonneg ds). lia.
Qed.

Lemma Base10ToBaseNTranslator_encode_positive_witness :
  exists s k,
    encode (Base10ToBaseNTranslator 2 (lit "ab") 0) (VInt 5) = Ok (VStr s)
    /\ 2 ^ (len s - 1) <= 5 < 2 ^ len s
    /\ (exists d rest, s = digit_char (lit "ab") d :: rest /\ 1 <= d < 2)
    /\ hd 0 s <> digit_char (lit "ab") 0
    /\ encode (Base10ToBaseNTranslator 2 (lit "ab") 6) (VInt 5)
       = Ok (VStr (repeat (digit_char (lit "ab") 0) k ++ s))
    /\ len (repeat (digit_char (lit "ab") 0) k ++ s) = Z.max 6 (len s).
Proof.
  apply (Base10ToBaseNTranslator_encode_positive 2 (lit "ab") 6 5).
  - unfold len. simpl. lia.
  - apply nodupb_NoDup. reflexivity.
  - lia.
Defined.

(** For a negative number the numeral is that of its absolute value with
    the minus sign in front, and the padding, when any is needed, stands
    before the sign: the sign is leftmost only when no padding is added. *)
Theorem Base10ToBaseNTranslator_encode_negative (base : Z) (digits : str)
        (padding n : Z) :
  2 <= base <= len digits -> n < 0 ->
  exists s k,
    encode (Base10ToBaseNTranslator base digits 0) (VInt (- n)) = Ok (VStr s)
    /\ encode (Base10ToBaseNTranslator base digits padding) (VInt n)
       = Ok (VStr (repeat (digit_char digits 0) k ++ minus_sign :: s))
    /\ Z.of_nat k = Z.max 0 (padding - (len s + 1))
    /\ len (repeat (digit_char digits 0) k ++ minus_sign :: s)
       = Z.max padding (len s + 1).
Proof.
  intros Hb Hn. cbn [encode].
  pose proof (encode_positive base digits Hb 0 (- n) ltac:(lia)) as H0.
  pose proof (encode_negative base digits Hb padding n Hn) as Hp.
  cbv zeta in H0, Hp.
  set (ds := digit_values base _ (- n)) in *.
  replace (Z.to_nat (0 - len ds)) with O in H0
    by (pose proof (len_nonneg ds); lia).
  cbn [repeat] in H0. rewrite app_nil_r in H0.
  exists (rev (map (digit_char digits) ds)), (Z.to_nat (padding - (len ds + 1))).
  split; [exact H0|]. rewrite len_app, len_repeat, len_cons, len_rev, len_map_digits.
  pose proof (len_nonneg ds). split; [|split; lia].
  rewrite Hp. do 2 f_equal.
  rewrite rev_app_distr, rev_repeat, rev_app_distr. reflexivity.
Qed.

Lemma Base10ToBaseNTranslator_encode_negative_witness :
  exists s k,
    encode (Base10ToBaseNTranslator 10 (lit "0123456789") 0) (VInt (- -5))
    = Ok (VStr s)
    /\ encode (Base10ToBaseNTranslator 10 (lit "0123456789") 5) (VInt (-5))
       = Ok (VStr (repeat (digit_char (lit "0123456789") 0) k ++ minus_sign :: s))
    /\ Z.of_nat k = Z.max 0 (5 - (len s + 1))
    /\ len (repeat (digit_char (lit "0123456789") 0) k ++ minus_sign :: s)
       = Z.max 5 (len s + 1).
Proof.
  apply (Base10ToBaseNTranslator_encode_negative 10 (lit "0123456789") 5 (-5)).
  - unfold len. simpl. lia.
  - lia.
Defined.

(** ** Base10ToBaseNTranslator: what [decode] accepts *)

Lemma index_Ok (s : str) (c : char) (i : Z) :
  index s c = Ok i -> In c s /\ 0 <= i < len s.
Proof.
  revert i. induction s as [|d s IH]; intros i; simpl; [discriminate|].
  destruct (Z.eqb_spec d c) as [->|_].
  - intros [= <-]. split; [now left|]. rewrite len_cons.
    pose proof (len_nonneg s). lia.
  - destruct (index s c) as [j|] eqn:E; simpl; [|discriminate].
    intros [= <-]. destruct (IH j eq_refl) as [Hin Hj].
    split; [now right|]. rewrite len_cons. lia.
Qed.

Lemma index_Err (s : str) (c : char) (e : exn) :
  index s c = Err e -> e = ValueError_substring_not_found /\ ~ In c s.
Proof.
  induction s as [|d s IH]; simpl.
  - intros [= <-]. auto.
  - destruct (Z.eqb_spec d c) as [->|Hne]; [discriminate|].
    destruct (index s c) as [j|e'] eqn:E; simpl; [discriminate|].
    intros [= <-]. destruct (IH eq_refl) as [-> Hn]. split; [reflexivity|].
    intros [H|H]; [contradiction | now apply Hn].
Qed.

Lemma decode_loop_Ok (base : Z) (digits rnum : str) (i acc v : Z) :
  0 <= i ->
  decode_loop base digits rnum i acc = Ok v ->
  (forall c, In c rnum -> In c digits)
  /\ v = acc + base ^ i * value base (map (digit_value digits) rnum).
Proof.
  revert i acc. induction rnum as [|c rnum IH]; intros i acc Hi; simpl.
  - intros [= <-]. split; [contradiction | lia].
  - unfold digit_value at 1.
    destruct (index digits c) as [idx|] eqn:E; simpl; [|discriminate].
    intros H. apply IH in H; [|lia]. destruct H as [Hall ->].
    apply index_Ok in E. split.
    + intros c' [<-|Hc']; [tauto | now apply Hall].
    + replace (i + 1) with (Z.succ i) by lia. rewrite Z.pow_succ_r by lia. ring.
Qed.

Lemma decode_loop_Err (base : Z) (digits rnum : str) (i acc : Z) (e : exn) :
  decode_loop base digits rnum i acc = Err e ->
  e = ValueError_substring_not_found
  /\ exists c, In c rnum /\ ~ In c digits.
Proof.
  revert i acc. induction rnum as [|c rnum IH]; intros i acc; simpl; [discriminate|].
  destruct (index digits c) as [idx|e'] eqn:E; simpl.
  - intros H. apply IH in H. destruct H as [-> (c' & Hc' & Hn)].
    split; [reflexivity|]. exists c'. split; [now right | assumption].
  - intros [= <-]. apply index_Err in E. destruct E as [-> Hn].
    split; [reflexivity|]. exists c. split; [now left | assumption].
Qed.

(** On a string that is not empty, [decode] raises the InvalidDigit error
    exactly when a character after the optional sign is not in the
    alphabet; otherwise it returns the signed sum of the positions of the
    characters weighted by the powers of the base.  Nothing else is
    checked: a lone minus sign is read as 0 and a digit whose position is
    [base] or more is accepted. *)
Theorem Base10ToBaseNTranslator_decode_digits (base : Z) (digits : str)
        (padding : Z) (num : str) :
  num <> [] ->
  let t := Base10ToBaseNTranslator base digits padding in
  let body := numeral_body num in
  let sign := if hd 0 num =? minus_sign then -1 else 1 in
  (decode t (VStr num) = Err ValueError_substring_not_found
   <-> exists c, In c body /\ ~ In c digits)
  /\ ((forall c, In c body -> In c digits)
      <-> decode t (VStr num)
          = Ok (VInt (sign * value base (map (digit_value digits) (rev body)))))
  /\ kind_of ValueError_substring_not_found = Some InvalidDigit.
Proof.
  intros Hne t body sign. destruct num as [|c rest]; [contradiction|].
  subst t body sign. cbn [decode hd numeral_body].
  unfold Base10ToBaseNTranslator_decode. rewrite str_get_0_cons. cbn [bind].
  assert (Hbody : (if c =? minus_sign then slice_from (c :: rest) 1 else c :: rest)
                  = (if c =? minus_sign then rest else c :: rest))
    by (destruct (c =? minus_sign); [apply slice_from_1 | reflexivity]).
  rewrite Hbody. clear Hbody.
  destruct (c =? minus_sign);
    match goal with
    | |- context [decode_loop base digits (rev ?b) 0 0] =>
      destruct (decode_loop base digits (rev b) 0 0) as [v|e] eqn:E
    end; cbn [bind].
  1, 3: apply decode_loop_Ok in E; [|lia]; destruct E as [Hall ->];
    rewrite Z.pow_0_r;
    (split; [|split; [|reflexivity]]);
    [ split; [discriminate|]; intros (x & Hx & Hn); exfalso;
      apply Hn, Hall; now apply in_rev in Hx
    | split; [intros _; do 2 f_equal; lia|];
      intros _ x Hx; apply Hall; now apply in_rev in Hx ].
  all: apply decode_loop_Err in E; destruct E as [-> (x & Hx & Hn)];
    apply in_rev in Hx;
    (split; [|split; [|reflexivity]]);
    [ split; [|reflexivity]; intros _; now exists x
    | split; [|discriminate]; intros Hall; exfalso; auto ].
Qed.

Lemma Base10ToBaseNTranslator_decode_digits_witness :
  let t := Base10ToBaseNTranslator 2 (lit "ab") 0 in
  let body := numeral_body (lit "-bax") in
  let sign := if hd 0 (lit "-bax") =? minus_sign then -1 else 1 in
  (decode t (VStr (lit "-bax")) = Err ValueError_substring_not_found
   <-> exists c, In c body /\ ~ In c (lit "ab"))
  /\ ((forall c, In c body -> In c (lit "ab"))
      <-> decode t (VStr (lit "-bax"))
          = Ok (VInt (sign * value 2 (map (digit_value (lit "ab")) (rev body)))))
  /\ kind_of ValueError_substring_not_found = Some InvalidDigit.
Proof.
  apply (Base10ToBaseNTranslator_decode_digits 2 (lit "ab") 0 (lit "-bax")).
  discriminate.
Defined.

(** ** Base10ToBaseNTranslator: numerals that [encode] gives back *)

Lemma value_positive (base : Z) (ds : list Z) :
  2 <= base -> Forall (fun d => 0 <= d < base) ds ->
  ds <> [] -> last ds 1 <> 0 -> 0 < value base ds.
Proof.
  intros Hb. induction 1 as [|d ds Hd Hr IH]; intros Hne Hlast; [contradiction|].
  cbn [value]. destruct ds as [|d' ds'].
  - simpl in *. lia.
  - assert (0 < value base (d' :: ds')) by (apply IH; [discriminate | exact Hlast]).
    nia.
Qed.

(** The division loop gives back the digits of a value whose most
    significant digit is not 0. *)
Lemma digit_values_value (base : Z) (digits : str) (ds : list Z) (fuel : nat) :
  2 <= base <= len digits ->
  Forall (fun d => 0 <= d < base) ds -> last ds 1 <> 0 ->
  value base ds < 2 ^ Z.of_nat fuel ->
  digit_values base fuel (value base ds) = ds.
Proof.
  intros Hb Hr. revert fuel.
  induction Hr as [|d ds Hd Hr IH]; intros fuel Hlast Hf.
  - destruct fuel; reflexivity.
  - assert (Hpos : 0 < value base (d :: ds))
      by (apply value_positive; [lia | now constructor | discriminate | exact Hlast]).
    destruct fuel as [|fuel]; [change (2 ^ Z.of_nat 0) with 1 in Hf; lia|].
    cbn [digit_values]. destruct (Z.eqb_spec (value base (d :: ds)) 0); [lia|].
    pose proof (div_fuel base digits Hb fuel _ (conj Hpos Hf)) as Hq.
    cbn [value] in *.
    assert (Hmod : (d + base * value base ds) mod base = d)
      by (symmetry; apply (Z.mod_unique _ base (value base ds) d); lia).
    assert (Hdiv : (d + base * value base ds) / base = value base ds)
      by (symmetry; apply (Z.div_unique _ base (value base ds) d); lia).
    rewrite Hmod, Hdiv. f_equal. rewrite Hdiv in Hq.
    destruct ds as [|d' ds'].
    + simpl. destruct fuel; reflexivity.
    + apply IH; [exact Hlast | lia].
Qed.

Lemma in_firstn_digit_char (base : Z) (digits : str) (c : char) :
  In c (firstn (Z.to_nat base) digits) ->
  exists d, 0 <= d < base /\ c = digit_char digits d.
Proof.
  intros Hc. apply (In_nth _ _ 0) in Hc. destruct Hc as (k & Hk & <-).
  rewrite length_firstn in Hk. exists (Z.of_nat k). split; [lia|].
  unfold digit_char. rewrite Nat2Z.id.
  rewrite <- (firstn_skipn (Z.to_nat base) digits) at 2.
  rewrite app_nth1; [reflexivity | rewrite length_firstn; lia].
Qed.

Lemma chars_digit_chars (base : Z) (digits s : str) :
  Forall (fun c => In c (firstn (Z.to_nat base) digits)) s ->
  exists l, s = map (digit_char digits) l /\ Forall (fun d => 0 <= d < base) l.
Proof.
  induction 1 as [|c s Hc Hs (l & -> & Hl)]; [now exists []|].
  apply in_firstn_digit_char in Hc. destruct Hc as (d & Hd & ->).
  exists (d :: l). split; [reflexivity | now constructor].
Qed.

Lemma last_rev_cons (d : Z) (l : list Z) : last (rev (d :: l)) 1 = d.
Proof. cbn [rev]. apply last_last. Qed.

(** A string of digit characters that does not start with the digit at
    position 0 is the numeral of the number it decodes to:
    [encode (decode s) = s]. *)
Theorem Base10ToBaseNTranslator_decode_encode (base : Z) (digits s : str) :
  2 <= base <= len digits ->
  NoDup digits ->
  ~ In minus_sign (firstn (Z.to_nat base) digits) ->
  s <> [] ->
  Forall (fun c => In c (firstn (Z.to_nat base) digits)) s ->
  hd 0 s <> digit_char digits 0 ->
  let t := Base10ToBaseNTranslator base digits 0 in
  exists n,
    0 < n
    /\ decode t (VStr s) = Ok (VInt n)
    /\ encode t (VInt n) = Ok (VStr s).
Proof.
  intros Hb Hu Hm Hne Hs Hhd t. subst t. cbn [encode decode].
  apply chars_digit_chars in Hs. destruct Hs as (l & -> & Hl).
  destruct l as [|d l]; [contradiction|]. cbn [map hd] in Hhd.
  assert (Hd0 : d <> 0) by (intros ->; contradiction).
  set (ds := rev (d :: l)).
  assert (Hr : Forall (fun d => 0 <= d < base) ds)
    by (apply Forall_rev; exact Hl).
  assert (Hlast : last ds 1 <> 0) by (unfold ds; now rewrite last_rev_cons).
  assert (Hds : ds <> []).
  { unfold ds. cbn [rev]. intros E. now apply app_eq_nil in E as [_ E]. }
  assert (Hs : map (digit_char digits) (d :: l) = rev (map (digit_char digits) ds))
    by (unfold ds; now rewrite map_rev, rev_involutive).
  assert (Hpos : 0 < value base ds) by (apply value_positive; auto; lia).
  exists (value base ds). split; [exact Hpos|]. rewrite Hs. split.
  - now apply decode_digit_string.
  - rewrite (encode_numeral base digits) by (auto; lia). unfold numeral.
    destruct (Z.eqb_spec (value base ds) 0); [lia|].
    rewrite (digit_values_value base digits ds); auto.
    apply log2_fuel; assumption.
Qed.

Lemma Base10ToBaseNTranslator_decode_encode_witness :
  let t := Base10ToBaseNTranslator 2 (lit "ab") 0 in
  exists n,
    0 < n
    /\ decode t (VStr (lit "bab")) = Ok (VInt n)
    /\ encode t (VInt n) = Ok (VStr (lit "bab")).
Proof.
  apply (Base10ToBaseNTranslator_decode_encode 2 (lit "ab") (lit "bab")).
  - unfold len. simpl. lia.
  - apply nodupb_NoDup. reflexivity.
  - apply memb_false. reflexivity.
  - discriminate.
  - repeat (apply Forall_cons; [apply memb_In; reflexivity|]). apply Forall_nil.
  - cbv. discriminate.
Defined.

(** ** IterableTranslator *)

Lemma gen_items_yields (f : val -> result val) (l : list val) (e : option exn) :
  yields f l e (fst (gen_items f l e)) (snd (gen_items f l e)).
Proof.
  induction l as [|x l IH]; cbn [gen_items].
  - left. split; [constructor | reflexivity].
  - destruct (f x) as [y|err] eqn:Ex.
    + destruct (gen_items f l e) as [ys e']. cbn [fst snd] in *.
      destruct IH as [[Hall ->] | (l1 & x' & l2 & err & -> & Hall & Hx & ->)].
      * left. split; [now constructor | reflexivity].
      * right. exists (x :: l1), x', l2, err.
        split; [reflexivity|]. split; [now constructor | auto].
    + right. exists [], x, l, err. cbn [fst snd].
      split; [reflexivity|]. split; [constructor | auto].
Qed.

Lemma translate_items_yields (f : val -> result val) (v : val) (l : list val)
      (e : option exn) :
  iter v = Ok (l, e) ->
  exists ys e', translate_items f v = Ok (VGen ys e') /\ yields f l e ys e'.
Proof.
  intros Hi. unfold translate_items. rewrite Hi. cbn [bind fst snd].
  pose proof (gen_items_yields f l e) as H. unfold gen_map.
  destruct (gen_items f l e) as [ys e']. now exists ys, e'.
Qed.

(** On anything that can be iterated, [encode] and [decode] return a
    generator without raising: it yields the translations of the items in
    order and, when an item fails, raises that item's error after the
    translations of the items before it.  An integer is refused with a
    [TypeError] at the call. *)
Theorem IterableTranslator_generator (t : Translator) (v : val) (l : list val)
        (e : option exn) :
  iter v = Ok (l, e) ->
  (exists ys e',
      encode (IterableTranslator t) v = Ok (VGen ys e')
      /\ yields (encode t) l e ys e')
  /\ (exists ys e',
         decode (IterableTranslator t) v = Ok (VGen ys e')
         /\ yields (decode t) l e ys e')
  /\ (forall n, encode (IterableTranslator t) (VInt n) = Err TypeError
                /\ decode (IterableTranslator t) (VInt n) = Err TypeError).
Proof.
  intros Hi. cbn [encode decode].
  split; [now apply translate_items_yields|].
  split; [now apply translate_items_yields|].
  intros n. split; reflexivity.
Qed.

Lemma IterableTranslator_generator_witness :
  (exists ys e',
      encode (IterableTranslator UnicodeCharacterTranslator) (VStr (lit "ab"))
      = Ok (VGen ys e')
      /\ yields (encode UnicodeCharacterTranslator)
                [VStr (lit "a"); VStr (lit "b")] None ys e')
  /\ (exists ys e',
         decode (IterableTranslator UnicodeCharacterTranslator) (VStr (lit "ab"))
         = Ok (VGen ys e')
         /\ yields (decode UnicodeCharacterTranslator)
                   [VStr (lit "a"); VStr (lit "b")] None ys e')
  /\ (forall n,
         encode (IterableTranslator UnicodeCharacterTranslator) (VInt n)
         = Err TypeError
         /\ decode (IterableTranslator UnicodeCharacterTranslator) (VInt n)
            = Err TypeError).
Proof.
  exact (IterableTranslator_generator UnicodeCharacterTranslator
           (VStr (lit "ab")) _ None eq_refl).
Defined.

(** Lifting distributes over chaining: two lifted translators in a chain
    behave as the lifted chain of the two, on every input and in both
    directions, errors included. *)
Theorem IterableTranslator_chain (t1 t2 : Translator) (v : val) :
  encode (ChainedTranslator (IterableTranslator t1) (IterableTranslator t2)) v
  = encode (IterableTranslator (ChainedTranslator t1 t2)) v
  /\ decode (ChainedTranslator (IterableTranslator t1) (IterableTranslator t2)) v
     = decode (IterableTranslator (ChainedTranslator t1 t2)) v.
Proof.
  cbn [encode decode]. split.
  - destruct v as [n|s|l|l e]; try reflexivity;
      (rewrite ?translate_items_VStr, ?translate_items_VList, ?translate_items_VGen;
       cbn [bind]; apply translate_items_gen_map).
  - destruct v as [n|s|l|l e]; try reflexivity;
      (rewrite ?translate_items_VStr, ?translate_items_VList, ?translate_items_VGen;
       cbn [bind]; apply translate_items_gen_map).
Qed.

(** ** ChainTranslatorBuilder: how chains compose *)

Lemma encode_all_Err (ts : list Translator) (e : exn) :
  fold_left (fun r t => x <- r ;; encode t x) ts (Err e) = Err e.
Proof. induction ts; simpl; auto. Qed.

Lemma encode_all_cons (t : Translator) (ts : list Translator) (v : val) :
  encode_all (t :: ts) v = x <- encode t v ;; encode_all ts x.
Proof.
  unfold encode_all. cbn [fold_left bind].
  destruct (encode t v); cbn [bind]; [reflexivity | apply encode_all_Err].
Qed.

Lemma encode_all_app (ts1 ts2 : list Translator) (v : val) :
  encode_all (ts1 ++ ts2) v = x <- encode_all ts1 v ;; encode_all ts2 x.
Proof.
  revert v. induction ts1 as [|t ts1 IH]; intros v; [reflexivity|].
  cbn [app]. rewrite !encode_all_cons.
  destruct (encode t v); cbn [bind]; [apply IH | reflexivity].
Qed.

Lemma decode_all_app (ts1 ts2 : list Translator) (v : val) :
  decode_all (ts1 ++ ts2) v = x <- decode_all ts2 v ;; decode_all ts1 x.
Proof.
  unfold decode_all. rewrite fold_right_app.
  destruct (fold_right _ (Ok v) ts2) as [x|e]; cbn [bind]; [reflexivity|].
  induction ts1 as [|t ts1 IH]; [reflexivity|]. cbn [fold_right]. now rewrite IH.
Qed.

Lemma build_nonempty (ts : list Translator) :
  ts <> [] -> exists T, ChainTranslatorBuilder_build ts = Ok T.
Proof.
  destruct ts as [|t1 [|t2 rest]]; [contradiction | |]; intros _; eexists; reflexivity.
Qed.

(** Adding the translators of two builders to one builder gives the chain
    of the two built translators: the same results and the same errors,
    in both directions. *)
Theorem ChainTranslatorBuilder_build_app (ts1 ts2 : list Translator)
        (T1 T2 : Translator) :
  ChainTranslatorBuilder_build (addAll ts1 ChainTranslatorBuilder_new) = Ok T1 ->
  ChainTranslatorBuilder_build (addAll ts2 ChainTranslatorBuilder_new) = Ok T2 ->
  exists T,
    ChainTranslatorBuilder_build
      (addAll ts2 (addAll ts1 ChainTranslatorBuilder_new)) = Ok T
    /\ forall v,
        encode T v = encode (ChainedTranslator T1 T2) v
        /\ decode T v = decode (ChainedTranslator T1 T2) v.
Proof.
  unfold addAll, ChainTranslatorBuilder_new. cbn [app]. intros H1 H2.
  destruct (build_nonempty (ts1 ++ ts2)) as [T HT].
  { destruct ts1; [discriminate H1 | discriminate]. }
  exists T. split; [exact HT|]. intros v.
  destruct (build_chain _ _ H1) as [E1 D1].
  destruct (build_chain _ _ H2) as [E2 D2].
  destruct (build_chain _ _ HT) as [E D].
  cbn [encode decode].
  rewrite E, D, E1, D2, encode_all_app, decode_all_app. split.
  - destruct (encode_all ts1 v); cbn [bind]; [now rewrite E2 | reflexivity].
  - destruct (decode_all ts2 v); cbn [bind]; [now rewrite D1 | reflexivity].
Qed.

Lemma ChainTranslatorBuilder_build_app_witness :
  exists T,
    ChainTranslatorBuilder_build
      (addAll [Base10ToBaseNTranslator 2 (lit "ab") 0]
              (addAll [UnicodeCharacterTranslator] ChainTranslatorBuilder_new))
    = Ok T
    /\ forall v,
        encode T v
        = encode (ChainedTranslator UnicodeCharacterTranslator
                                    (Base10ToBaseNTranslator 2 (lit "ab") 0)) v
        /\ decode T v
           = decode (ChainedTranslator UnicodeCharacterTranslator
                                       (Base10ToBaseNTranslator 2 (lit "ab") 0)) v.
Proof.
  exact (ChainTranslatorBuilder_build_app
           [UnicodeCharacterTranslator] [Base10ToBaseNTranslator 2 (lit "ab") 0]
           _ _ eq_refl eq_refl).
Defined.

(** The first stage that fails ends the chain with its error: in [encode]
    the stages after it are not run, in [decode] the stages before it. *)
Theorem ChainTranslatorBuilder_first_error (ts1 ts2 : list Translator)
        (t T : Translator) (v x : val) (e : exn) :
  ChainTranslatorBuilder_build (ts1 ++ t :: ts2) = Ok T ->
  (encode_all ts1 v = Ok x -> encode t x = Err e -> encode T v = Err e)
  /\ (decode_all ts2 v = Ok x -> decode t x = Err e -> decode T v = Err e).
Proof.
  intros HT. destruct (build_chain _ _ HT) as [E D]. split; intros H1 H2.
  - rewrite E, encode_all_app, H1. cbn [bind].
    rewrite encode_all_cons, H2. reflexivity.
  - rewrite D, decode_all_app. unfold decode_all at 1. cbn [fold_right].
    fold (decode_all ts2 v). rewrite H1. cbn [bind]. rewrite H2. cbn [bind].
    reflexivity.
Qed.

Lemma ChainTranslatorBuilder_first_error_witness :
  let T := ChainedTranslator UnicodeCharacterTranslator
                             (Base10ToBaseNTranslator 2 (lit "ab") 0) in
  encode T (VStr (lit "ab")) = Err (ValueError_expected_char (VStr (lit "ab")))
  /\ decode T (VStr (lit "x")) = Err ValueError_substring_not_found.
Proof.
  split.
  - exact (proj1 (ChainTranslatorBuilder_first_error
                    [] [Base10ToBaseNTranslator 2 (lit "ab") 0]
                    UnicodeCharacterTranslator _ (VStr (lit "ab")) _ _ eq_refl)
                 eq_refl eq_refl).
  - exact (proj2 (ChainTranslatorBuilder_first_error
                    [UnicodeCharacterTranslator] []
                    (Base10ToBaseNTranslator 2 (lit "ab") 0) _ (VStr (lit "x")) _ _
                    eq_refl)
                 eq_refl eq_refl).
Defined.

Lemma bind_Ok {A : Type} (r : result A) : (x <- r ;; Ok x) = r.
Proof. now destruct r. Qed.

Lemma encode_all_round_trip (ts : list Translator) (x y : val) :
  (forall t, In t ts -> forall a b, encode t a = Ok b -> decode t b = Ok a) ->
  encode_all ts x = Ok y -> decode_all ts y = Ok x.
Proof.
  revert x. induction ts as [|t ts IH]; intros x Hts.
  - now intros [= <-].
  - rewrite encode_all_cons. destruct (encode t x) as [m|] eqn:Em; [|discriminate].
    cbn [bind]. intros Hy. unfold decode_all. cbn [fold_right].
    fold (decode_all ts y).
    rewrite (IH m (fun t' H => Hts t' (or_intror H)) Hy). cbn [bind].
    apply (Hts t (or_introl eq_refl)). exact Em.
Qed.

(** A chain of translators each of which undoes with [decode] what its
    [encode] returned undoes what its own [encode] returned. *)
Theorem ChainTranslatorBuilder_round_trip (ts : list Translator) (T : Translator) :
  ChainTranslatorBuilder_build (addAll ts ChainTranslatorBuilder_new) = Ok T ->
  (forall t, In t ts -> forall a b, encode t a = Ok b -> decode t b = Ok a) ->
  forall x y, encode T x = Ok y -> decode T y = Ok x.
Proof.
  intros HT Hts x y. destruct (build_chain _ _ HT) as [E D].
  rewrite E, D. now apply encode_all_round_trip.
Qed.

Lemma encode_all_inverted (ts : list Translator) (v : val) :
  encode_all (rev (map InvertedTranslator ts)) v = decode_all ts v.
Proof.
  induction ts as [|t ts IH]; [reflexivity|].
  cbn [map rev]. rewrite encode_all_app, IH.
  unfold decode_all at 2. cbn [fold_right]. fold (decode_all ts v).
  destruct (decode_all ts v) as [x|]; cbn [bind]; [|reflexivity].
  rewrite encode_all_cons. cbn [encode]. apply bind_Ok.
Qed.

Lemma decode_all_inverted (ts : list Translator) (v : val) :
  decode_all (rev (map InvertedTranslator ts)) v = encode_all ts v.
Proof.
  revert v. induction ts as [|t ts IH]; intros v; [reflexivity|].
  cbn [map rev]. rewrite decode_all_app, encode_all_cons.
  unfold decode_all at 1. cbn [fold_right bind decode].
  destruct (encode t v) as [x|]; cbn [bind]; [apply IH | reflexivity].
Qed.

(** Inverting every translator of a chain and reversing their order gives
    the inverse chain: its [encode] is the [decode] of the chain and its
    [decode] the [encode]. *)
Theorem ChainTranslatorBuilder_inverted (ts : list Translator) (T : Translator) :
  ChainTranslatorBuilder_build (addAll ts ChainTranslatorBuilder_new) = Ok T ->
  exists T',
    ChainTranslatorBuilder_build
      (addAll (rev (map InvertedTranslator ts)) ChainTranslatorBuilder_new) = Ok T'
    /\ forall v,
        encode T' v = decode T v
        /\ decode T' v = encode T v
        /\ encode (InvertedTranslator T) v = encode T' v
        /\ decode (InvertedTranslator T) v = decode T' v.
Proof.
  unfold addAll, ChainTranslatorBuilder_new. cbn [app]. intros HT.
  destruct (build_nonempty (rev (map InvertedTranslator ts))) as [T' HT'].
  { destruct ts as [|t ts]; [discriminate HT|]. cbn [map rev].
    intros E. now apply app_eq_nil in E as [_ E]. }
  exists T'. split; [exact HT'|]. intros v.
  destruct (build_chain _ _ HT) as [E D].
  destruct (build_chain _ _ HT') as [E' D'].
  cbn [encode decode].
  rewrite E', D', E, D, encode_all_inverted, decode_all_inverted. auto.
Qed.

Lemma ChainTranslatorBuilder_inverted_witness :
  exists T',
    ChainTranslatorBuilder_build
      (addAll (rev (map InvertedTranslator
                        [UnicodeCharacterTranslator;
                         Base10ToBaseNTranslator 2 (lit "ab") 0]))
              ChainTranslatorBuilder_new) = Ok T'
    /\ forall v,
        let T := ChainedTranslator UnicodeCharacterTranslator
                                   (Base10ToBaseNTranslator 2 (lit "ab") 0) in
        encode T' v = decode T v
        /\ decode T' v = encode T v
        /\ encode (InvertedTranslator T) v = encode T' v
        /\ decode (InvertedTranslator T) v = decode T' v.
Proof.
  exact (ChainTranslatorBuilder_inverted
           [UnicodeCharacterTranslator; Base10ToBaseNTranslator 2 (lit "ab") 0]
           _ eq_refl).
Defined.

(** ** StringReplacementTranslator *)

Lemma dict_get_app (a b : dict) (k : str) :
  dict_get (a ++ b) k
  = match dict_get a k with
    | Some v => Some v
    | None => dict_get b k
    end.
Proof.
  induction a as [|[k' v'] a IH]; [reflexivity|]. simpl.
  now destruct (str_eqb k' k).
Qed.

Lemma str_eqb_refl (s : str) : str_eqb s s = true.
Proof. now apply str_eqb_eq. Qed.

Lemma str_eqb_neq (s t : str) : s <> t -> str_eqb s t = false.
Proof.
  intros H. destruct (str_eqb s t) eqn:E; [|reflexivity].
  apply str_eqb_eq in E. contradiction.
Qed.

Lemma dict_get_set (d : dict) (k v k' : str) :
  dict_get (dict_set d k v) k'
  = if str_eqb k k' then Some v else dict_get d k'.
Proof.
  induction d as [|[k0 v0] d IH]; [reflexivity|]. simpl.
  destruct (str_eqb k0 k) eqn:E0.
  - apply str_eqb_eq in E0. subst k0. simpl. now destruct (str_eqb k k').
  - simpl. rewrite IH. destruct (str_eqb k0 k') eqn:E1; [|reflexivity].
    apply str_eqb_eq in E1. subst k'.
    destruct (str_eqb k k0) eqn:E2; [|reflexivity].
    apply str_eqb_eq in E2. subst k0. now rewrite str_eqb_refl in E0.
Qed.

(** A dict comprehension keeps, for each key, the value of its last item. *)
Lemma dict_get_fold (items : list (str * str)) (acc : dict) (k : str) :
  dict_get (fold_left (fun d kv => dict_set d (fst kv) (snd kv)) items acc) k
  = match dict_get (rev items) k with
    | Some v => Some v
    | None => dict_get acc k
    end.
Proof.
  revert acc. induction items as [|[k1 v1] items IH]; intros acc; [reflexivity|].
  cbn [fold_left rev fst snd]. rewrite IH, dict_get_app.
  destruct (dict_get (rev items) k); [reflexivity|].
  rewrite dict_get_set. simpl. now destruct (str_eqb k1 k).
Qed.

Lemma dict_get_None (d : dict) (k : str) :
  dict_get d k = None <-> ~ In k (map fst d).
Proof.
  induction d as [|[k' v'] d IH]; simpl; [tauto|].
  destruct (str_eqb k' k) eqn:E.
  - apply str_eqb_eq in E. subst. split; [discriminate | intros H; exfalso; auto].
  - rewrite IH. split; [|tauto]. intros H [H'|H']; [|contradiction].
    subst. now rewrite str_eqb_refl in E.
Qed.

Lemma dict_get_Some (d : dict) (k v : str) :
  dict_get d k = Some v -> In (k, v) d.
Proof.
  induction d as [|[k' v'] d IH]; simpl; [discriminate|].
  destruct (str_eqb k' k) eqn:E.
  - apply str_eqb_eq in E. subst. intros [= ->]. now left.
  - intros H. right. now apply IH.
Qed.

Lemma dict_inverse_last (d1 d2 : dict) (k v : str) :
  ~ In v (map snd d2) ->
  dict_get (dict_of_items (map (fun kv => (snd kv, fst kv))
                               (d1 ++ (k, v) :: d2))) v
  = Some k.
Proof.
  intros Hv. unfold dict_of_items. rewrite dict_get_fold.
  rewrite map_app, rev_app_distr. cbn [map rev fst snd].
  rewrite <- app_assoc, dict_get_app.
  assert (E : dict_get (rev (map (fun kv : str * str => (snd kv, fst kv)) d2)) v = None).
  { apply dict_get_None. rewrite <- map_rev, map_map. cbn [fst].
    intros H. apply Hv. apply in_map_iff in H. destruct H as (x & <- & Hx).
    apply in_map. now apply in_rev. }
  rewrite E. cbn [app dict_get]. now rewrite str_eqb_refl.
Qed.

Lemma dict_inverse_None (d : dict) (v : str) :
  dict_get (dict_of_items (map (fun kv => (snd kv, fst kv)) d)) v = None
  <-> ~ In v (map snd d).
Proof.
  unfold dict_of_items. rewrite dict_get_fold. cbn [dict_get].
  assert (E : forall o : option str,
             match o with Some x => Some x | None => None end = o)
    by now intros [].
  rewrite E, dict_get_None, <- map_rev, map_map. cbn [fst].
  split; intros H H'; apply H.
  - apply in_map_iff in H'. destruct H' as (x & <- & Hx).
    apply in_map_iff. exists x. split; [reflexivity | now apply in_rev in Hx].
  - apply in_map_iff in H'. destruct H' as (x & <- & Hx).
    apply in_map. now apply in_rev.
Qed.

(** Lookups of the translator built from a dict [d]: [encode] raises the
    KeyNotFound error exactly on the strings that are not keys and
    [decode] exactly on those that are not values; [encode] returns the
    value of a key, and [decode] returns the last key that has the value,
    so of two keys with one value only the later one comes back. *)
Theorem StringReplacementTranslator_lookup (d : dict) (k v : str) :
  NoDup (map fst d) ->
  let t := StringReplacementTranslator_init d in
  (encode t (VStr k) = Err (KeyError (VStr k)) <-> ~ In k (map fst d))
  /\ (decode t (VStr v) = Err (KeyError (VStr v)) <-> ~ In v (map snd d))
  /\ kind_of (KeyError (VStr k)) = Some KeyNotFound
  /\ (In (k, v) d -> encode t (VStr k) = Ok (VStr v))
  /\ (forall d1 d2, d = d1 ++ (k, v) :: d2 -> ~ In v (map snd d2) ->
      decode t (VStr v) = Ok (VStr k)).
Proof.
  intros Hnd t. subst t. cbn [encode decode StringReplacementTranslator_init].
  unfold StringReplacementTranslator_init. cbn [encode decode dict_lookup].
  split; [|split; [|split; [reflexivity|split]]].
  - rewrite <- dict_get_None. destruct (dict_get d k); split; congruence.
  - rewrite <- dict_inverse_None.
    destruct (dict_get _ v); split; congruence.
  - intros Hin. now rewrite (dict_get_In d k v Hnd Hin).
  - intros d1 d2 -> Hv. now rewrite dict_inverse_last.
Qed.

Lemma StringReplacementTranslator_lookup_witness :
  let d := [(lit "a", lit "x"); (lit "b", lit "x")] in
  let t := StringReplacementTranslator_init d in
  encode t (VStr (lit "a")) = Ok (VStr (lit "x"))
  /\ decode t (VStr (lit "x")) = Ok (VStr (lit "b")).
Proof.
  intros d t.
  assert (Hnd : NoDup (map fst d)).
  { repeat constructor; simpl; intuition discriminate. }
  split.
  - apply (StringReplacementTranslator_lookup d (lit "a") (lit "x") Hnd).
    now left.
  - apply (StringReplacementTranslator_lookup d (lit "b") (lit "x") Hnd)
      with (d1 := [(lit "a", lit "x")]) (d2 := []); [reflexivity | intros []].
Defined.

Lemma in_split_pair (d : dict) (k v : str) :
  In (k, v) d -> exists d1 d2, d = d1 ++ (k, v) :: d2.
Proof. apply in_split. Qed.

Lemma replacement_dict_round_trip (d : dict) :
  NoDup (map fst d) -> NoDup (map snd d) ->
  let t := StringReplacementTranslator_init d in
  (forall a b, encode t a = Ok b -> decode t b = Ok a)
  /\ (forall a b, decode t a = Ok b -> encode t b = Ok a).
Proof.
  intros Hk Hv t. subst t. unfold StringReplacementTranslator_init.
  cbn [encode decode]. split; intros a b H.
  - destruct a as [n|k|l|l e]; cbn [dict_lookup] in H; try discriminate.
    destruct (dict_get d k) as [v|] eqn:E; [|discriminate]. injection H as <-.
    apply dict_get_Some in E. destruct (in_split_pair d k v E) as (d1 & d2 & ->).
    cbn [dict_lookup]. rewrite dict_inverse_last; [reflexivity|].
    rewrite map_app in Hv. cbn [map snd] in Hv.
    apply NoDup_remove_2 in Hv. intros Hin. apply Hv, in_or_app. now right.
  - destruct a as [n|v|l|l e]; cbn [dict_lookup] in H; try discriminate.
    destruct (dict_get _ v) as [k|] eqn:E; [|discriminate]. injection H as <-.
    apply dict_get_Some in E. unfold dict_of_items in E.
    rewrite dict_of_items_fresh in E.
    + cbn [app] in E. apply in_map_iff in E. destruct E as ([k' v'] & [= <- <-] & Hin).
      cbn [dict_lookup]. now rewrite (dict_get_In d k' v' Hk Hin).
    + cbn [app]. rewrite map_map. cbn [fst]. exact Hv.
Qed.

(** When no two keys of the dict have the same value, [decode] undoes
    [encode] and [encode] undoes [decode], on every input on which the
    first of the two succeeds. *)
Theorem StringReplacementTranslator_round_trip (d : dict) :
  NoDup (map fst d) -> NoDup (map snd d) ->
  let t := StringReplacementTranslator_init d in
  (forall a b, encode t a = Ok b -> decode t b = Ok a)
  /\ (forall a b, decode t a = Ok b -> encode t b = Ok a).
Proof. exact (replacement_dict_round_trip d). Qed.

Lemma StringReplacementTranslator_round_trip_witness :
  let t := StringReplacementTranslator_init
             [(lit "0", lit "A"); (lit "1", lit "B")] in
  (forall a b, encode t a = Ok b -> decode t b = Ok a)
  /\ (forall a b, decode t a = Ok b -> encode t b = Ok a).
Proof.
  apply (StringReplacementTranslator_round_trip
           [(lit "0", lit "A"); (lit "1", lit "B")]);
    repeat constructor; simpl; intuition discriminate.
Defined.

Lemma ChainTranslatorBuilder_round_trip_witness :
  let t1 := StringReplacementTranslator_init [(lit "a", lit "x")] in
  let t2 := InvertedTranslator
              (StringReplacementTranslator_init [(lit "y", lit "x")]) in
  encode (ChainedTranslator t1 t2) (VStr (lit "a")) = Ok (VStr (lit "y")) /\
  decode (ChainedTranslator t1 t2) (VStr (lit "y")) = Ok (VStr (lit "a")).
Proof.
  intros t1 t2. split; [reflexivity|].
  apply (ChainTranslatorBuilder_round_trip [t1; t2] _ eq_refl);
    [|reflexivity].
  intros t [<- | [<- | []]] a b.
  - apply (replacement_dict_round_trip [(lit "a", lit "x")]);
      repeat constructor; simpl; intuition.
  - cbn [encode decode].
    apply (replacement_dict_round_trip [(lit "y", lit "x")]);
      repeat constructor; simpl; intuition.
Defined.

(** ** EmbeddedMessageTranslator: candidates and frames *)

Lemma slice_to_firstn (s : str) (k : nat) : slice_to s (Z.of_nat k) = firstn k s.
Proof.
  unfold slice_to, slice, clamp. pose proof (len_nonneg s) as Hs.
  destruct (Z.ltb_spec 0 0); [lia|].
  destruct (Z.ltb_spec (Z.of_nat k) 0); [lia|].
  rewrite !Z.max_r by lia. rewrite Z.min_r by lia. cbn [Z.to_nat skipn].
  destruct (Z.le_gt_cases (Z.of_nat k) (len s)).
  - rewrite Z.min_r by lia. now rewrite Nat2Z.id.
  - rewrite Z.min_l by lia. unfold len in *. rewrite Nat2Z.id.
    rewrite firstn_all. symmetry. apply firstn_all2. lia.
Qed.

Lemma slice_from_last (s : str) (k : nat) :
  (0 < k)%nat -> slice_from s (- Z.of_nat k) = skipn (length s - k) s.
Proof.
  intros Hk. unfold slice_from, slice, clamp. pose proof (len_nonneg s) as Hs.
  destruct (Z.ltb_spec (- Z.of_nat k) 0); [|lia].
  destruct (Z.ltb_spec (len s) 0); [lia|].
  rewrite Z.min_id, (Z.max_r 0 (len s)) by lia.
  rewrite (Z.min_r (len s)) by lia.
  unfold len in *. rewrite Nat2Z.id, firstn_all. f_equal. lia.
Qed.

Lemma app_eq_app_le (a x b y : str) :
  a ++ x = b ++ y -> (length a <= length b)%nat ->
  exists p, b = a ++ p /\ x = p ++ y.
Proof.
  revert b. induction a as [|c a IH]; intros b E Hl.
  - exists b. auto.
  - destruct b as [|d b]; [simpl in Hl; lia|].
    injection E as -> E. destruct (IH b E) as (p & -> & ->); [simpl in Hl; lia|].
    now exists p.
Qed.

Lemma endswith_iff (s p : str) : endswith s p = true <-> exists t, s = t ++ p.
Proof.
  unfold endswith. rewrite startswith_iff. split.
  - intros [t E]. exists (rev t). apply (f_equal (@rev _)) in E.
    now rewrite rev_involutive, rev_app_distr, rev_involutive in E.
  - intros [t ->]. exists (rev t). apply rev_app_distr.
Qed.

(** [decodeCandidate] raises the MalformedFrame error, with the first ten
    characters of the candidate, when the candidate does not begin with the
    start marker, and with its last ten when it begins with it but does
    not end with the end marker.  Otherwise it succeeds: on a candidate as
    long as the two markers together the result is what stands between
    them, and on a shorter one, in which the markers overlap, it is the
    empty string. *)
Theorem decodeCandidate_outcomes (start_seq end_seq s : str) :
  (startswith s start_seq = false ->
   decodeCandidate start_seq end_seq s = Err (ValueError_bad_start (firstn 10 s)))
  /\ (startswith s start_seq = true -> endswith s end_seq = false ->
      decodeCandidate start_seq end_seq s
      = Err (ValueError_bad_end (skipn (length s - 10) s)))
  /\ (startswith s start_seq = true -> endswith s end_seq = true ->
      len start_seq + len end_seq <= len s ->
      exists p, decodeCandidate start_seq end_seq s = Ok p
                /\ s = start_seq ++ p ++ end_seq)
  /\ (startswith s start_seq = true -> endswith s end_seq = true ->
      len s < len start_seq + len end_seq ->
      decodeCandidate start_seq end_seq s = Ok [])
  /\ (forall e, decodeCandidate start_seq end_seq s = Err e ->
      kind_of e = Some MalformedFrame).
Proof.
  split; [|split; [|split; [|split]]].
  - intros H. unfold decodeCandidate. rewrite H. cbn [negb].
    change (slice_to s 10) with (slice_to s (Z.of_nat 10)).
    now rewrite slice_to_firstn.
  - intros H1 H2. unfold decodeCandidate. rewrite H1, H2. cbn [negb].
    change (slice_from s (-10)) with (slice_from s (- Z.of_nat 10)).
    now rewrite slice_from_last by lia.
  - intros H1 H2 Hl. apply startswith_iff in H1. destruct H1 as [t ->].
    apply endswith_iff in H2. destruct H2 as [u E].
    apply app_eq_app_le in E.
    + destruct E as (p & -> & ->). exists p.
      split; [apply decodeCandidate_framed | reflexivity].
    + apply (f_equal (@length _)) in E. rewrite !length_app in E.
      rewrite len_app in Hl. unfold len in Hl. lia.
  - intros H1 H2 Hl. unfold decodeCandidate. rewrite H1, H2. cbn [negb].
    f_equal. apply endswith_iff in H2. destruct H2 as [u E].
    assert (Hu : len s = len u + len end_seq) by (rewrite E; apply len_app).
    pose proof (len_nonneg u). pose proof (len_nonneg start_seq).
    pose proof (len_nonneg end_seq).
    unfold slice. apply skipn_all2. rewrite length_firstn.
    unfold clamp.
    destruct (Z.ltb_spec (len s - len end_seq) 0); [lia|].
    destruct (Z.ltb_spec (len start_seq) 0); [lia|]. lia.
  - intros e. unfold decodeCandidate.
    destruct (startswith s start_seq); cbn [negb]; [|now intros [= <-]].
    destruct (endswith s end_seq); cbn [negb]; [discriminate | now intros [= <-]].
Qed.

Lemma decodeCandidate_outcomes_witness :
  decodeCandidate (lit "<<") (lit ">>") (lit "abcdefghijklmnop>>")
  = Err (ValueError_bad_start (lit "abcdefghij"))
  /\ decodeCandidate (lit "<<") (lit ">>") (lit "<<abcdefghijklmnop")
     = Err (ValueError_bad_end (lit "ghijklmnop"))
  /\ (exists p, decodeCandidate (lit "<<") (lit ">>") (lit "<<a>>") = Ok p
                /\ lit "<<a>>" = lit "<<" ++ p ++ lit ">>")
  /\ decodeCandidate (lit "ab") (lit "bc") (lit "abc") = Ok [].
Proof.
  split; [|split; [|split]].
  - exact (proj1 (decodeCandidate_outcomes
                    (lit "<<") (lit ">>") (lit "abcdefghijklmnop>>")) eq_refl).
  - exact (proj1 (proj2 (decodeCandidate_outcomes
                           (lit "<<") (lit ">>") (lit "<<abcdefghijklmnop")))
                 eq_refl eq_refl).
  - apply (decodeCandidate_outcomes (lit "<<") (lit ">>") (lit "<<a>>"));
      [reflexivity | reflexivity | unfold len; simpl; lia].
  - apply (decodeCandidate_outcomes (lit "ab") (lit "bc") (lit "abc"));
      [reflexivity | reflexivity | unfold len; simpl; lia].
Defined.

(** For markers without special characters, [decode] after [encode] gives
    the payload back exactly when the payload holds no newline, whether or
    not it holds the markers themselves; and on any carrier [decode]
    either returns a text without a newline or raises the NotFound error,
    never the MalformedFrame error of [decodeCandidate]. *)
Theorem EmbeddedMessageTranslator_round_trip (start_seq end_seq p carrier : str) :
  plain start_seq = true -> plain end_seq = true ->
  exists t,
    EmbeddedMessageTranslator_init start_seq end_seq = Ok t
    /\ encode t (VStr p) = Ok (VStr (start_seq ++ p ++ end_seq))
    /\ (decode t (VStr (start_seq ++ p ++ end_seq)) = Ok (VStr p)
        <-> ~ In newline p)
    /\ ((exists q, decode t (VStr carrier) = Ok (VStr q) /\ ~ In newline q)
        \/ decode t (VStr carrier) = Err ValueError_no_message).
Proof.
  intros Hs He. eexists.
  split; [now apply EmbeddedMessageTranslator_init_plain|].
  split; [reflexivity|]. split.
  - split; [|apply framing_decode_framed].
    intros H. apply framing_decode in H. destruct H as (pre & (post & _ & Hnl) & _).
    exact Hnl.
  - cbn [decode]. unfold EmbeddedMessageTranslator_decode.
    destruct (first_match _ carrier) as [cand|] eqn:Ef; [|now right].
    apply first_match_Some in Ef.
    destruct Ef as (pre & mid & (post & _ & Hnl) & -> & _).
    left. exists mid. rewrite decodeCandidate_framed. auto.
Qed.

Lemma EmbeddedMessageTranslator_round_trip_witness :
  exists t,
    EmbeddedMessageTranslator_init (lit "<<") (lit ">>") = Ok t
    /\ encode t (VStr (lit "a>>b<<c"))
       = Ok (VStr (lit "<<" ++ lit "a>>b<<c" ++ lit ">>"))
    /\ (decode t (VStr (lit "<<" ++ lit "a>>b<<c" ++ lit ">>"))
        = Ok (VStr (lit "a>>b<<c"))
        <-> ~ In newline (lit "a>>b<<c"))
    /\ ((exists q, decode t (VStr (lit "no frame here")) = Ok (VStr q)
                   /\ ~ In newline q)
        \/ decode t (VStr (lit "no frame here")) = Err ValueError_no_message).
Proof.
  exact (EmbeddedMessageTranslator_round_trip
           (lit "<<") (lit ">>") (lit "a>>b<<c") (lit "no frame here")
           eq_refl eq_refl).
Defined.

(** ** The separator stage *)

(** The stage that joins the groups with the separator and splits them
    again: splitting raises on the empty separator; groups none of which
    holds the first character of the separator come back from the split
    of their join; an empty list of groups does not, it comes back as one
    empty group. *)
Theorem separator_stage_round_trip (sep : str) (groups : list str) :
  let t := FunctionTranslator (py_join sep) (py_split sep) in
  (forall s, sep = [] -> decode t (VStr s) = Err ValueError_empty_separator)
  /\ (sep <> [] ->
      encode t (VList []) = Ok (VStr [])
      /\ decode t (VStr []) = Ok (VList [VStr []]))
  /\ (forall c0 sep', sep = c0 :: sep' -> groups <> [] ->
      Forall (fun g => ~ In c0 g) groups ->
      encode t (VList (map VStr groups)) = Ok (VStr (intercalate sep groups))
      /\ decode t (VStr (intercalate sep groups)) = Ok (VList (map VStr groups))).
Proof.
  intros t. subst t. cbn [encode decode]. split; [|split].
  - intros s ->. reflexivity.
  - intros Hne. destruct sep; [contradiction|]. split; reflexivity.
  - intros c0 sep' E Hne Hg. split.
    + unfold py_join, consume. cbn [iter bind fst snd].
      now rewrite (strs_of_map (fun g => g)), map_id.
    + unfold py_split, split. rewrite E at 1. cbn [bind].
      now rewrite (split_go_intercalate sep c0 sep' groups E Hne Hg).
Qed.

Lemma separator_stage_round_trip_witness :
  let t := FunctionTranslator (py_join (lit "-")) (py_split (lit "-")) in
  (encode t (VList []) = Ok (VStr []) /\ decode t (VStr []) = Ok (VList [VStr []]))
  /\ encode t (VList (map VStr [lit "BA"; lit "B"])) = Ok (VStr (lit "BA-B"))
  /\ decode t (VStr (lit "BA-B")) = Ok (VList (map VStr [lit "BA"; lit "B"])).
Proof.
  intros t.
  destruct (separator_stage_round_trip (lit "-") [lit "BA"; lit "B"])
    as (_ & H2 & H3).
  split; [apply H2; discriminate|].
  apply (H3 45 []); [reflexivity | discriminate|].
  repeat (apply Forall_cons; [apply memb_false; reflexivity|]). apply Forall_nil.
Defined.

(** ** CharsetTranslatorBuilder: the digit alphabet and the mapping *)

Lemma extend_digits_Ok (digits : str) (lo : Z) (n : nat) :
  0 <= lo -> lo + Z.of_nat n <= 1114112 ->
  extend_digits digits lo n
  = Ok (digits ++ map (fun i => lo + Z.of_nat i) (seq 0 n)).
Proof.
  revert digits lo. induction n as [|n IH]; intros digits lo Hlo Hhi.
  - simpl. now rewrite app_nil_r.
  - cbn [extend_digits]. unfold chr.
    replace (0 <=? lo) with true by (symmetry; apply Z.leb_le; lia).
    replace (lo <? 1114112) with true by (symmetry; apply Z.ltb_lt; lia).
    cbn [andb bind]. rewrite IH by lia. f_equal.
    rewrite <- app_assoc. f_equal. cbn [seq map app]. f_equal; [f_equal; lia|].
    rewrite <- seq_shift, map_map. apply map_ext. intros i. lia.
Qed.

Lemma NoDup_app_common (a b : str) (x : char) :
  In x a -> In x b -> ~ NoDup (a ++ b).
Proof.
  intros Ha Hb Hnd. induction a as [|y a IH]; [contradiction|].
  cbn [app] in Hnd. inversion Hnd as [|? ? Hnotin Hnd']; subst.
  destruct Ha as [-> | Ha]; [|now apply IH].
  apply Hnotin, in_or_app. now right.
Qed.

Lemma canonical_digits_Ok (charset : str) :
  len charset <= 1114112 ->
  canonical_digits charset
  = Ok (digits_and_letters
          ++ map (fun i => 62 + Z.of_nat i) (seq 0 (Z.to_nat (len charset - 62)))).
Proof.
  intros Hlen. pose proof (len_nonneg charset) as Hc.
  unfold canonical_digits. change (len digits_and_letters) with 62.
  apply extend_digits_Ok; lia.
Qed.

(** For a target alphabet of up to 1114112 symbols the digit alphabet is
    [0-9a-zA-Z] followed by the characters of code points 62, 63, ... up
    to the length of the target alphabet: it has as many symbols as the
    longer of the two, and its symbols are unique exactly when the target
    alphabet has at most 65 symbols. *)
Theorem canonical_digits_shape (charset : str) :
  len charset <= 1114112 ->
  let ext := map (fun i => 62 + Z.of_nat i)
                 (seq 0 (Z.to_nat (len charset - 62))) in
  canonical_digits charset = Ok (digits_and_letters ++ ext)
  /\ len (digits_and_letters ++ ext) = Z.max 62 (len charset)
  /\ (NoDup (digits_and_letters ++ ext) <-> len charset <= 65).
Proof.
  intros Hlen ext. subst ext. pose proof (len_nonneg charset) as Hc.
  change (len digits_and_letters) with 62 in *.
  split; [|split].
  - now apply canonical_digits_Ok.
  - rewrite len_app. change (len digits_and_letters) with 62.
    unfold len. rewrite length_map, length_seq. lia.
  - split.
    + intros Hnd. destruct (Z.le_gt_cases (len charset) 65) as [|Hgt]; [assumption|].
      exfalso. apply (NoDup_app_common _ _ 65) in Hnd; [exact Hnd | |].
      * apply memb_In. reflexivity.
      * apply in_map_iff. exists 3%nat. split; [reflexivity|].
        apply in_seq. lia.
    + intros Hle.
      assert (Hk : (Z.to_nat (len charset - 62) <= 3)%nat) by lia.
      destruct (Z.to_nat (len charset - 62)) as [|[|[|[|k]]]]; [| | | |lia];
        apply nodupb_NoDup; reflexivity.
Qed.

Lemma canonical_digits_shape_witness :
  let ext := map (fun i => 62 + Z.of_nat i)
                 (seq 0 (Z.to_nat (len (lit "AB") - 62))) in
  canonical_digits (lit "AB") = Ok (digits_and_letters ++ ext)
  /\ len (digits_and_letters ++ ext) = Z.max 62 (len (lit "AB"))
  /\ (NoDup (digits_and_letters ++ ext) <-> len (lit "AB") <= 65).
Proof.
  apply (canonical_digits_shape (lit "AB")). unfold len. simpl. lia.
Defined.

Lemma nth_combine_In (l l' : str) (i : nat) :
  (i < length l')%nat -> (length l' <= length l)%nat ->
  In (nth i l 0, nth i l' 0) (combine l l').
Proof.
  revert l l'. induction i as [|i IH]; intros [|c l] [|d l'] Hi Hl;
    simpl in *; try lia; [now left|].
  right. apply IH; lia.
Qed.

(** The bijection law: for a target alphabet of at most 65 unique symbols,
    the translator built from the replacement dict sends the digit at
    position [i] to the target symbol at position [i], and back. *)
Theorem replacement_bijection (charset digits : str) (i : nat) :
  NoDup charset -> len charset <= 65 ->
  canonical_digits charset = Ok digits ->
  (i < length charset)%nat ->
  let t := StringReplacementTranslator_init (replacement digits charset) in
  encode t (VStr [nth i digits 0]) = Ok (VStr [nth i charset 0])
  /\ decode t (VStr [nth i charset 0]) = Ok (VStr [nth i digits 0]).
Proof.
  intros Hcs Hlen Hd Hi t. subst t.
  destruct (canonical_digits_small charset Hlen) as (digits' & Hd' & Hdu & _).
  rewrite Hd in Hd'. injection Hd' as <-.
  apply canonical_digits_length in Hd. destruct Hd as [Hle _].
  assert (Hfit : (length charset <= length digits)%nat) by (unfold len in Hle; lia).
  rewrite (replacement_inverse digits charset Hdu Hcs Hfit).
  cbn [encode decode dict_lookup].
  pose proof (nth_combine_In digits charset i Hi Hfit) as Hin.
  assert (Hitem : In ([nth i digits 0], [nth i charset 0])
                     (replacement_items digits charset)).
  { unfold replacement_items. apply in_map_iff.
    now exists (nth i digits 0, nth i charset 0). }
  assert (Hkeys : NoDup (map fst (replacement_items digits charset))).
  { rewrite (items_keys digits charset Hfit).
    now apply NoDup_singletons, NoDup_firstn. }
  assert (Hvals : NoDup (map fst (map (fun kv : str * str => (snd kv, fst kv))
                                      (replacement_items digits charset)))).
  { rewrite map_map. cbn [fst].
    change (map (fun x : str * str => snd x) (replacement_items digits charset))
      with (map snd (replacement_items digits charset)).
    rewrite (items_values digits charset Hfit). now apply NoDup_singletons. }
  split.
  - now rewrite (dict_get_In _ _ _ Hkeys Hitem).
  - rewrite (dict_get_In _ [nth i charset 0] [nth i digits 0] Hvals);
      [reflexivity|].
    apply in_map_iff. now exists ([nth i digits 0], [nth i charset 0]).
Qed.

Lemma replacement_bijection_witness :
  let t := StringReplacementTranslator_init
             (replacement digits_and_letters (lit "AB")) in
  encode t (VStr (lit "1")) = Ok (VStr (lit "B"))
  /\ decode t (VStr (lit "B")) = Ok (VStr (lit "1")).
Proof.
  apply (replacement_bijection (lit "AB") digits_and_letters 1).
  - apply nodupb_NoDup. reflexivity.
  - unfold len. simpl. lia.
  - reflexivity.
  - simpl. lia.
Defined.

(** ** CharsetTranslatorBuilder: what [build] raises *)

Lemma parse_Err (p : str) (e : exn) : parse p = Err e -> e = re_error.
Proof.
  remember (length p) as n eqn:Hn. revert p Hn e.
  induction n as [n IH] using lt_wf_ind. intros p Hn e.
  destruct p as [|c p']; [discriminate|]. cbn [parse].
  destruct (c =? star_char); [now intros [= <-]|].
  destruct p' as [|s p'']; [discriminate|].
  destruct (s =? star_char).
  - destruct (parse p'') as [r|e'] eqn:E; cbn [bind]; [discriminate|].
    intros [= <-]. apply (IH (length p'')) with (p := p''); subst; simpl; auto; lia.
  - destruct (parse (s :: p'')) as [r|e'] eqn:E; cbn [bind]; [discriminate|].
    intros [= <-]. apply (IH (length (s :: p''))) with (p := s :: p'');
      subst; simpl; auto; lia.
Qed.

Lemma re_compile_Err (p : str) (e : exn) :
  re_compile p = Err e -> e = re_error \/ e = OutsideModel.
Proof.
  unfold re_compile. destruct (existsb unmodelled_special p).
  - intros [= <-]. now right.
  - intros H. left. now apply parse_Err in H.
Qed.

(** With a target alphabet of up to 1114112 symbols, [build] raises the
    [ValueError] of [Base10ToBaseNTranslator.__init__] on fewer than two
    symbols, before the markers are looked at; with two or more and
    markers without special characters it succeeds.  The only errors it
    can raise are that one and those of the pattern: the digit alphabet is
    never too short for the base. *)
Theorem CharsetTranslatorBuilder_build_outcome (b : CharsetTranslatorBuilder) :
  len (charset b) <= 1114112 ->
  (len (charset b) < 2 ->
   CharsetTranslatorBuilder_build b = Err (ValueError_base (len (charset b))))
  /\ (2 <= len (charset b) ->
      plain (start_seq b) = true -> plain (end_seq b) = true ->
      exists T, CharsetTranslatorBuilder_build b = Ok T)
  /\ (forall e, CharsetTranslatorBuilder_build b = Err e ->
      e = ValueError_base (len (charset b)) \/ e = re_error \/ e = OutsideModel).
Proof.
  intros Hlen.
  pose proof (canonical_digits_Ok (charset b) Hlen) as Hd.
  split; [|split].
  - intros Hlt. unfold CharsetTranslatorBuilder_build, pipe. rewrite Hd.
    cbn [bind]. unfold Base10ToBaseNTranslator_init.
    destruct (Z.ltb_spec (len (charset b)) 2); [reflexivity | lia].
  - intros Hge Hs He.
    rewrite (build_stages b _ _ Hd Hge (re_compile_plain _ _ Hs He)).
    eexists. reflexivity.
  - intros e. unfold CharsetTranslatorBuilder_build, pipe. rewrite Hd.
    cbn [bind]. unfold Base10ToBaseNTranslator_init.
    destruct (Z.ltb_spec (len (charset b)) 2); [intros [= <-]; now left|].
    apply canonical_digits_length in Hd. destruct Hd as [Hle _].
    match goal with
    | |- context [len ?d <? len (charset b)] =>
      destruct (Z.ltb_spec (len d) (len (charset b))); [lia|]
    end.
    cbn [bind]. unfold EmbeddedMessageTranslator_init.
    destruct (re_compile _) as [pattern|e'] eqn:E; cbn [bind]; [discriminate|].
    intros [= <-]. right. now apply re_compile_Err in E.
Qed.

Lemma CharsetTranslatorBuilder_build_outcome_witness :
  CharsetTranslatorBuilder_build
    {| charset := lit "A"; separator := lit "-";
       start_seq := lit "<<"; end_seq := lit ">>" |}
  = Err (ValueError_base 1)
  /\ exists T, CharsetTranslatorBuilder_build scenario = Ok T.
Proof.
  split.
  - apply (CharsetTranslatorBuilder_build_outcome
             {| charset := lit "A"; separator := lit "-";
                start_seq := lit "<<"; end_seq := lit ">>" |});
      unfold len; simpl; lia.
  - apply (CharsetTranslatorBuilder_build_outcome scenario);
      try reflexivity; unfold len; simpl; lia.
Defined.

(** ** The pipeline: what [encode] produces *)

Lemma numeral_length (base : Z) (digits : str) (c : Z) :
  2 <= base <= len digits -> 0 <= c ->
  (c = 0 /\ len (numeral base digits c) = 1)
  \/ (0 < c /\ base ^ (len (numeral base digits c) - 1) <= c
                < base ^ len (numeral base digits c)).
Proof.
  intros Hb Hc. unfold numeral. destruct (Z.eqb_spec c 0) as [->|Hnz].
  - left. split; reflexivity.
  - right. split; [lia|]. rewrite len_rev, len_map_digits.
    apply (digit_values_length base digits Hb).
    pose proof (log2_fuel c). lia.
Qed.

Lemma Forall2_map_right {A B : Type} (P : A -> B -> Prop) (f : A -> B) (l : list A) :
  (forall a, In a l -> P a (f a)) -> Forall2 P l (map f l).
Proof.
  induction l as [|a l IH]; intros H; constructor.
  - apply H. now left.
  - apply IH. intros a' Ha'. apply H. now right.
Qed.

(** For a target alphabet of 2 to 65 unique symbols and markers without
    special characters, [encode] returns, between the markers, one group
    per character of the message, joined by the separator: each group is
    made of target symbols only and has as many of them as the code point
    of its character has digits in the base given by the size of the
    alphabet (one for the code point 0). *)
Theorem CharsetTranslator_encode_shape (b : CharsetTranslatorBuilder) (message : str) :
  NoDup (charset b) ->
  2 <= len (charset b) <= 65 ->
  plain (start_seq b) = true ->
  plain (end_seq b) = true ->
  Forall (fun c => 0 <= c) message ->
  exists T groups,
    CharsetTranslatorBuilder_build b = Ok T
    /\ encode T (VStr message)
       = Ok (VStr (start_seq b ++ intercalate (separator b) groups ++ end_seq b))
    /\ Forall2 (fun c g =>
                  Forall (fun y => In y (charset b)) g
                  /\ ((c = 0 /\ len g = 1)
                      \/ (0 < c /\ len (charset b) ^ (len g - 1) <= c
                                   < len (charset b) ^ len g)))
               message groups.
Proof.
  intros Hcs Hsize Hps Hpe Hm.
  destruct (canonical_digits_small (charset b)) as (digits & Hd & Hdu & Hdm & Hz & _);
    [lia|].
  pose proof (canonical_digits_length _ _ Hd) as [Hlen _].
  pose proof (build_stages b digits _ Hd (proj1 Hsize)
                (re_compile_plain _ _ Hps Hpe)) as Hb.
  set (ts := stages _ _ _ _ _ _) in Hb.
  destruct (ChainTranslatorBuilder_build ts) as [T|] eqn:ET; [|discriminate ET].
  destruct (build_chain ts T ET) as [Henc _].
  assert (Hcd : 2 <= len (charset b) <= len digits) by lia.
  exists T, (map (group digits (charset b)) message).
  split; [exact Hb|]. split.
  - rewrite Henc. unfold ts. now apply stages_encode.
  - apply Forall2_map_right. intros c Hc. rewrite Forall_forall in Hm.
    specialize (Hm c Hc). split.
    + apply Forall_forall. intros y Hy.
      now apply (group_in_cs digits (charset b) Hdu Hcs Hcd Hz c).
    + assert (Hl : len (group digits (charset b) c)
                   = len (numeral (len (charset b)) digits c))
        by (unfold group, len; now rewrite length_map).
      rewrite Hl. now apply numeral_length.
Qed.

Lemma CharsetTranslator_encode_shape_witness :
  exists T groups,
    CharsetTranslatorBuilder_build scenario = Ok T
    /\ encode T (VStr (lit "ab"))
       = Ok (VStr (start_seq scenario ++ intercalate (separator scenario) groups
                     ++ end_seq scenario))
    /\ Forall2 (fun c g =>
                  Forall (fun y => In y (charset scenario)) g
                  /\ ((c = 0 /\ len g = 1)
                      \/ (0 < c /\ len (charset scenario) ^ (len g - 1) <= c
                                   < len (charset scenario) ^ len g)))
               (lit "ab") groups.
Proof.
  apply (CharsetTranslator_encode_shape scenario (lit "ab")).
  - apply nodupb_NoDup. reflexivity.
  - unfold len. simpl. lia.
  - reflexivity.
  - reflexivity.
  - repeat (apply Forall_cons; [cbv; discriminate|]). apply Forall_nil.
Defined.

(** ** The pipeline: when [decode] raises *)

Lemma stages_decode_groups (digits cs sep start_seq end_seq : str)
      (pattern : regex) (carrier p : str) (groups : list str) :
  decode (EmbeddedMessageTranslator start_seq end_seq pattern) (VStr carrier)
  = Ok (VStr p) ->
  split p sep = Ok groups ->
  decode_all (stages digits cs sep start_seq end_seq pattern) (VStr carrier)
  = Ok (gen_map (decode_group digits cs) (map VStr groups) None).
Proof.
  intros Hdec Hsplit.
  unfold stages, decode_all, StringReplacementTranslator_init.
  cbn [fold_right bind]. rewrite Hdec. cbn [bind decode].
  unfold py_split. rewrite Hsplit. cbn [bind].
  rewrite translate_items_VList. cbn [bind].
  do 4 (rewrite translate_items_gen_map; cbn [bind]).
  reflexivity.
Qed.

Lemma build_stages_digits (b : CharsetTranslatorBuilder) (T : Translator) :
  CharsetTranslatorBuilder_build b = Ok T ->
  exists digits pattern,
    canonical_digits (charset b) = Ok digits
    /\ 2 <= len (charset b) <= len digits
    /\ re_compile (start_seq b ++ lit ".*" ++ end_seq b) = Ok pattern
    /\ ChainTranslatorBuilder_build
         (stages digits (charset b) (separator b) (start_seq b) (end_seq b) pattern)
       = Ok T.
Proof.
  unfold CharsetTranslatorBuilder_build, pipe.
  destruct (canonical_digits (charset b)) as [digits|] eqn:Hd; [|discriminate].
  cbn [bind]. unfold Base10ToBaseNTranslator_init.
  destruct (Z.ltb_spec (len (charset b)) 2); [discriminate|].
  destruct (Z.ltb_spec (len digits) (len (charset b))); [discriminate|].
  cbn [bind]. unfold EmbeddedMessageTranslator_init.
  destruct (re_compile _) as [pattern|]; [|discriminate].
  cbn [bind]. intros HT. exists digits, pattern.
  repeat split; auto; lia.
Qed.

(** The call of the pipeline's [decode] itself raises only what the
    framing stage raises and the [ValueError] of a split on an empty
    separator; on every other carrier it returns a generator, and what
    the remaining stages raise is raised when the generator is consumed. *)
Theorem CharsetTranslator_decode_eager (b : CharsetTranslatorBuilder)
        (T framing : Translator) (carrier : str) :
  CharsetTranslatorBuilder_build b = Ok T ->
  EmbeddedMessageTranslator_init (start_seq b) (end_seq b) = Ok framing ->
  (forall e, decode framing (VStr carrier) = Err e ->
             decode T (VStr carrier) = Err e)
  /\ (forall p, decode framing (VStr carrier) = Ok (VStr p) ->
                separator b = [] ->
                decode T (VStr carrier) = Err ValueError_empty_separator)
  /\ (forall p, decode framing (VStr carrier) = Ok (VStr p) ->
                separator b <> [] ->
                exists ys e', decode T (VStr carrier) = Ok (VGen ys e')).
Proof.
  intros HT Hf.
  apply build_stages_digits in HT.
  destruct HT as (digits & pattern & _ & _ & Hre & HT).
  unfold EmbeddedMessageTranslator_init in Hf. rewrite Hre in Hf.
  injection Hf as <-.
  destruct (build_chain _ T HT) as [_ HD].
  split; [|split].
  - intros e He. rewrite HD. unfold stages, decode_all.
    cbn [fold_right bind]. rewrite He. reflexivity.
  - intros p Hp Hs. rewrite HD. unfold stages, decode_all.
    cbn [fold_right bind]. rewrite Hp. cbn [bind decode].
    unfold py_split, split. rewrite Hs. reflexivity.
  - intros p Hp Hs. rewrite HD.
    destruct (separator b) as [|c0 sep'] eqn:E; [contradiction|].
    rewrite (stages_decode_groups digits (charset b) (c0 :: sep') _ _ pattern
               carrier p (split_go (c0 :: sep') 0 [] p) Hp eq_refl).
    unfold gen_map. destruct (gen_items _ _ _) as [ys e']. now exists ys, e'.
Qed.

Lemma CharsetTranslator_decode_eager_witness :
  exists T,
    CharsetTranslatorBuilder_build scenario = Ok T
    /\ decode T (VStr (lit "no frame")) = Err ValueError_no_message
    /\ exists ys e', decode T (VStr (lit "x<<?>>")) = Ok (VGen ys e').
Proof.
  eexists. split; [reflexivity|].
  split.
  - exact (proj1 (CharsetTranslator_decode_eager
                    scenario _ _ (lit "no frame") eq_refl eq_refl)
                 _ eq_refl).
  - apply (CharsetTranslator_decode_eager scenario _ _ (lit "x<<?>>")
                                          eq_refl eq_refl)
      with (p := lit "?"); [reflexivity | discriminate].
Defined.

Lemma gen_map_prefix_fails {A : Type} (f : val -> result val) (F : A -> val)
      (l1 : list A) (x : A) (l2 : list A) (e0 : option exn) (e : exn) :
  (forall a, In a l1 -> exists y, f (F a) = Ok y) ->
  f (F x) = Err e ->
  exists ys, gen_map f (map F (l1 ++ x :: l2)) e0 = VGen ys (Some e).
Proof.
  unfold gen_map. induction l1 as [|a l1 IH]; intros H1 Hx.
  - cbn [app map gen_items]. rewrite Hx. now exists [].
  - cbn [app map gen_items].
    destruct (H1 a (or_introl eq_refl)) as [y Hy]. rewrite Hy.
    destruct (IH (fun a' Ha' => H1 a' (or_intror Ha')) Hx) as [ys E].
    destruct (gen_items f (map F (l1 ++ x :: l2)) e0) as [ys0 e1].
    injection E as -> ->. now exists (y :: ys).
Qed.

Lemma decode_group_foreign (digits cs g1 g2 : str) (y : char) :
  NoDup digits -> NoDup cs -> (length cs <= length digits)%nat ->
  Forall (fun c => In c cs) g1 -> ~ In y cs ->
  decode_group digits cs (VStr (g1 ++ y :: g2)) = Err (KeyError (VStr [y])).
Proof.
  intros Hdu Hcs Hfit Hg1 Hy.
  pose proof (replacement_inverse digits cs Hdu Hcs Hfit) as Hinv.
  unfold StringReplacementTranslator_init in Hinv. injection Hinv as _ Hinv.
  unfold decode_group, py_list, consume. cbn [iter bind fst snd].
  rewrite translate_items_VList. cbn [bind]. rewrite Hinv.
  set (inv := map (fun kv : str * str => (snd kv, fst kv)) (replacement_items digits cs)).
  assert (Hkeys : map fst inv = map (fun c => [c]) cs).
  { unfold inv. rewrite map_map. cbn [fst].
    change (map (fun x : str * str => snd x) (replacement_items digits cs))
      with (map snd (replacement_items digits cs)).
    apply (items_values digits cs Hfit). }
  destruct (gen_map_prefix_fails (dict_lookup inv) (fun c => VStr [c])
              g1 y g2 None (KeyError (VStr [y]))) as [ys E].
  - intros a Ha. rewrite Forall_forall in Hg1. specialize (Hg1 a Ha).
    cbn [dict_lookup]. destruct (dict_get inv [a]) as [v|] eqn:Eg; [eauto|].
    exfalso. apply dict_get_None in Eg. apply Eg. rewrite Hkeys.
    apply in_map_iff. now exists a.
  - cbn [dict_lookup]. destruct (dict_get inv [y]) as [v|] eqn:Eg; [|reflexivity].
    exfalso. apply dict_get_Some in Eg. apply (in_map fst) in Eg.
    rewrite Hkeys in Eg. cbn [fst] in Eg. apply in_map_iff in Eg.
    destruct Eg as (c & [= ->] & Hc). contradiction.
  - rewrite E. reflexivity.
Qed.

(** When the first group of the payload holds a character that is not a
    target symbol, after target symbols only, the generator that [decode]
    returns raises the KeyNotFound error for that character before it
    yields anything.  (Target alphabet of at most 65 unique symbols.) *)
Theorem CharsetTranslator_decode_foreign_symbol (b : CharsetTranslatorBuilder)
        (T framing : Translator) (carrier p : str) (rest : list str)
        (g1 g2 : str) (y : char) :
  NoDup (charset b) ->
  len (charset b) <= 65 ->
  CharsetTranslatorBuilder_build b = Ok T ->
  EmbeddedMessageTranslator_init (start_seq b) (end_seq b) = Ok framing ->
  decode framing (VStr carrier) = Ok (VStr p) ->
  split p (separator b) = Ok ((g1 ++ y :: g2) :: rest) ->
  Forall (fun c => In c (charset b)) g1 ->
  ~ In y (charset b) ->
  decode T (VStr carrier) = Ok (VGen [] (Some (KeyError (VStr [y]))))
  /\ kind_of (KeyError (VStr [y])) = Some KeyNotFound.
Proof.
  intros Hcs Hlen HT Hf Hdec Hsplit Hg1 Hy. split; [|reflexivity].
  apply build_stages_digits in HT.
  destruct HT as (digits & pattern & Hd & Hsize & Hre & HT).
  unfold EmbeddedMessageTranslator_init in Hf. rewrite Hre in Hf.
  injection Hf as <-.
  destruct (build_chain _ T HT) as [_ HD]. rewrite HD.
  rewrite (stages_decode_groups _ _ _ _ _ _ _ _ _ Hdec Hsplit).
  destruct (canonical_digits_small (charset b) Hlen) as (digits' & Hd' & Hdu & _).
  rewrite Hd in Hd'. injection Hd' as <-.
  unfold gen_map. cbn [map gen_items].
  rewrite decode_group_foreign; auto.
  unfold len in Hsize. lia.
Qed.

Lemma CharsetTranslator_decode_foreign_symbol_witness :
  exists T,
    CharsetTranslatorBuilder_build scenario = Ok T
    /\ decode T (VStr (lit "<<BAxB-A>>"))
       = Ok (VGen [] (Some (KeyError (VStr (lit "x"))))).
Proof.
  eexists. split; [reflexivity|].
  refine (proj1 (CharsetTranslator_decode_foreign_symbol
                   scenario _ _ (lit "<<BAxB-A>>") (lit "BAxB-A") [lit "A"]
                   (lit "BA") (lit "B") 120 _ _ eq_refl eq_refl eq_refl eq_refl
                   _ _)).
  - apply nodupb_NoDup. reflexivity.
  - unfold len. simpl. lia.
  - repeat (apply Forall_cons; [apply memb_In; reflexivity|]). apply Forall_nil.
  - apply memb_false. reflexivity.
Defined.

(** ** CharsetTranslatorBuilder: setters and missing attributes *)

Lemma extend_digits_Err (digits : str) (lo : Z) (n : nat) (e : exn) :
  extend_digits digits lo n = Err e -> e = ValueError_chr_range.
Proof.
  revert digits lo. induction n as [|n IH]; intros digits lo; simpl; [discriminate|].
  unfold chr. destruct ((0 <=? lo) && (lo <? 1114112)); cbn [bind].
  - apply IH.
  - now intros [= <-].
Qed.

Lemma CharsetTranslatorBuilder_build_not_AttributeError (b : CharsetTranslatorBuilder) :
  CharsetTranslatorBuilder_build b <> Err AttributeError.
Proof.
  unfold CharsetTranslatorBuilder_build, pipe.
  destruct (canonical_digits (charset b)) as [digits|e] eqn:Hd; cbn [bind].
  - unfold Base10ToBaseNTranslator_init.
    destruct (len (charset b) <? 2); [discriminate|].
    destruct (len digits <? len (charset b)); [discriminate|].
    cbn [bind]. unfold EmbeddedMessageTranslator_init.
    destruct (re_compile _) as [pattern|e] eqn:E; cbn [bind]; [discriminate|].
    apply re_compile_Err in E. destruct E as [-> | ->]; discriminate.
  - apply extend_digits_Err in Hd. subst. discriminate.
Qed.

(** [build] raises [AttributeError] exactly when one of the setters has
    not been called; once the three have been called, in whatever order
    and however often, it builds from the values set last. *)
Theorem CharsetTranslatorBuilder_setters (self : CharsetTranslatorBuilder_attrs)
        (c s a z : str) :
  (build self = Err AttributeError
   <-> attr_charset self = None \/ attr_separator self = None
       \/ attr_start_seq self = None \/ attr_end_seq self = None)
  /\ (let b := {| charset := c; separator := s; start_seq := a; end_seq := z |} in
      build (setCharset c (setSeparator s (setSequences a z self)))
      = CharsetTranslatorBuilder_build b
      /\ build (setSequences a z (setCharset c (setSeparator s self)))
         = CharsetTranslatorBuilder_build b
      /\ build (setSeparator s (setSequences a z (setCharset c self)))
         = CharsetTranslatorBuilder_build b)
  /\ (forall c', setCharset c (setCharset c' self) = setCharset c self)
  /\ build CharsetTranslatorBuilder_new = Err AttributeError.
Proof.
  split; [|split; [|split]]; try reflexivity.
  - unfold build. split.
    + destruct (attr_charset self); [|auto].
      destruct (attr_separator self); [|auto].
      destruct (attr_start_seq self); [|auto].
      destruct (attr_end_seq self); [|auto].
      cbn [getattr bind]. intros H.
      now apply CharsetTranslatorBuilder_build_not_AttributeError in H.
    + intros H.
      destruct (attr_charset self), (attr_separator self),
        (attr_start_seq self), (attr_end_seq self);
        cbn [getattr bind]; try reflexivity.
      destruct H as [H | [H | [H | H]]]; discriminate H.
  - intros b. repeat split.
Qed.

(** ** The debugging decorator *)

Section DebugProperties.

Variable args_t : Type.
Variable render_args : args_t -> str.
Variable render_res : val -> str.

Lemma decorated_name (n : nat) (func : function args_t) :
  name args_t (decorated args_t render_args render_res (S n) func) = lit "wrapper".
Proof. reflexivity. Qed.

Lemma call_lines_length (n : nat) (func : function args_t) (args : args_t) (c : Z) :
  length (call_lines args_t render_args render_res n func args c) = n.
Proof. revert c. induction n as [|n IH]; intros c; simpl; [|rewrite IH]; reflexivity. Qed.

Lemma result_lines_length (n : nat) (func : function args_t) (res : val) (c : Z) :
  length (result_lines args_t render_args render_res n func res c) = n.
Proof.
  revert c. induction n as [|n IH]; intros c; simpl; [reflexivity|].
  rewrite length_app, IH. simpl. lia.
Qed.

Lemma decorated_call_Ok (func : function args_t) (args : args_t) (res : val) :
  (forall st, call args_t func args st = (Ok res, st)) ->
  forall n st,
    call args_t (decorated args_t render_args render_res n func) args st
    = (Ok res,
       {| debug_global_indentation_count := debug_global_indentation_count st;
          stdout := stdout st
                    ++ call_lines args_t render_args render_res n func args (debug_global_indentation_count st)
                    ++ result_lines args_t render_args render_res n func res (debug_global_indentation_count st) |}).
Proof.
  intros Hf. induction n as [|n IH]; intros st.
  - cbn [decorated call_lines result_lines app]. rewrite Hf, app_nil_r.
    now destruct st.
  - cbn [decorated debug call]. cbv zeta. rewrite IH.
    unfold print, set_count.
    cbn [debug_global_indentation_count stdout call_lines result_lines].
    f_equal; f_equal; try lia.
    rewrite <- !app_assoc. cbn [app]. reflexivity.
Qed.

Lemma decorated_call_Err (func : function args_t) (args : args_t) (e : exn) :
  (forall st, call args_t func args st = (Err e, st)) ->
  forall n st,
    call args_t (decorated args_t render_args render_res n func) args st
    = (Err e,
       {| debug_global_indentation_count :=
            debug_global_indentation_count st + Z.of_nat n;
          stdout := stdout st
                    ++ call_lines args_t render_args render_res n func args (debug_global_indentation_count st) |}).
Proof.
  intros Hf. induction n as [|n IH]; intros st.
  - cbn [decorated call_lines Z.of_nat]. rewrite Hf, app_nil_r, Z.add_0_r.
    now destruct st.
  - cbn [decorated debug call]. cbv zeta. rewrite IH.
    unfold print, set_count.
    cbn [debug_global_indentation_count stdout call_lines].
    f_equal; f_equal; try lia.
    rewrite <- !app_assoc. reflexivity.
Qed.

(** A function that neither prints nor touches the counter, under [n]
    decorators: when it returns, the decorated call returns the same
    value, the counter is what it was, and [n] call lines followed by [n]
    result lines have been printed, indented by the depth of their
    decorator; when it raises, the same exception comes out, only the [n]
    call lines have been printed and the counter is left [n] higher.  Each
    decorator but the innermost prints the name [wrapper]. *)
Theorem debug_decorated_call (func : function args_t) (args : args_t)
        (r : result val) (n : nat) (st : debug_state) :
  (forall st', call args_t func args st' = (r, st')) ->
  let c := debug_global_indentation_count st in
  let out := call args_t (decorated args_t render_args render_res n func) args st in
  fst out = r
  /\ match r with
     | Ok res =>
       debug_global_indentation_count (snd out) = c
       /\ stdout (snd out)
          = stdout st ++ call_lines args_t render_args render_res n func args c ++ result_lines args_t render_args render_res n func res c
       /\ length (stdout (snd out)) = (length (stdout st) + 2 * n)%nat
     | Err e =>
       debug_global_indentation_count (snd out) = c + Z.of_nat n
       /\ stdout (snd out) = stdout st ++ call_lines args_t render_args render_res n func args c
       /\ length (stdout (snd out)) = (length (stdout st) + n)%nat
     end
  /\ (forall k, name args_t (decorated args_t render_args render_res (S k) func) = lit "wrapper").
Proof.
  intros Hf c out. subst c out. destruct r as [res|e].
  - rewrite (decorated_call_Ok func args res Hf). cbn [fst snd
      debug_global_indentation_count stdout].
    repeat split. rewrite !length_app, call_lines_length, result_lines_length. lia.
  - rewrite (decorated_call_Err func args e Hf). cbn [fst snd
      debug_global_indentation_count stdout].
    repeat split. rewrite !length_app, call_lines_length. lia.
Qed.

End DebugProperties.

Lemma debug_decorated_call_witness :
  let f := {| name := lit "f"; call := fun (a : Z) st => (Ok (VInt a), st) |} in
  let g := {| name := lit "g";
              call := fun (a : Z) st => (@Err val ZeroDivisionError, st) |} in
  let st := {| debug_global_indentation_count := 0; stdout := [] |} in
  let render_args := fun _ : Z => lit "args=(7,) kwargs={}" in
  let render_res := fun _ : val => lit "7" in
  (let out := call Z (decorated Z render_args render_res 2 f) 7 st in
   fst out = Ok (VInt 7)
   /\ debug_global_indentation_count (snd out) = 0
   /\ stdout (snd out)
      = [lit "wrapper args=(7,) kwargs={}";
         lit "-    f args=(7,) kwargs={}";
         lit "-    f result=7";
         lit "wrapper result=7"])
  /\ (let out := call Z (decorated Z render_args render_res 2 g) 7 st in
      fst out = Err ZeroDivisionError
      /\ debug_global_indentation_count (snd out) = 2
      /\ stdout (snd out)
         = [lit "wrapper args=(7,) kwargs={}"; lit "-    g args=(7,) kwargs={}"]).
Proof.
  intros f g st render_args render_res. split.
  - destruct (debug_decorated_call Z render_args render_res f 7 (Ok (VInt 7)) 2 st
                (fun st' => eq_refl)) as (H1 & (H2 & H3 & _) & _).
    cbv zeta in *. split; [exact H1|]. split; [exact H2 | exact H3].
  - destruct (debug_decorated_call Z render_args render_res g 7
                (Err ZeroDivisionError) 2 st (fun st' => eq_refl))
      as (H1 & (H2 & H3 & _) & _).
    cbv zeta in *. split; [exact H1|]. split; [exact H2 | exact H3].
Defined.
